(** * A shallow embedding of the SPOSH action-selection engine

    The development follows the Python sources of
    [PogamutPlatform/scripting/python/sposh]: the plan elements
    ([action.py], [sense.py], [action_pattern.py], [competence.py],
    [drive.py]), the timers ([timer.py]), the agent loop ([agent.py]), the
    plan builder ([planbuilder.py]) and the lexer and parser of plan files
    ([lapparser.py]).

    Conventions.
    - A Python method that mutates [self] and calls capabilities of the host
      is a function from the object and the host state to an outcome, the
      updated object and the updated host state.  An outcome is a value or a
      raised exception; what was mutated before the exception stays mutated.
    - Competences and action patterns are the only objects that are
      referenced from several places; they live in a heap, and a reference
      is an address.  All other objects have one owner and are stored by
      value inside it.
    - Calls to the logger ([self.debug]) are left out. *)

From Stdlib Require Import ZArith List String Ascii Bool Lia.
From stdpp Require Import base option list gmap strings pretty.
Import ListNotations.

Open Scope string_scope.
Open Scope list_scope.
Open Scope Z_scope.

(** ** Python values, exceptions and outcomes *)

(** The float operations of the interpreter that the engine uses.  They are
    not part of the repository; the engine is parametric in them. *)
Class PyFloat := {
  float : Type;
  (** [float(s)] for a literal of the plan file *)
  float_of_literal : string -> float;
  (** the implicit conversion of a long in mixed arithmetic *)
  float_of_long : Z -> float;
  fmul : float -> float -> float;
  (** [None] stands for [ZeroDivisionError] *)
  fdiv : float -> float -> option float;
  fsub : float -> float -> float;
  (** [a >= b] *)
  fge : float -> float -> bool;
  (** [long(x)] *)
  long_of_float : float -> Z;
  (** truth value of a float *)
  float_truth : float -> bool
}.

Inductive exn :=
| NameError (msg : string)
| AttributeError (msg : string)
| TypeError (msg : string)
| IndexError (msg : string)
| ValueError (msg : string)
| ZeroDivisionError (msg : string)
| KeyError (key : string)
| ParseError (msg : string)
(** an exception that a capability of the host raises *)
| HostError (msg : string)
(** not exceptions of the interpreter, but ends of the model: an address
    with no object where one is expected, and a loop of the parser that has
    used up its fuel *)
| DanglingReference
| OutOfFuel.

Inductive res (A : Type) :=
| Ok (a : A)
| Raise (e : exn).
Arguments Ok {A} a.
Arguments Raise {A} e.

(** The message of the interpreter when a method is called on [None]. *)
Definition none_has_no (attr : string) : exn :=
  AttributeError ("'NoneType' object has no attribute '" +:+ attr +:+ "'").

Section Values.
Context `{PF : PyFloat}.

Inductive pyval :=
| PyNone
| PyBool (b : bool)
| PyInt (z : Z)
| PyFloatV (f : float)
| PyStr (s : string).

(** Truth value of a Python value, as [if v:] tests it. *)
Definition truthy (v : pyval) : bool :=
  match v with
  | PyNone => false
  | PyBool b => b
  | PyInt z => negb (z =? 0)
  | PyFloatV f => float_truth f
  | PyStr s => negb (String.eqb s EmptyString)
  end.

(** The comparison operators of the interpreter on values. *)
Class PyCompare := {
  py_eq : pyval -> pyval -> bool;
  py_ne : pyval -> pyval -> bool;
  py_le : pyval -> pyval -> bool;
  py_ge : pyval -> pyval -> bool;
  py_gt : pyval -> pyval -> bool;
  py_lt : pyval -> pyval -> bool;
  (** [int(s)] *)
  py_int : string -> res pyval
}.
End Values.

(** The host: the state the capabilities act on, the wall clock and
    [time.sleep]. *)
Class Host `{PF : PyFloat} (World : Type) := {
  (** [timer.timestamp()]: the clock in milliseconds *)
  host_timestamp : World -> Z;
  (** [time.sleep(seconds)] *)
  host_sleep : float -> World -> World
}.

(** ** Characters and the patterns of [sense.py] *)

Definition is_digit (c : ascii) : bool :=
  let n := nat_of_ascii c in (48 <=? n)%nat && (n <=? 57)%nat.
Definition is_octal (c : ascii) : bool :=
  let n := nat_of_ascii c in (48 <=? n)%nat && (n <=? 55)%nat.
Definition is_hex (c : ascii) : bool :=
  let n := nat_of_ascii c in
  is_digit c || ((65 <=? n)%nat && (n <=? 70)%nat)
             || ((97 <=? n)%nat && (n <=? 102)%nat).
Definition is_alpha (c : ascii) : bool :=
  let n := nat_of_ascii c in
  ((65 <=? n)%nat && (n <=? 90)%nat) || ((97 <=? n)%nat && (n <=? 122)%nat).
Definition ascii_in (c : ascii) (cs : string) : bool :=
  existsb (Ascii.eqb c) (list_ascii_of_string cs).

Definition newline : ascii := "010"%char.
Definition dquote : ascii := "034"%char.

(** The longest prefix of characters that satisfy [p], and the rest. *)
Fixpoint span (p : ascii -> bool) (s : list ascii) : list ascii * list ascii :=
  match s with
  | c :: s' =>
      if p c then let '(a, b) := span p s' in (c :: a, b) else ([], s)
  | [] => ([], [])
  end.

(** [$] without the multi-line flag: the end of the text, or just before a
    newline that ends it. *)
Definition at_dollar (s : list ascii) : bool :=
  match s with
  | [] => true
  | [c] => Ascii.eqb c newline
  | _ => false
  end.

Definition opt_char (cs : string) (s : list ascii) : list ascii :=
  match s with
  | c :: s' => if ascii_in c cs then s' else s
  | [] => s
  end.

(** One or more characters of class [p], then an optional [l] or [L], then
    the end. *)
Definition digits_then_end (p : ascii -> bool) (s : list ascii) : bool :=
  let '(ds, r) := span p s in
  match ds with
  | [] => false
  | _ => at_dollar (opt_char "lL" r)
  end.

(** [_intMatcher]: [^(0|\-?[1-9]\d*|0[0-7]+|0[xX][0-9a-fA-F]+)[lL]?$] *)
Definition intMatcher (v : string) : bool :=
  let s := list_ascii_of_string v in
  (* 0 *)
  match s with
  | "0"%char :: r => at_dollar (opt_char "lL" r)
  | _ => false
  end
  (* \-?[1-9]\d* *)
  || match opt_char "-" s with
     | c :: r => is_digit c && negb (Ascii.eqb c "0") &&
                 at_dollar (opt_char "lL" (snd (span is_digit r)))
     | [] => false
     end
  (* 0[0-7]+ *)
  || match s with
     | "0"%char :: r => digits_then_end is_octal r
     | _ => false
     end
  (* 0[xX][0-9a-fA-F]+ *)
  || match s with
     | "0"%char :: x :: r => ascii_in x "xX" && digits_then_end is_hex r
     | _ => false
     end.

(** An optional exponent [([eE][\+\-]?\d+)?], then the end. *)
Definition exponent_then_end (s : list ascii) : bool :=
  at_dollar s
  || match s with
     | e :: r =>
         ascii_in e "eE" &&
         let '(ds, r') := span is_digit (opt_char "+-" r) in
         match ds with [] => false | _ => at_dollar r' end
     | [] => false
     end.

(** [_floatMatcher]: [^\-?(\d*\.\d+|\d+\.)([eE][\+\-]?\d+)?$] *)
Definition floatMatcher (v : string) : bool :=
  let s := opt_char "-" (list_ascii_of_string v) in
  let '(ip, r) := span is_digit s in
  match r with
  | "."%char :: r' =>
      let '(fp, r'') := span is_digit r' in
      match fp, ip with
      | [], [] => false
      | [], _ => exponent_then_end r''          (* \d+\. *)
      | _, _ => exponent_then_end r''           (* \d*\.\d+ *)
      end
  | _ => false
  end.

Definition starts_with (p : string) (s : list ascii) : option (list ascii) :=
  let q := list_ascii_of_string p in
  if bool_decide (take (length q) s = q) then Some (drop (length q) s) else None.

(** [_boolMatcher]: [^[Tt]rue|[Ff]alse$].  The alternation binds weaker
    than the anchors: the pattern is [^[Tt]rue] or [[Ff]alse$], and
    [match] tries both at the start of the text. *)
Definition boolMatcher (v : string) : bool :=
  let s := list_ascii_of_string v in
  match s with
  | c :: r =>
      (ascii_in c "Tt" && bool_decide (is_Some (starts_with "rue" r)))
      || (ascii_in c "Ff" &&
          match starts_with "alse" r with
          | Some r' => at_dollar r'
          | None => false
          end)
  | [] => false
  end.

Definition addr := nat.

(** ** The lexer of plan files ([lapparser.py]) *)

Inductive token_kind :=
| LPAREN | RPAREN | COMMENT
| AP | C | DC | RDC | SDC | SRDC | NIL
| DRIVES | ELEMENTS | TRIGGER | GOAL
| HOURS | MINUTES | SECONDS | HZ | PM | NONE
| DOCUMENTATION | PREDICATE | NUMFLOAT | NUMINT | NAME | STRINGVALUE.

#[global] Instance token_kind_eq_dec : EqDecision token_kind.
Proof. solve_decision. Defined.

(** The name of a token type, which is what [Token.token] holds. *)
Definition token_name (k : token_kind) : string :=
  match k with
  | LPAREN => "LPAREN" | RPAREN => "RPAREN" | COMMENT => "COMMENT"
  | AP => "AP" | C => "C" | DC => "DC" | RDC => "RDC" | SDC => "SDC"
  | SRDC => "SRDC" | NIL => "NIL"
  | DRIVES => "DRIVES" | ELEMENTS => "ELEMENTS" | TRIGGER => "TRIGGER"
  | GOAL => "GOAL"
  | HOURS => "HOURS" | MINUTES => "MINUTES" | SECONDS => "SECONDS"
  | HZ => "HZ" | PM => "PM" | NONE => "NONE"
  | DOCUMENTATION => "DOCUMENTATION" | PREDICATE => "PREDICATE"
  | NUMFLOAT => "NUMFLOAT" | NUMINT => "NUMINT" | NAME => "NAME"
  | STRINGVALUE => "STRINGVALUE"
  end.

Record Token := { token : token_kind; value : string }.

(** [subs_pattern]: what [(\#|\;)[^\n]*] matches is removed. *)
Fixpoint strip_comments (in_comment : bool) (s : list ascii) : list ascii :=
  match s with
  | [] => []
  | c :: r =>
      if Ascii.eqb c newline then c :: strip_comments false r
      else if in_comment then strip_comments true r
      else if ascii_in c "#;" then strip_comments true r
      else c :: strip_comments false r
  end.

(** [separating_chars]: blank, parentheses, newline, carriage return, tab *)
Definition is_separating (c : ascii) : bool :=
  ascii_in c " ()" || Ascii.eqb c newline || Ascii.eqb c "013" || Ascii.eqb c "009".

Definition char_tokens (c : ascii) : option token_kind :=
  if Ascii.eqb c "(" then Some LPAREN
  else if Ascii.eqb c ")" then Some RPAREN
  else None.

(** A pattern, as [match] uses it: what is left of the text after the
    match that the pattern finds at its start, if it finds one. *)
Definition pattern : Type := list ascii -> option (list ascii).

(** [full_tokens]: a quote, any characters but a quote, a quote. *)
Definition comment_pattern : pattern := fun s =>
  match s with
  | c :: r =>
      if Ascii.eqb c dquote then
        match snd (span (fun x => negb (Ascii.eqb x dquote)) r) with
        | _ :: r' => Some r'
        | [] => None
        end
      else None
  | [] => None
  end.

Definition lower (c : ascii) : ascii :=
  let n := nat_of_ascii c in
  if (65 <=? n)%nat && (n <=? 90)%nat then ascii_of_nat (n + 32) else c.

(** A word, as it is written. *)
Definition word (p : string) : pattern := starts_with p.

(** A word under the flag [(?i)]. *)
Definition iword (p : string) : pattern := fun s =>
  let q := list_ascii_of_string p in
  if bool_decide (map lower (take (length q) s) = q)
  then Some (drop (length q) s) else None.

(** [(==|=|!=|<|>|<=|>=)]: the alternatives are tried in this order and the
    first that matches is the match. *)
Definition predicate_pattern : pattern := fun s =>
  match word "==" s with Some r => Some r | None =>
  match word "=" s with Some r => Some r | None =>
  match word "!=" s with Some r => Some r | None =>
  match word "<" s with Some r => Some r | None =>
  match word ">" s with Some r => Some r | None =>
  match word "<=" s with Some r => Some r | None =>
  word ">=" s
  end end end end end end.

(** [([eE][\+\-]?\d+)?]: the exponent is taken when it is there. *)
Definition opt_exponent (s : list ascii) : list ascii :=
  match s with
  | e :: r =>
      if ascii_in e "eE" then
        let '(ds, r') := span is_digit (opt_char "+-" r) in
        match ds with [] => s | _ => r' end
      else s
  | [] => s
  end.

(** [\-?(\d*\.\d+|\d+\.)([eE][\+\-]?\d+)?] *)
Definition numfloat_pattern : pattern := fun s =>
  let '(ip, r) := span is_digit (opt_char "-" s) in
  match r with
  | "."%char :: r' =>
      let '(fp, r'') := span is_digit r' in
      match fp, ip with
      | [], [] => None
      | [], _ => Some (opt_exponent r')
      | _, _ => Some (opt_exponent r'')
      end
  | _ => None
  end.

(** [\-?[0-9]+] *)
Definition numint_pattern : pattern := fun s =>
  let '(ds, r) := span is_digit (opt_char "-" s) in
  match ds with [] => None | _ => Some r end.

Definition is_name_char (c : ascii) : bool :=
  is_alpha c || is_digit c || ascii_in c "_-".

(** [(?i)[a-z][a-z0-9_\-]*] *)
Definition name_pattern : pattern := fun s =>
  match s with
  | c :: r => if is_alpha c then Some (snd (span is_name_char r)) else None
  | [] => None
  end.

(** [(?i)'?[a-z][a-z0-9_\-]*] *)
Definition stringvalue_pattern : pattern := fun s =>
  name_pattern (opt_char "'" s).

(** [tokens], in their order of priority. *)
Definition tokens : list (pattern * token_kind) :=
  [ (word "AP", AP); (word "C", C); (word "DC", DC); (word "RDC", RDC);
    (word "SDC", SDC); (word "SRDC", SRDC); (word "nil", NIL);
    (iword "drives", DRIVES); (iword "elements", ELEMENTS);
    (iword "trigger", TRIGGER); (iword "goal", GOAL);
    (iword "hours", HOURS); (iword "minutes", MINUTES);
    (iword "seconds", SECONDS); (iword "hz", HZ); (iword "pm", PM);
    (iword "none", NONE); (iword "documentation", DOCUMENTATION);
    (predicate_pattern, PREDICATE); (numfloat_pattern, NUMFLOAT);
    (numint_pattern, NUMINT); (name_pattern, NAME);
    (stringvalue_pattern, STRINGVALUE) ].

(** [match and len(match.group()) == len(sep_str)]: the first pattern whose
    match is all of [sep_str]. *)
Fixpoint first_full_match (tks : list (pattern * token_kind)) (sep_str : list ascii)
    : option token_kind :=
  match tks with
  | [] => None
  | (p, k) :: rest =>
      match p sep_str with
      | Some [] => Some k
      | _ => first_full_match rest sep_str
      end
  end.

Definition count_newlines (s : list ascii) : nat :=
  length (filter (fun c => c = newline) s).

Record LAPLexer := {
  lx_input : list ascii;
  lx_lineno : nat;
  (** what [error] has printed *)
  lx_printed : list string
}.

Definition LAPLexer_setInput (inputStr : string) : LAPLexer :=
  {| lx_input := strip_comments false (list_ascii_of_string inputStr);
     lx_lineno := 1; lx_printed := [] |}.

Definition illegal_character (lineno : nat) (c : ascii) : string :=
  "Line " +:+ pretty lineno +:+ ": Illegal character '" +:+ String c EmptyString +:+
  "' found".

(** The loop of [token]; every round takes at least one character off the
    input, so [fuel] beyond the length of the input is never used up. *)
Fixpoint token_loop (fuel : nat) (self : LAPLexer) : option Token * LAPLexer :=
  match fuel with
  | O => (None, self)
  | S fuel' =>
      let input := lx_input self in
      match input with
      | [] => (None, self)
      | char :: rest =>
          match comment_pattern input with
          | Some rest' =>
              let matched_str := take (length input - length rest') input in
              (Some {| token := COMMENT; value := string_of_list_ascii matched_str |},
               {| lx_input := rest';
                  lx_lineno := lx_lineno self + count_newlines matched_str;
                  lx_printed := lx_printed self |})
          | None =>
              if is_separating char then
                let self' :=
                  {| lx_input := rest;
                     lx_lineno := if Ascii.eqb char newline
                                  then lx_lineno self + 1 else lx_lineno self;
                     lx_printed := lx_printed self |} in
                match char_tokens char with
                | Some k =>
                    (Some {| token := k; value := String char EmptyString |}, self')
                | None => token_loop fuel' self'
                end
              else
                let sep_str := fst (span (fun c => negb (is_separating c)) input) in
                match first_full_match tokens sep_str with
                | Some k =>
                    (Some {| token := k; value := string_of_list_ascii sep_str |},
                     {| lx_input := drop (length sep_str) input;
                        lx_lineno := lx_lineno self + count_newlines sep_str;
                        lx_printed := lx_printed self |})
                | None =>
                    token_loop fuel'
                      {| lx_input := rest;
                         lx_lineno := lx_lineno self;
                         lx_printed := lx_printed self ++
                                       [illegal_character (lx_lineno self) char] |}
                end
          end
      end
  end.

Definition LAPLexer_token (self : LAPLexer) : option Token * LAPLexer :=
  token_loop (S (length (lx_input self))) self.

(** More fuel than the input has characters is never used up: the lexer
    returns the same with any such amount. *)
Lemma token_loop_fuel (n m : nat) :
  forall self : LAPLexer,
  (length (lx_input self) < n)%nat -> (length (lx_input self) < m)%nat ->
  token_loop n self = token_loop m self.
Proof.
  revert m. induction n as [|n IH]; intros m self Hn Hm; [lia|].
  destruct m as [|m]; [lia|].
  cbn [token_loop].
  destruct (lx_input self) as [|char rest] eqn:Hin; [reflexivity|].
  destruct (comment_pattern (char :: rest)); [reflexivity|].
  cbn [length] in Hn, Hm.
  destruct (is_separating char).
  - destruct (char_tokens char); [reflexivity|].
    apply IH; cbn [lx_input]; lia.
  - destruct (first_full_match tokens _); [reflexivity|].
    apply IH; cbn [lx_input]; lia.
Qed.

(** Sequencing of computations that may raise. *)
Notation "'do' x <- e ; k" :=
  (match e with Ok x => k | Raise err => Raise err end)
  (at level 10, x pattern, e at level 100, k at level 200, only parsing).

(** ** The plan as the parser hands it to the builder ([planbuilder.py]) *)

(** A member of a goal or trigger, or an element of an action pattern:
    a name, or a full sense [(name, value, predicate)]. *)
Inductive sense_desc :=
| SName (name : string)
| SFull (name : string) (value predicate : option string).

(** [None], or a list of senses and sense-acts. *)
Definition trigger_desc : Type := option (list sense_desc).

(** (name, trigger, triggerable, frequency) *)
Record drive_element_desc := {
  ded_name : string;
  ded_trigger : trigger_desc;
  ded_triggerable : string;
  ded_freq : option Z
}.

(** (type, name, goal, priorities) *)
Record drive_collection_desc := {
  dcd_type : string;
  dcd_name : string;
  dcd_goal : trigger_desc;
  dcd_priorities : list (list drive_element_desc)
}.

(** (name, trigger, triggerable, retries) *)
Record competence_element_desc := {
  ced_name : string;
  ced_trigger : trigger_desc;
  ced_triggerable : string;
  ced_retries : Z
}.

(** (name, time, goal, priorities) *)
Record competence_desc := {
  cd_name : string;
  cd_time : option Z;
  cd_goal : trigger_desc;
  cd_priorities : list (list competence_element_desc)
}.

(** (name, time, action sequence) *)
Record action_pattern_desc := {
  apd_name : string;
  apd_time : option Z;
  apd_elements : list sense_desc
}.

Record PlanBuilder := {
  pb_docstring : option (list string);
  pb_drivecollection : option drive_collection_desc;
  pb_actionpatterns : gmap string action_pattern_desc;
  pb_competences : gmap string competence_desc
}.

Definition PlanBuilder_init : PlanBuilder :=
  {| pb_docstring := None; pb_drivecollection := None;
     pb_actionpatterns := ∅; pb_competences := ∅ |}.

Definition setDocstring (docstring : list string) (self : PlanBuilder) : PlanBuilder :=
  {| pb_docstring := Some docstring;
     pb_drivecollection := pb_drivecollection self;
     pb_actionpatterns := pb_actionpatterns self;
     pb_competences := pb_competences self |}.

Definition setDriveCollection (drivecollection : drive_collection_desc)
    (self : PlanBuilder) : PlanBuilder :=
  {| pb_docstring := pb_docstring self;
     pb_drivecollection := Some drivecollection;
     pb_actionpatterns := pb_actionpatterns self;
     pb_competences := pb_competences self |}.

Definition has_key {A} (m : gmap string A) (k : string) : bool :=
  bool_decide (is_Some (m !! k)).

Definition addActionPattern (actionpattern : action_pattern_desc) (self : PlanBuilder)
    : res PlanBuilder :=
  let name := apd_name actionpattern in
  if has_key (pb_actionpatterns self) name then
    Raise (NameError ("More than one action pattern named '" +:+ name +:+ "'"))
  else if has_key (pb_competences self) name then
    Raise (NameError ("Action pattern name '" +:+ name +:+
                      "' clashes with competence of same name"))
  else
    Ok {| pb_docstring := pb_docstring self;
          pb_drivecollection := pb_drivecollection self;
          pb_actionpatterns := <[name := actionpattern]> (pb_actionpatterns self);
          pb_competences := pb_competences self |}.

Definition addCompetence (competence : competence_desc) (self : PlanBuilder)
    : res PlanBuilder :=
  let name := cd_name competence in
  if has_key (pb_competences self) name then
    Raise (NameError ("More than one competence named '" +:+ name +:+ "'"))
  else if has_key (pb_actionpatterns self) name then
    Raise (NameError ("Competence name '" +:+ name +:+
                      "' clashes with action pattern of same name"))
  else
    Ok {| pb_docstring := pb_docstring self;
          pb_drivecollection := pb_drivecollection self;
          pb_actionpatterns := pb_actionpatterns self;
          pb_competences := <[name := competence]> (pb_competences self) |}.

(** ** The parser of plan files ([lapparser.py]) *)

(** [long(s)] for a text that [NUMINT] matches. *)
Definition digit_value (c : ascii) : Z := Z.of_nat (nat_of_ascii c) - 48.

Definition long_of_literal (s : string) : Z :=
  let cs := list_ascii_of_string s in
  let digits := opt_char "-" cs in
  let n := fold_left (fun acc c => 10 * acc + digit_value c) digits 0 in
  match cs with
  | "-"%char :: _ => - n
  | _ => n
  end.

Section Parser.
Context `{PF : PyFloat}.

Record LAPParser := {
  p_lex : LAPLexer;
  (** the current token; [None] at the end of the input *)
  p_t : option Token
}.

(** A method of the parser: it raises, or returns a value and the parser
    as it has become. *)
Definition P (A : Type) : Type := LAPParser -> res (A * LAPParser).

Definition ret {A} (a : A) : P A := fun p => Ok (a, p).

Definition pbind {A B} (m : P A) (f : A -> P B) : P B := fun p =>
  match m p with
  | Ok (a, p') => f a p'
  | Raise e => Raise e
  end.

Definition praise {A} (e : exn) : P A := fun _ => Raise e.

Definition lift_res {A} (r : res A) : P A := fun p =>
  match r with
  | Ok a => Ok (a, p)
  | Raise e => Raise e
  end.

Notation "x <-- m ;; k" := (pbind m (fun x => k))
  (at level 100, m at next level, k at level 200, right associativity).
Notation "m ;;; k" := (pbind m (fun _ => k))
  (at level 100, k at level 200, right associativity).

Definition nextToken : P unit := fun p =>
  let '(t, lx) := LAPLexer_token (p_lex p) in
  Ok (tt, {| p_lex := lx; p_t := t |}).

(** [self.match(allowed_tokens)] *)
Definition pmatch (allowed_tokens : list token_kind) : P bool := fun p =>
  match p_t p with
  | None => Raise (ParseError "Unexpected End Of File (EOF)")
  | Some t => Ok (bool_decide (token t ∈ allowed_tokens), p)
  end.

(** [self.error(msg)] *)
Definition perror {A} (msg : string) : P A := fun p =>
  Raise (ParseError ("Line " +:+ pretty (lx_lineno (p_lex p)) +:+ ": " +:+ msg)).

(** [self._t.value] and [self._t.token] *)
Definition t_value : P string := fun p =>
  match p_t p with
  | Some t => Ok (value t, p)
  | None => Raise (none_has_no "value")
  end.

Definition t_token : P token_kind := fun p =>
  match p_t p with
  | Some t => Ok (token t, p)
  | None => Raise (none_has_no "token")
  end.

(** [if self._t:] *)
Definition t_present : P bool := fun p => Ok (bool_decide (is_Some (p_t p)), p).

(** [if not self.match(allowed): self.error(msg % self._t.value)] *)
Definition expect (allowed : list token_kind) (msg : string -> string) : P unit :=
  b <-- pmatch allowed ;;
  if b then ret tt else (v <-- t_value ;; perror (msg v)).

(** [before + "'%s'" + after], filled with [v] *)
Definition instead (before after v : string) : string :=
  before +:+ "'" +:+ v +:+ "'" +:+ after.

Definition in_of (what name : string) : string :=
  " in " +:+ what +:+ " '" +:+ name +:+ "'".

Definition out_of_fuel {A} : P A := praise OutOfFuel.

(** *** Numbers, frequencies and times *)

Definition numfloat : P float :=
  expect [NUMINT; NUMFLOAT] (instead "Expected a floating-point number instead of " "") ;;;
  val <-- t_value ;;
  nextToken ;;;
  ret (float_of_literal val).

Definition freq_unit : P token_kind :=
  expect [HOURS; MINUTES; SECONDS; HZ; PM; NONE]
    (instead "Expected a valid frequency unit instead of " "") ;;;
  unit <-- t_token ;;
  nextToken ;;;
  ret unit.

Definition time_unit : P token_kind :=
  expect [HOURS; MINUTES; SECONDS; NONE]
    (instead "Expected a valid time unit instead of " "") ;;;
  unit <-- t_token ;;
  nextToken ;;;
  ret unit.

Definition times (factor : string) (v : float) : P Z :=
  ret (long_of_float (fmul (float_of_literal factor) v)).

Definition divided (numerator : string) (v : float) : P Z :=
  match fdiv (float_of_literal numerator) v with
  | Some q => ret (long_of_float q)
  | None => praise (ZeroDivisionError "float division")
  end.

Definition freq : P Z :=
  unit <-- freq_unit ;;
  v <-- numfloat ;;
  expect [RPAREN] (instead "Expected ')' instead of " "") ;;;
  nextToken ;;;
  match unit with
  | HOURS => times "3600000.0" v
  | MINUTES => times "60000.0" v
  | SECONDS => times "1000.0" v
  | HZ => divided "1000.0" v
  | PM => divided "60000.0" v
  | _ => ret (long_of_float v)
  end.

Definition time : P Z :=
  unit <-- time_unit ;;
  v <-- numfloat ;;
  expect [RPAREN] (instead "Expected ')' instead of " "") ;;;
  nextToken ;;;
  match unit with
  | HOURS => times "3600000.0" v
  | MINUTES => times "60000.0" v
  | SECONDS => times "1000.0" v
  | _ => ret (long_of_float v)
  end.

Definition opt_comment : P unit :=
  b <-- pmatch [COMMENT] ;;
  if b then nextToken else ret tt.

(** *** Senses, goals and triggers *)

Definition sense_value : P string :=
  expect [NUMINT; NUMFLOAT; NAME; STRINGVALUE; NIL]
    (instead "Expected a valid sense value instead of " "") ;;;
  v <-- t_value ;;
  nextToken ;;;
  ret v.

Definition predicate : P string :=
  expect [PREDICATE] (instead "Expected a valid sense predicate instead of " "") ;;;
  pred <-- t_value ;;
  nextToken ;;;
  ret pred.

Definition full_sense : P sense_desc :=
  expect [LPAREN] (instead "Expected '(' instead of " "") ;;;
  nextToken ;;;
  expect [NAME] (instead "Expected sense name instead of " "") ;;;
  name <-- t_value ;;
  nextToken ;;;
  b <-- pmatch [RPAREN] ;;
  vp <-- (if b then ret (None, None)
          else
            v <-- sense_value ;;
            b' <-- pmatch [RPAREN] ;;
            if b' then ret (Some v, None)
            else (pred <-- predicate ;; ret (Some v, Some pred))) ;;
  expect [RPAREN] (instead "Expected ')' instead of " "") ;;;
  nextToken ;;;
  ret (SFull name (fst vp) (snd vp)).

(** The loop of [senses]: up to the closing parenthesis. *)
Fixpoint senses_loop (fuel : nat) (elements : list sense_desc) : P (list sense_desc) :=
  match fuel with
  | O => out_of_fuel
  | S fuel' =>
      b <-- pmatch [RPAREN] ;;
      if b then ret elements
      else
        expect [NAME; LPAREN]
          (instead "Expected either a sense-act name or '(' instead of " "") ;;;
        b' <-- pmatch [NAME] ;;
        if b' then
          v <-- t_value ;;
          nextToken ;;;
          senses_loop fuel' (elements ++ [SName v])
        else
          s <-- full_sense ;;
          senses_loop fuel' (elements ++ [s])
  end.

Definition senses (fuel : nat) : P (list sense_desc) :=
  b <-- pmatch [NIL] ;;
  if b then nextToken ;;; ret []
  else
    expect [LPAREN] (instead "Expected '(' instead of " "") ;;;
    nextToken ;;;
    elements <-- senses_loop fuel [] ;;
    nextToken ;;;
    ret elements.

(** [if senses: return senses else: return None] *)
Definition nonempty (l : list sense_desc) : trigger_desc :=
  match l with [] => None | _ => Some l end.

Definition goal (fuel : nat) : P trigger_desc :=
  expect [GOAL] (instead "Expected 'goal' instead of " "") ;;;
  nextToken ;;;
  l <-- senses fuel ;;
  expect [RPAREN] (instead "Expected ')' as the end of a goal instead of " "") ;;;
  nextToken ;;;
  ret (nonempty l).

Definition trigger (fuel : nat) : P trigger_desc :=
  expect [TRIGGER] (instead "Expected 'trigger' instead of " "") ;;;
  nextToken ;;;
  l <-- senses fuel ;;
  expect [RPAREN] (instead "Expected ')' as the end of a trigger instead of " "") ;;;
  nextToken ;;;
  ret (nonempty l).

(** [while self.match(('LPAREN', )): out.append(item())] *)
Fixpoint while_lparen {A} (fuel : nat) (item : P A) (out : list A) : P (list A) :=
  match fuel with
  | O => out_of_fuel
  | S fuel' =>
      b <-- pmatch [LPAREN] ;;
      if b then (x <-- item ;; while_lparen fuel' item (out ++ [x]))
      else ret out
  end.

(** *** The drive collection *)

Definition drive_collection_id : P string :=
  expect [DC; RDC; SDC; SRDC]
    (instead "Expected the drive collection type instead of " "") ;;;
  cid <-- t_token ;;
  nextToken ;;;
  ret (token_name cid).

Definition drive_element (fuel : nat) : P drive_element_desc :=
  expect [LPAREN] (instead "Expected '(' to start drive element instead of " "") ;;;
  nextToken ;;;
  expect [NAME] (instead "Expected valid drive element name instead of " "") ;;;
  name <-- t_value ;;
  nextToken ;;;
  expect [NAME; LPAREN; NIL]
    (instead "Expected name of triggerable, '(' or 'nil' instead of "
             (in_of "drive element" name)) ;;;
  b <-- pmatch [NIL; LPAREN] ;;
  tr <-- (if b then
            b' <-- pmatch [NIL] ;;
            tr <-- (if b' then nextToken ;;; ret None
                    else nextToken ;;; trigger fuel) ;;
            expect [NAME]
              (instead "Expected name of triggerable instead of "
                       (in_of "drive elements" name)) ;;;
            ret tr
          else ret None) ;;
  triggerable <-- t_value ;;
  nextToken ;;;
  b2 <-- pmatch [LPAREN; NIL] ;;
  fr <-- (if b2 then
            b' <-- pmatch [NIL] ;;
            if b' then nextToken ;;; ret None
            else (nextToken ;;; f <-- freq ;; ret (Some f))
          else ret None) ;;
  opt_comment ;;;
  expect [RPAREN]
    (fun v => "Expected ')' instead of '" +:+ v +:+ "' as the end of drive element '"
              +:+ name +:+ "'") ;;;
  nextToken ;;;
  ret {| ded_name := name; ded_trigger := tr; ded_triggerable := triggerable;
         ded_freq := fr |}.

Definition drive_elements (fuel : nat) : P (list drive_element_desc) :=
  expect [LPAREN]
    (instead "Expected '(' to start list of drive elements instead of " "") ;;;
  nextToken ;;;
  expect [LPAREN] (instead "Expected '(' to start drive element instead of " "") ;;;
  elements <-- while_lparen fuel (drive_element fuel) [] ;;
  expect [RPAREN]
    (instead "Expected ')' to end list of drive elements instead of " "") ;;;
  nextToken ;;;
  ret elements.

Definition drive_priorities (fuel : nat) : P (list (list drive_element_desc)) :=
  expect [LPAREN]
    (instead "Expected '(' that starts list of drive elements instead of " "") ;;;
  while_lparen fuel (drive_elements fuel) [].

Definition drive_collection (fuel : nat) : P drive_collection_desc :=
  cid <-- drive_collection_id ;;
  expect [NAME] (instead "Expected a valid drive collection name instead of " "") ;;;
  name <-- t_value ;;
  nextToken ;;;
  b <-- pmatch [NIL] ;;
  g <-- (if b then
           nextToken ;;;
           expect [LPAREN]
             (instead "Expected '(' after 'nil' instead of "
                      (in_of "drive collection" name)) ;;;
           nextToken ;;;
           ret None
         else
           expect [LPAREN]
             (instead "Expected '(' after drive collection name instead of "
                      (in_of "drive collection" name)) ;;;
           nextToken ;;;
           b' <-- pmatch [GOAL] ;;
           if b' then
             g <-- goal fuel ;;
             expect [LPAREN]
               (instead "Expected '(' after goal instead of "
                        (in_of "drive collection" name)) ;;;
             nextToken ;;;
             ret g
           else ret None) ;;
  expect [DRIVES]
    (instead "Expected 'drives' instead of " (in_of "drive collection" name)) ;;;
  nextToken ;;;
  priorities <-- drive_priorities fuel ;;
  let close :=
    expect [RPAREN]
      (instead "Expected ')' to end drive collection instead of "
               (in_of "drive collection" name)) ;;;
    nextToken in
  close ;;;
  close ;;;
  ret {| dcd_type := cid; dcd_name := name; dcd_goal := g;
         dcd_priorities := priorities |}.

(** *** Competences *)

Definition competence_element (fuel : nat) : P competence_element_desc :=
  expect [LPAREN]
    (instead "Expected '(' to start a competence element instead of " "") ;;;
  nextToken ;;;
  expect [NAME] (instead "Expected competence element name instead of " "") ;;;
  name <-- t_value ;;
  nextToken ;;;
  b <-- pmatch [NIL] ;;
  tr <-- (if b then nextToken ;;; ret None
          else
            b' <-- pmatch [LPAREN] ;;
            if b' then nextToken ;;; trigger fuel else ret None) ;;
  expect [NAME]
    (instead "Expected name of triggerable instead of " (in_of "competence" name)) ;;;
  triggerable <-- t_value ;;
  nextToken ;;;
  b2 <-- pmatch [NIL] ;;
  retries <-- (if b2 then nextToken ;;; ret (-1)
               else
                 b' <-- pmatch [NUMINT] ;;
                 if b' then
                   v <-- t_value ;;
                   nextToken ;;;
                   ret (long_of_literal v)
                 else ret (-1)) ;;
  opt_comment ;;;
  expect [RPAREN]
    (instead "Expected ')' to end competence element instead of "
             (in_of "competence" name)) ;;;
  nextToken ;;;
  ret {| ced_name := name; ced_trigger := tr; ced_triggerable := triggerable;
         ced_retries := retries |}.

Definition competence_elements (fuel : nat) : P (list competence_element_desc) :=
  expect [LPAREN]
    (instead "Expected '(' as start of a list of competence elements instead of " "") ;;;
  nextToken ;;;
  expect [LPAREN]
    (instead "Expected '(' to start a competence element instead of " "") ;;;
  elements <-- while_lparen fuel (competence_element fuel) [] ;;
  expect [RPAREN]
    (instead "Expected ')' as end of a list of competence elements instead of " "") ;;;
  nextToken ;;;
  ret elements.

Definition competence_priorities (fuel : nat)
    : P (list (list competence_element_desc)) :=
  expect [LPAREN]
    (instead "Expected '(' as start of a list of competence elements instead of " "") ;;;
  while_lparen fuel (competence_elements fuel) [].

(** [( NIL | "(" <goal> | ) "("], once the token before it has been read:
    [nil] and a parenthesis, or a parenthesis and, if a goal follows, the
    goal and a parenthesis. *)
Definition goal_then_lparen (fuel : nat) (name : string) : P trigger_desc :=
  b <-- pmatch [NIL] ;;
  if b then
    nextToken ;;;
    expect [LPAREN]
      (instead "Expected '(' after 'nil' for goal instead of "
               (in_of "competence" name)) ;;;
    nextToken ;;;
    ret None
  else
    nextToken ;;;
    b' <-- pmatch [GOAL] ;;
    if b' then
      g <-- goal fuel ;;
      expect [LPAREN]
        (instead "Expected '(' after goal instead of " (in_of "competence" name)) ;;;
      nextToken ;;;
      ret g
    else ret None.

Definition competence (fuel : nat) : P competence_desc :=
  expect [C] (instead "Expected 'C' as start of competence instead of " "") ;;;
  nextToken ;;;
  expect [NAME] (instead "Expected valid competence name instead of " "") ;;;
  name <-- t_value ;;
  nextToken ;;;
  expect [LPAREN; NIL]
    (instead "Expected '(' or 'nil' after competence name instead of "
             (in_of "competence" name)) ;;;
  b <-- pmatch [NIL] ;;
  tg <-- (if b then
            nextToken ;;;
            expect [LPAREN; NIL]
              (instead "Expected '(' or 'nil' after 'nil' for time instead of "
                       (in_of "competence" name)) ;;;
            g <-- goal_then_lparen fuel name ;;
            ret (None, g)
          else
            nextToken ;;;
            b1 <-- pmatch [HOURS; MINUTES; SECONDS; NONE] ;;
            if b1 then
              t <-- time ;;
              expect [LPAREN; NIL]
                (instead "Expected '(' or 'nil' after time instead of "
                         (in_of "competence" name)) ;;;
              g <-- goal_then_lparen fuel name ;;
              ret (Some t, g)
            else
              b2 <-- pmatch [GOAL] ;;
              if b2 then
                g <-- goal fuel ;;
                expect [LPAREN]
                  (instead "Expected '(' after goal instead of "
                           (in_of "competence" name)) ;;;
                nextToken ;;;
                ret (None, g)
              else ret (None, None)) ;;
  expect [ELEMENTS]
    (instead "Expected 'elements' as start of element instead of "
             (in_of "competence" name)) ;;;
  nextToken ;;;
  elements <-- competence_priorities fuel ;;
  expect [RPAREN]
    (instead "Expected ')' to end competence elements instead of "
             (in_of "competence" name)) ;;;
  nextToken ;;;
  opt_comment ;;;
  expect [RPAREN]
    (instead "Expected ')' to end competence instead of " (in_of "competence" name)) ;;;
  nextToken ;;;
  ret {| cd_name := name; cd_time := fst tg; cd_goal := snd tg;
         cd_priorities := elements |}.

(** *** Action patterns *)

(** The loop of [action_pattern_elements]. *)
Fixpoint ap_elements_loop (fuel : nat) (elements : list sense_desc)
    : P (list sense_desc) :=
  match fuel with
  | O => out_of_fuel
  | S fuel' =>
      b <-- pmatch [NAME; LPAREN] ;;
      if b then
        b' <-- pmatch [LPAREN] ;;
        if b' then
          s <-- full_sense ;;
          ap_elements_loop fuel' (elements ++ [s])
        else
          v <-- t_value ;;
          nextToken ;;;
          ap_elements_loop fuel' (elements ++ [SName v])
      else ret elements
  end.

Definition action_pattern_elements (fuel : nat) : P (list sense_desc) :=
  expect [LPAREN; NAME]
    (instead "Expected an action pattern element name of '(' instead of " "") ;;;
  elements <-- ap_elements_loop fuel [] ;;
  expect [RPAREN] (instead "Expected ')' to end action pattern instead of " "") ;;;
  nextToken ;;;
  ret elements.

Definition action_pattern (fuel : nat) : P action_pattern_desc :=
  expect [AP] (instead "Expected 'AP' instead of " "") ;;;
  nextToken ;;;
  expect [NAME]
    (fun v => "'" +:+ v +:+ "' is not a valid name for an action pattern") ;;;
  name <-- t_value ;;
  nextToken ;;;
  b <-- pmatch [NIL] ;;
  t <-- (if b then
           nextToken ;;;
           expect [LPAREN]
             (instead "Expected '(' after 'nil' for time instead of "
                      (in_of "action pattern" name)) ;;;
           nextToken ;;;
           ret None
         else
           b' <-- pmatch [LPAREN] ;;
           if b' then
             nextToken ;;;
             b1 <-- pmatch [HOURS; MINUTES; SECONDS; NONE] ;;
             if b1 then
               t <-- time ;;
               expect [LPAREN]
                 (instead "Expected '(' after time instead of "
                          (in_of "action pattern" name)) ;;;
               nextToken ;;;
               ret (Some t)
             else ret None
           else
             v <-- t_value ;;
             perror (instead "Expected '(' or 'nil' after action pattern name instead of "
                             (in_of "action pattern" name) v)) ;;
  elements <-- action_pattern_elements fuel ;;
  opt_comment ;;;
  expect [RPAREN]
    (instead "Expected ')' instead of " (in_of "action pattern" name)) ;;;
  nextToken ;;;
  ret {| apd_name := name; apd_time := t; apd_elements := elements |}.

(** *** The plan *)

(** The text of a comment token without its two quotes: [value[1:-1]]. *)
Definition unquote (v : string) : string :=
  let cs := list_ascii_of_string v in
  string_of_list_ascii (take (length cs - 2) (drop 1 cs)).

(** The loop [for i in range(3)] of [docstring]. *)
Fixpoint docstring_loop (n : nat) (docs : list string) : P (list string) :=
  match n with
  | O => ret docs
  | S n' =>
      expect [COMMENT]
        (fun v => "Expected a comment of form " +:+ String dquote "..." +:+
                  String dquote " instead of '" +:+ v +:+ "' in documentation") ;;;
      v <-- t_value ;;
      nextToken ;;;
      docstring_loop n' (docs ++ [unquote v])
  end.

Definition docstring : P (list string) :=
  expect [DOCUMENTATION]
    (instead "Expected 'documentation' as start of docstring instead of " "") ;;;
  nextToken ;;;
  docs <-- docstring_loop 3 [] ;;
  expect [RPAREN] (instead "Expected ')' to end docstring instead of " "") ;;;
  nextToken ;;;
  ret docs.

(** The counters of [plan]: action patterns, competences, docstrings and
    drive collections seen so far. *)
Record plan_counts := { n_ap : nat; n_c : nat; n_d : nat; n_dc : nat }.

(** The loop [while 1] of [plan]. *)
Fixpoint plan_loop (fuel : nat) (plan_builder : PlanBuilder) (k : plan_counts)
    : P (PlanBuilder * plan_counts) :=
  match fuel with
  | O => out_of_fuel
  | S fuel' =>
      expect [LPAREN; RPAREN]
        (instead ("Expected '(' as start of documentation / competence / " +:+
                  "action-pattern / drive-collection, or ')' to end plan, instead of ")
                 "") ;;;
      b <-- pmatch [RPAREN] ;;
      if b then nextToken ;;; ret (plan_builder, k)
      else
        nextToken ;;;
        b1 <-- pmatch [DOCUMENTATION] ;;
        if b1 then
          (if (0 <? n_ap k + n_c k + n_dc k + n_d k)%nat
           then perror "Documentation only allowed as first element in plan"
           else ret tt) ;;;
          docs <-- docstring ;;
          plan_loop fuel' (setDocstring docs plan_builder)
            {| n_ap := n_ap k; n_c := n_c k; n_d := S (n_d k); n_dc := n_dc k |}
        else
          b2 <-- pmatch [C] ;;
          if b2 then
            c <-- competence fuel ;;
            pb <-- lift_res (addCompetence c plan_builder) ;;
            plan_loop fuel' pb
              {| n_ap := n_ap k; n_c := S (n_c k); n_d := n_d k; n_dc := n_dc k |}
          else
            b3 <-- pmatch [AP] ;;
            if b3 then
              a <-- action_pattern fuel ;;
              pb <-- lift_res (addActionPattern a plan_builder) ;;
              plan_loop fuel' pb
                {| n_ap := S (n_ap k); n_c := n_c k; n_d := n_d k; n_dc := n_dc k |}
            else
              b4 <-- pmatch [DC; RDC; SDC; SRDC] ;;
              if b4 then
                (if (0 <? n_dc k)%nat
                 then perror "Only a single drive-collection allowed"
                 else ret tt) ;;;
                dc <-- drive_collection fuel ;;
                plan_loop fuel' (setDriveCollection dc plan_builder)
                  {| n_ap := n_ap k; n_c := n_c k; n_d := n_d k; n_dc := S (n_dc k) |}
              else
                v <-- t_value ;;
                perror (instead ("Expected docstring / competence / action " +:+
                                 "pattern or drive collection instead of ") "" v)
  end.

Definition plan (fuel : nat) : P PlanBuilder :=
  expect [LPAREN] (instead "Plan needs to start with '(' rather than " "") ;;;
  nextToken ;;;
  r <-- plan_loop fuel PlanBuilder_init {| n_ap := 0; n_c := 0; n_d := 0; n_dc := 0 |} ;;
  let '(plan_builder, k) := r in
  present <-- t_present ;;
  (if present then
     v <-- t_value ;; perror (instead "Illegal token " " after end of plan" v)
   else ret tt) ;;;
  (if (n_dc k =? 0)%nat && negb (n_ap k + n_c k =? 1)%nat then
     perror ("Illegal plan: A plan without a drive-collection " +:+
             "only allows for a SINLGE action-pattern OR a SINGLE " +:+
             "competence")
   else ret tt) ;;;
  ret plan_builder.

Definition start (fuel : nat) : P PlanBuilder :=
  nextToken ;;;
  plan fuel.

(** [LAPLexer(input_str)]: an empty text sets no input. *)
Definition LAPLexer_init (inputStr : string) : LAPLexer :=
  if String.eqb inputStr EmptyString
  then {| lx_input := []; lx_lineno := 1; lx_printed := [] |}
  else LAPLexer_setInput inputStr.

(** [LAPParser().parse(input_str)], with fuel for the loops of the parser. *)
Definition parse_with (fuel : nat) (input_str : string) : res PlanBuilder :=
  match start fuel {| p_lex := LAPLexer_init input_str; p_t := None |} with
  | Ok (plan_builder, _) => Ok plan_builder
  | Raise e => Raise e
  end.

(** Every round of a loop of the parser reads a token, and a token is at
    least one character, so the length of the text is fuel enough. *)
Definition parse (input_str : string) : res PlanBuilder :=
  parse_with (S (String.length input_str)) input_str.

End Parser.

Section Engine.
Context `{PF : PyFloat} `{PC : !PyCompare} {World : Type} `{HW : !Host World}.

(** ** The behaviour dictionary ([behaviour_dict.py]) *)

(** A capability of a behaviour: a method without arguments that acts on
    the host and returns a value or raises. *)
Definition callable : Type := World -> res pyval * World.

(** [_actions] and [_senses]: name -> (method, behaviour).  Of a
    behaviour the engine only ever uses its name. *)
Record BehaviourDict := {
  bd_actions : gmap string (callable * string);
  bd_senses : gmap string (callable * string)
}.

Definition not_provided (kind name : string) : exn :=
  NameError (kind +:+ " '" +:+ name +:+ "' not provided by any behaviour").

Definition getAction (bd : BehaviourDict) (actionName : string) : res callable :=
  match bd_actions bd !! actionName with
  | Some mb => Ok (fst mb)
  | None => Raise (not_provided "Action" actionName)
  end.

Definition getActionBehaviour (bd : BehaviourDict) (actionName : string) : res string :=
  match bd_actions bd !! actionName with
  | Some mb => Ok (snd mb)
  | None => Raise (not_provided "Action" actionName)
  end.

Definition getSense (bd : BehaviourDict) (senseName : string) : res callable :=
  match bd_senses bd !! senseName with
  | Some mb => Ok (fst mb)
  | None => Raise (not_provided "Sense" senseName)
  end.

Definition getSenseBehaviour (bd : BehaviourDict) (senseName : string) : res string :=
  match bd_senses bd !! senseName with
  | Some mb => Ok (snd mb)
  | None => Raise (not_provided "Sense" senseName)
  end.

(** [name in getActionNames()] and [name in getSenseNames()] *)
Definition in_action_names (bd : BehaviourDict) (name : string) : bool :=
  bool_decide (is_Some (bd_actions bd !! name)).
Definition in_sense_names (bd : BehaviourDict) (name : string) : bool :=
  bool_decide (is_Some (bd_senses bd !! name)).

(** ** Actions ([action.py]) *)

Record Action := { a_action : callable; a_name : string }.

Definition Action_init (bd : BehaviourDict) (action_name : string) : res Action :=
  match getAction bd action_name with
  | Raise e => Raise e
  | Ok m =>
      match getActionBehaviour bd action_name with
      | Raise e => Raise e
      | Ok behaviour =>
          Ok {| a_action := m; a_name := behaviour +:+ "." +:+ action_name |}
      end
  end.

Definition Action_fire (self : Action) (w : World) : res bool * World :=
  match a_action self w with
  | (Ok v, w') => (Ok (truthy v), w')
  | (Raise e, w') => (Raise e, w')
  end.

(** ** Senses and triggers ([sense.py]) *)

Record Sense := {
  s_sense : callable;
  s_name : string;
  (** [None] is Python's [None] *)
  s_value : option pyval;
  s_pred : string
}.

Definition Sense_convertValue (value : option string) : res (option pyval) :=
  match value with
  | None => Ok None
  | Some v =>
      if String.eqb v EmptyString then Ok None
      else if intMatcher v then
        match py_int v with
        | Ok z => Ok (Some z)
        | Raise e => Raise e
        end
      else if floatMatcher v then Ok (Some (PyFloatV (float_of_literal v)))
      else if boolMatcher v then
        (* [if value: return 1 else: return 0], on the text itself *)
        if truthy (PyStr v) then Ok (Some (PyInt 1)) else Ok (Some (PyInt 0))
      else Ok (Some (PyStr v))
  end.

Definition Sense_init (bd : BehaviourDict) (sense_name : string)
    (value predicate : option string) : res Sense :=
  match getSense bd sense_name with
  | Raise e => Raise e
  | Ok m =>
      match getSenseBehaviour bd sense_name with
      | Raise e => Raise e
      | Ok behaviour =>
          match Sense_convertValue value with
          | Raise e => Raise e
          | Ok v =>
              Ok {| s_sense := m;
                    s_name := behaviour +:+ "." +:+ sense_name;
                    s_value := v;
                    s_pred := match predicate with
                              | None => "=="
                              | Some p => if String.eqb p EmptyString then "==" else p
                              end |}
          end
      end
  end.

Definition Sense_fire (self : Sense) (w : World) : res bool * World :=
  match s_sense self w with
  | (Raise e, w') => (Raise e, w')
  | (Ok result, w') =>
      let pred := s_pred self in
      match s_value self with
      | None => (Ok (truthy result), w')
      | Some value =>
          if String.eqb pred "==" then (Ok (py_eq result value), w')
          else if String.eqb pred "!=" then (Ok (py_ne result value), w')
          else if String.eqb pred "<=" then (Ok (py_le result value), w')
          else if String.eqb pred ">=" then (Ok (py_ge result value), w')
          else if String.eqb pred ">" then (Ok (py_gt result value), w')
          else if String.eqb pred "<" then (Ok (py_lt result value), w')
          else (Ok (truthy result), w')
      end
  end.

Record Trigger := { t_senses : list Sense }.

(** The loop of [Trigger.fire]: stops at the first sense that fails. *)
Fixpoint senses_fire (senses : list Sense) (w : World) : res bool * World :=
  match senses with
  | [] => (Ok true, w)
  | sense :: rest =>
      match Sense_fire sense w with
      | (Raise e, w') => (Raise e, w')
      | (Ok false, w') => (Ok false, w')
      | (Ok true, w') => senses_fire rest w'
      end
  end.

Definition Trigger_fire (self : Trigger) (w : World) : res bool * World :=
  senses_fire (t_senses self) w.

(** ** Plan elements and the result of firing one *)

(** What a slot of the plan tree may hold.  Actions and senses have no
    state of their own and are held by value; a competence or an action
    pattern is held by its address in the heap. *)
Inductive element :=
| EAction (a : Action)
| ESense (s : Sense)
| ERef (p : addr)
| EDriveCollection (name : string).

Definition is_Action (e : element) : bool :=
  match e with EAction _ => true | _ => false end.

(** Modelled from the spec: [FireResult], which [element.py] declares and
    which is not among the sources.  The spec describes a result as a pair
    "continue or stop" and "hand-off target or none"; [FireResult(c, n)]
    stores both and [continueExecution()] and [nextElement()] read them
    back.  Plan elements define no truth value of their own, so a
    hand-off target that is present counts as true. *)
Record FireResult := mkFireResult {
  continueExecution : bool;
  nextElement : option element
}.

(** ** Competences ([competence.py]) *)

Record CompetenceElement := {
  ce_name : string;
  ce_trigger : option Trigger;
  ce_element : element;
  ce_max_retries : Z;
  ce_retries : Z
}.

Definition ce_set_retries (n : Z) (self : CompetenceElement) : CompetenceElement :=
  {| ce_name := ce_name self; ce_trigger := ce_trigger self;
     ce_element := ce_element self; ce_max_retries := ce_max_retries self;
     ce_retries := n |}.

Definition CompetenceElement_init (element_name : string) (trigger : option Trigger)
    (e : element) (max_retries : Z) : CompetenceElement :=
  {| ce_name := element_name; ce_trigger := trigger; ce_element := e;
     ce_max_retries := max_retries; ce_retries := 0 |}.

Definition CompetenceElement_reset (self : CompetenceElement) : CompetenceElement :=
  ce_set_retries 0 self.

Definition CompetenceElement_isReady (self : CompetenceElement) (timestamp : Z)
    (w : World) : res bool * CompetenceElement * World :=
  match ce_trigger self with
  | None => (Raise (none_has_no "fire"), self, w)
  | Some trigger =>
      match Trigger_fire trigger w with
      | (Raise e, w') => (Raise e, self, w')
      | (Ok true, w') =>
          if (ce_max_retries self <? 0) || (ce_retries self <=? ce_max_retries self)
          then (Ok true, ce_set_retries (ce_retries self + 1) self, w')
          else (Ok false, self, w')
      | (Ok false, w') => (Ok false, self, w')
      end
  end.

Definition CompetenceElement_fire (self : CompetenceElement) (w : World)
    : res FireResult * World :=
  match ce_element self with
  | EAction a =>
      match Action_fire a w with
      | (Raise e, w') => (Raise e, w')
      | (Ok _, w') => (Ok (mkFireResult false None), w')
      end
  | e => (Ok (mkFireResult true (Some e)), w)
  end.

Record CompetencePriorityElement := {
  cpe_name : string;
  cpe_elements : list CompetenceElement
}.

Definition CompetencePriorityElement_reset (self : CompetencePriorityElement)
    : CompetencePriorityElement :=
  {| cpe_name := cpe_name self;
     cpe_elements := map CompetenceElement_reset (cpe_elements self) |}.

(** The loop of [CompetencePriorityElement.fire] over [self._elements]. *)
Fixpoint fire_first_ready (elements : list CompetenceElement) (w : World)
    : res FireResult * list CompetenceElement * World :=
  match elements with
  | [] => (Ok (mkFireResult true None), [], w)
  | element :: rest =>
      match CompetenceElement_isReady element 0 w with
      | (Raise e, element', w') => (Raise e, element' :: rest, w')
      | (Ok true, element', w') =>
          let '(r, w'') := CompetenceElement_fire element' w' in
          (r, element' :: rest, w'')
      | (Ok false, element', w') =>
          let '(r, rest', w'') := fire_first_ready rest w' in
          (r, element' :: rest', w'')
      end
  end.

Definition CompetencePriorityElement_fire (self : CompetencePriorityElement)
    (w : World) : res FireResult * CompetencePriorityElement * World :=
  let '(r, elements', w') := fire_first_ready (cpe_elements self) w in
  (r, {| cpe_name := cpe_name self; cpe_elements := elements' |}, w').

Record Competence := {
  c_name : string;
  c_elements : list CompetencePriorityElement;
  c_goal : option Trigger
}.

Definition c_set_elements (l : list CompetencePriorityElement) (self : Competence)
    : Competence :=
  {| c_name := c_name self; c_elements := l; c_goal := c_goal self |}.

Definition Competence_reset (self : Competence) : Competence :=
  c_set_elements (map CompetencePriorityElement_reset (c_elements self)) self.

Definition Competence_setElements (elements : list CompetencePriorityElement)
    (self : Competence) : Competence :=
  Competence_reset (c_set_elements elements self).

(** The loop of [Competence.fire] over the priority elements: the first
    result that is not "continue without a next element" is returned. *)
Fixpoint fire_priorities (elements : list CompetencePriorityElement) (w : World)
    : res FireResult * list CompetencePriorityElement * World :=
  match elements with
  | [] => (Ok (mkFireResult false None), [], w)
  | element :: rest =>
      match CompetencePriorityElement_fire element w with
      | (Raise e, element', w') => (Raise e, element' :: rest, w')
      | (Ok result, element', w') =>
          if continueExecution result && negb (bool_decide (is_Some (nextElement result)))
          then let '(r, rest', w'') := fire_priorities rest w' in
               (r, element' :: rest', w'')
          else (Ok result, element' :: rest, w')
      end
  end.

(** [if self._goal and self._goal.fire()] *)
Definition goal_fire (goal : option Trigger) (w : World) : res bool * World :=
  match goal with
  | None => (Ok false, w)
  | Some g => Trigger_fire g w
  end.

Definition Competence_fire (self : Competence) (w : World)
    : res FireResult * Competence * World :=
  match goal_fire (c_goal self) w with
  | (Raise e, w') => (Raise e, self, w')
  | (Ok true, w') => (Ok (mkFireResult false None), self, w')
  | (Ok false, w') =>
      let '(r, elements', w'') := fire_priorities (c_elements self) w' in
      (r, c_set_elements elements' self, w'')
  end.

(** ** Action patterns ([action_pattern.py]) *)

Record ActionPattern := {
  ap_name : string;
  ap_elements : list element;
  ap_element_idx : nat
}.

Definition ap_set_idx (i : nat) (self : ActionPattern) : ActionPattern :=
  {| ap_name := ap_name self; ap_elements := ap_elements self; ap_element_idx := i |}.

Definition ActionPattern_reset (self : ActionPattern) : ActionPattern :=
  ap_set_idx 0 self.

Definition ActionPattern_setElements (elements : list element) (self : ActionPattern)
    : ActionPattern :=
  ActionPattern_reset
    {| ap_name := ap_name self; ap_elements := elements;
       ap_element_idx := ap_element_idx self |}.

(** What [fire] does once the action or sense at the cursor has been
    evaluated to [ok]. *)
Definition ap_after (ok : bool) (self : ActionPattern) : FireResult * ActionPattern :=
  if negb ok then (mkFireResult false None, ap_set_idx 0 self)
  else
    let idx := S (ap_element_idx self) in
    if (length (ap_elements self) <=? idx)%nat
    then (mkFireResult false None, ap_set_idx 0 self)
    else (mkFireResult true None, ap_set_idx idx self).

Definition ActionPattern_fire (self : ActionPattern) (w : World)
    : res FireResult * ActionPattern * World :=
  match ap_elements self !! ap_element_idx self with
  | None => (Raise (IndexError "list index out of range"), self, w)
  | Some (EAction a) =>
      match Action_fire a w with
      | (Raise e, w') => (Raise e, self, w')
      | (Ok ok, w') => let '(r, self') := ap_after ok self in (Ok r, self', w')
      end
  | Some (ESense s) =>
      match Sense_fire s w with
      | (Raise e, w') => (Raise e, self, w')
      | (Ok ok, w') => let '(r, self') := ap_after ok self in (Ok r, self', w')
      end
  | Some e =>
      (* we have a competence *)
      (Ok (mkFireResult true (Some e)), ap_set_idx 0 self, w)
  end.

(** ** The heap of shared plan elements *)

Inductive object :=
| OCompetence (c : Competence)
| OActionPattern (a : ActionPattern).

Notation heap := (gmap addr object).

(** [element.fire()] in [DriveElement.fire], for an element that is not
    an action: a competence or an action pattern is fired in place.  A
    sense returns a truth value, on which [continueExecution] does not
    exist.  A drive element never holds the drive collection itself. *)
Definition target_fire (e : element) (h : heap) (w : World)
    : res FireResult * heap * World :=
  match e with
  | EAction a =>
      match Action_fire a w with
      | (Raise x, w') => (Raise x, h, w')
      | (Ok _, w') => (Raise (AttributeError "'int' object has no attribute 'continueExecution'"), h, w')
      end
  | ESense s =>
      match Sense_fire s w with
      | (Raise x, w') => (Raise x, h, w')
      | (Ok _, w') => (Raise (AttributeError "'int' object has no attribute 'continueExecution'"), h, w')
      end
  | ERef p =>
      match h !! p with
      | Some (OCompetence c) =>
          let '(r, c', w') := Competence_fire c w in
          (r, <[p := OCompetence c']> h, w')
      | Some (OActionPattern a) =>
          let '(r, a', w') := ActionPattern_fire a w in
          (r, <[p := OActionPattern a']> h, w')
      | None => (Raise DanglingReference, h, w)
      end
  | EDriveCollection _ => (Raise DanglingReference, h, w)
  end.

(** ** Drives ([drive.py]) *)

Record DriveElement := {
  de_name : string;
  de_trigger : option Trigger;
  de_root : element;
  (** the cursor of the slip stack *)
  de_element : element;
  (** [None] when the plan gives no frequency *)
  de_max_freq : option Z;
  de_last_fired : Z
}.

Definition de_set_element (e : element) (self : DriveElement) : DriveElement :=
  {| de_name := de_name self; de_trigger := de_trigger self;
     de_root := de_root self; de_element := e;
     de_max_freq := de_max_freq self; de_last_fired := de_last_fired self |}.

Definition de_set_last_fired (t : Z) (self : DriveElement) : DriveElement :=
  {| de_name := de_name self; de_trigger := de_trigger self;
     de_root := de_root self; de_element := de_element self;
     de_max_freq := de_max_freq self; de_last_fired := t |}.

Definition DriveElement_init (element_name : string) (trigger : option Trigger)
    (root : element) (max_freq : option Z) : DriveElement :=
  {| de_name := element_name; de_trigger := trigger; de_root := root;
     de_element := root; de_max_freq := max_freq; de_last_fired := -100000 |}.

Definition DriveElement_reset (self : DriveElement) : DriveElement :=
  de_set_last_fired (-100000) (de_set_element (de_root self) self).

(** [self._max_freq < 0 or (timestamp - self._last_fired) >= self._max_freq];
    [None] is smaller than every number. *)
Definition freq_allows (max_freq : option Z) (timestamp last_fired : Z) : bool :=
  match max_freq with
  | None => true
  | Some k => (k <? 0) || (k <=? timestamp - last_fired)
  end.

Definition DriveElement_isReady (self : DriveElement) (timestamp : Z) (w : World)
    : res bool * DriveElement * World :=
  match de_trigger self with
  | None => (Raise (none_has_no "fire"), self, w)
  | Some trigger =>
      match Trigger_fire trigger w with
      | (Raise e, w') => (Raise e, self, w')
      | (Ok true, w') =>
          if freq_allows (de_max_freq self) timestamp (de_last_fired self)
          then (Ok true, de_set_last_fired timestamp self, w')
          else (Ok false, self, w')
      | (Ok false, w') => (Ok false, self, w')
      end
  end.

Definition DriveElement_fire (self : DriveElement) (h : heap) (w : World)
    : res unit * DriveElement * heap * World :=
  let element := de_element self in
  match element with
  | EAction a =>
      match Action_fire a w with
      | (Raise e, w') => (Raise e, self, h, w')
      | (Ok _, w') => (Ok tt, de_set_element (de_root self) self, h, w')
      end
  | _ =>
      match target_fire element h w with
      | (Raise e, h', w') => (Raise e, self, h', w')
      | (Ok result, h', w') =>
          if continueExecution result then
            match nextElement result with
            | Some nextElement => (Ok tt, de_set_element nextElement self, h', w')
            | None => (Ok tt, self, h', w')
            end
          else (Ok tt, de_set_element (de_root self) self, h', w')
      end
  end.

Record DrivePriorityElement := {
  dpe_name : string;
  dpe_elements : list DriveElement
}.

Definition DrivePriorityElement_reset (self : DrivePriorityElement)
    : DrivePriorityElement :=
  {| dpe_name := dpe_name self;
     dpe_elements := map DriveElement_reset (dpe_elements self) |}.

(** The loop of [DrivePriorityElement.fire]; [None] is Python's [None]. *)
Fixpoint fire_first_ready_drive (elements : list DriveElement) (timestamp : Z)
    (h : heap) (w : World)
    : res (option FireResult) * list DriveElement * heap * World :=
  match elements with
  | [] => (Ok None, [], h, w)
  | element :: rest =>
      match DriveElement_isReady element timestamp w with
      | (Raise e, element', w') => (Raise e, element' :: rest, h, w')
      | (Ok true, element', w') =>
          match DriveElement_fire element' h w' with
          | (Raise e, element'', h', w'') => (Raise e, element'' :: rest, h', w'')
          | (Ok _, element'', h', w'') =>
              (Ok (Some (mkFireResult false None)), element'' :: rest, h', w'')
          end
      | (Ok false, element', w') =>
          let '(r, rest', h', w'') := fire_first_ready_drive rest timestamp h w' in
          (r, element' :: rest', h', w'')
      end
  end.

(** ** Timers ([timer.py]) *)

Inductive Timer :=
| SteppedTimer (time : Z)
| RealTimeTimer (base last_return : Z) (proc_time : option Z) (freq : Z) (wait : float).

Definition Timer_reset (self : Timer) (w : World) : Timer :=
  match self with
  | SteppedTimer _ => SteppedTimer 0
  | RealTimeTimer _ _ _ freq wait => RealTimeTimer (host_timestamp w) 0 None freq wait
  end.

Definition SteppedTimer_init (w : World) : Timer :=
  Timer_reset (SteppedTimer 0) w.

Definition RealTimeTimer_init (loop_freq : Z) (w : World) : res Timer :=
  match fdiv (float_of_long 1) (float_of_long loop_freq) with
  | None => Raise (ZeroDivisionError "float division")
  | Some wait => Ok (Timer_reset (RealTimeTimer 0 0 None loop_freq wait) w)
  end.

Definition Timer_time (self : Timer) (w : World) : Z :=
  match self with
  | SteppedTimer time => time
  | RealTimeTimer base _ _ _ _ => host_timestamp w - base
  end.

Definition Timer_loopEnd (self : Timer) (w : World) : Timer :=
  match self with
  | SteppedTimer time => SteppedTimer (time + 1)
  | RealTimeTimer base last_return _ freq wait =>
      RealTimeTimer base last_return (Some (Timer_time self w)) freq wait
  end.

Definition Timer_loopWait (self : Timer) (w : World) : World :=
  match self with
  | SteppedTimer _ => w
  | RealTimeTimer _ _ None _ _ => w
  | RealTimeTimer _ _ (Some pc) _ wait =>
      let ts := Timer_time self w in
      let diff := float_of_long (ts - pc) in
      if fge diff wait then w else host_sleep (fsub wait diff) w
  end.

Definition DrivePriorityElement_fire (self : DrivePriorityElement) (timer : Timer)
    (h : heap) (w : World)
    : res (option FireResult) * DrivePriorityElement * heap * World :=
  let timestamp := Timer_time timer w in
  let '(r, elements', h', w') :=
    fire_first_ready_drive (dpe_elements self) timestamp h w in
  (r, {| dpe_name := dpe_name self; dpe_elements := elements' |}, h', w').

Record DriveCollection := {
  dc_name : string;
  dc_elements : list DrivePriorityElement;
  dc_goal : option Trigger
}.

Definition dc_set_elements (l : list DrivePriorityElement) (self : DriveCollection)
    : DriveCollection :=
  {| dc_name := dc_name self; dc_elements := l; dc_goal := dc_goal self |}.

Definition DriveCollection_reset (self : DriveCollection) : DriveCollection :=
  dc_set_elements (map DrivePriorityElement_reset (dc_elements self)) self.

(** The loop of [DriveCollection.fire] over the priority elements; the
    boolean tells whether one of them fired. *)
Fixpoint fire_drive_priorities (elements : list DrivePriorityElement) (timer : Timer)
    (h : heap) (w : World)
    : res bool * list DrivePriorityElement * heap * World :=
  match elements with
  | [] => (Ok false, [], h, w)
  | element :: rest =>
      match DrivePriorityElement_fire element timer h w with
      | (Raise e, element', h', w') => (Raise e, element' :: rest, h', w')
      | (Ok (Some _), element', h', w') => (Ok true, element' :: rest, h', w')
      | (Ok None, element', h', w') =>
          let '(r, rest', h'', w'') := fire_drive_priorities rest timer h' w' in
          (r, element' :: rest', h'', w'')
      end
  end.

Definition DriveCollection_fire (self : DriveCollection) (timer : Timer)
    (h : heap) (w : World) : res FireResult * DriveCollection * heap * World :=
  match goal_fire (dc_goal self) w with
  | (Raise e, w') => (Raise e, self, h, w')
  | (Ok true, w') =>
      (Ok (mkFireResult false (Some (EDriveCollection (dc_name self)))), self, h, w')
  | (Ok false, w') =>
      match fire_drive_priorities (dc_elements self) timer h w' with
      | (Raise e, elements', h', w'') =>
          (Raise e, dc_set_elements elements' self, h', w'')
      | (Ok true, elements', h', w'') =>
          (Ok (mkFireResult true None), dc_set_elements elements' self, h', w'')
      | (Ok false, elements', h', w'') =>
          (Ok (mkFireResult false None), dc_set_elements elements' self, h', w'')
      end
  end.

(** ** The agent ([agent.py]) *)

Inductive drive_result := DRIVE_FOLLOWED | DRIVE_WON | DRIVE_LOST.

(** The timer is one object: the agent and every drive priority element
    hold the same one, the one the builder sets. *)
Record Agent := {
  ag_bdict : BehaviourDict;
  ag_timer : option Timer;
  ag_dc : DriveCollection;
  ag_heap : heap
}.

Definition ag_update (timer : Timer) (dc : DriveCollection) (h : heap) (self : Agent)
    : Agent :=
  {| ag_bdict := ag_bdict self; ag_timer := Some timer; ag_dc := dc; ag_heap := h |}.

Definition followDrive (self : Agent) (w : World) : res drive_result * Agent * World :=
  match ag_timer self with
  | None => (Raise (none_has_no "loopWait"), self, w)
  | Some timer =>
      let w1 := Timer_loopWait timer w in
      match DriveCollection_fire (ag_dc self) timer (ag_heap self) w1 with
      | (Raise e, dc', h', w2) => (Raise e, ag_update timer dc' h' self, w2)
      | (Ok result, dc', h', w2) =>
          let timer' := Timer_loopEnd timer w2 in
          (Ok (if continueExecution result then DRIVE_FOLLOWED
               else if bool_decide (is_Some (nextElement result)) then DRIVE_WON
               else DRIVE_LOST),
           ag_update timer' dc' h' self, w2)
      end
  end.


(** The loops of [_checkNameClashes]. *)
Fixpoint check_clashes (bd : BehaviourDict) (kind : string) (names : list string)
    : res unit :=
  match names with
  | [] => Ok tt
  | name :: rest =>
      if in_action_names bd name then
        Raise (NameError (kind +:+ " name '" +:+ name +:+
                          "' clashes with action of same name"))
      else if in_sense_names bd name then
        Raise (NameError (kind +:+ " name '" +:+ name +:+
                          "' clashes with sense of same name"))
      else check_clashes bd kind rest
  end.

Definition checkNameClashes (self : PlanBuilder) (bd : BehaviourDict) : res unit :=
  do _ <- check_clashes bd "Competence" (map fst (map_to_list (pb_competences self)));
  check_clashes bd "Action pattern" (map fst (map_to_list (pb_actionpatterns self))).

Definition buildSenseAct (bd : BehaviourDict) (sense_name : string) : res Sense :=
  Sense_init bd sense_name None None.

Definition buildSense (bd : BehaviourDict) (name : string)
    (value predicate : option string) : res Sense :=
  Sense_init bd name value predicate.

(** The loop of [_buildGoal]. *)
Fixpoint build_senses (bd : BehaviourDict) (goal : list sense_desc)
    : res (list Sense) :=
  match goal with
  | [] => Ok []
  | sense :: rest =>
      do s <- match sense with
              | SName name => buildSenseAct bd name
              | SFull name value predicate => buildSense bd name value predicate
              end;
      do l <- build_senses bd rest;
      Ok (s :: l)
  end.

(** [None] and the empty list both count as "no goal". *)
Definition buildGoal (bd : BehaviourDict) (goal : trigger_desc)
    : res (option Trigger) :=
  match goal with
  | None | Some [] => Ok None
  | Some l =>
      do sense_list <- build_senses bd l;
      Ok (Some {| t_senses := sense_list |})
  end.

Definition buildTrigger (bd : BehaviourDict) (trigger : trigger_desc)
    : res (option Trigger) :=
  buildGoal bd trigger.

(** [competences] and [actionpatterns] map a name to the object built
    for it: here, to its address. *)
Definition getTriggerable (bd : BehaviourDict) (name : string)
    (competences actionpatterns : gmap string addr) : res element :=
  match Action_init bd name with
  | Raise (NameError _) =>
      match competences !! name with
      | Some p => Ok (ERef p)
      | None =>
          match actionpatterns !! name with
          | Some p => Ok (ERef p)
          | None =>
              Raise (NameError ("No action / competence / action pattern " +:+
                                "with name '" +:+ name +:+ "' found"))
          end
      end
  | Raise e => Raise e
  | Ok a =>
      if has_key competences name || has_key actionpatterns name then
        Raise (NameError ("Name of action '" +:+ name +:+
                          "' also held by other competence / action pattern"))
      else Ok (EAction a)
  end.

Definition buildDriveElement (bd : BehaviourDict) (e : drive_element_desc)
    (competences actionpatterns : gmap string addr) : res DriveElement :=
  do trigger <- buildTrigger bd (ded_trigger e);
  do triggerable <- getTriggerable bd (ded_triggerable e) competences actionpatterns;
  Ok (DriveElement_init (ded_name e) trigger triggerable (ded_freq e)).

Definition buildCompetenceElement (bd : BehaviourDict) (e : competence_element_desc)
    (competences actionpatterns : gmap string addr) : res CompetenceElement :=
  do trigger <- buildTrigger bd (ced_trigger e);
  do triggerable <- getTriggerable bd (ced_triggerable e) competences actionpatterns;
  Ok (CompetenceElement_init (ced_name e) trigger triggerable (ced_retries e)).

(** [for x in l: out.append(f(x))] for an [f] that may raise. *)
Fixpoint build_list {A B} (f : A -> res B) (l : list A) : res (list B) :=
  match l with
  | [] => Ok []
  | x :: rest =>
      do y <- f x;
      do ys <- build_list f rest;
      Ok (y :: ys)
  end.

(** A new object gets an address that no object has. *)
Definition alloc (o : object) (h : heap) : addr * heap :=
  let p := fresh (dom h) in (p, <[p := o]> h).

(** The loop of [_buildCompetenceStubs] over [self._competences.values()]. *)
Fixpoint competence_stubs (bd : BehaviourDict) (l : list (string * competence_desc))
    (stub_dict : gmap string addr) (h : heap) : res (gmap string addr * heap) :=
  match l with
  | [] => Ok (stub_dict, h)
  | (_, competence) :: rest =>
      let name := cd_name competence in
      do goal <- buildGoal bd (cd_goal competence);
      let '(p, h') :=
        alloc (OCompetence {| c_name := name; c_elements := []; c_goal := goal |}) h in
      competence_stubs bd rest (<[name := p]> stub_dict) h'
  end.

Definition buildCompetenceStubs (self : PlanBuilder) (bd : BehaviourDict) (h : heap)
    : res (gmap string addr * heap) :=
  competence_stubs bd (map_to_list (pb_competences self)) ∅ h.

(** The loop of [_buildActionPatternStubs]. *)
Fixpoint action_pattern_stubs (l : list (string * action_pattern_desc))
    (stub_dict : gmap string addr) (h : heap) : gmap string addr * heap :=
  match l with
  | [] => (stub_dict, h)
  | (_, pattern) :: rest =>
      let name := apd_name pattern in
      let '(p, h') :=
        alloc (OActionPattern {| ap_name := name; ap_elements := [];
                                 ap_element_idx := 0 |}) h in
      action_pattern_stubs rest (<[name := p]> stub_dict) h'
  end.

Definition buildActionPatternStubs (self : PlanBuilder) (h : heap)
    : gmap string addr * heap :=
  action_pattern_stubs (map_to_list (pb_actionpatterns self)) ∅ h.

Definition key_error (k : string) : exn := KeyError k.

(** The priority elements of the competence [competence]. *)
Definition build_competence_priorities (bd : BehaviourDict) (competence : string)
    (priorities : list (list competence_element_desc))
    (competences actionpatterns : gmap string addr)
    : res (list CompetencePriorityElement) :=
  build_list
    (fun priority_element =>
       do element_list <-
         build_list (fun e => buildCompetenceElement bd e competences actionpatterns)
                    priority_element;
       Ok {| cpe_name := competence; cpe_elements := element_list |})
    priorities.

(** The loop of [_buildCompetences] over [self._competences.keys()]. *)
Fixpoint buildCompetences (bd : BehaviourDict) (l : list (string * competence_desc))
    (competences actionpatterns : gmap string addr) (h : heap) : res heap :=
  match l with
  | [] => Ok h
  | (competence, desc) :: rest =>
      do priority_elements <-
        build_competence_priorities bd competence (cd_priorities desc)
                              competences actionpatterns;
      match competences !! competence with
      | None => Raise (key_error competence)
      | Some p =>
          match h !! p with
          | Some (OCompetence c) =>
              buildCompetences bd rest competences actionpatterns
                (<[p := OCompetence (Competence_setElements priority_elements c)]> h)
          | _ => Raise DanglingReference
          end
      end
  end.

(** One element of an action pattern; [competences] is empty for all but
    the last element. *)
Definition action_pattern_element (bd : BehaviourDict) (e : sense_desc)
    (competences : gmap string addr) : res element :=
  match e with
  | SName name =>
      if in_sense_names bd name then
        do s <- buildSenseAct bd name; Ok (ESense s)
      else getTriggerable bd name competences ∅
  | SFull name value predicate =>
      do s <- buildSense bd name value predicate; Ok (ESense s)
  end.

(** [element_names[:-1]] and [element_names[-1]] *)
Definition all_but_last {A} (l : list A) : list A := take (length l - 1)%nat l.

Definition build_action_pattern_elements (bd : BehaviourDict) (element_names : list sense_desc)
    (competences : gmap string addr) : res (list element) :=
  do element_list <-
    build_list (fun e => action_pattern_element bd e ∅) (all_but_last element_names);
  match last element_names with
  | None => Raise (IndexError "list index out of range")
  | Some e =>
      do x <- action_pattern_element bd e competences;
      Ok (element_list ++ [x])
  end.

(** The loop of [_buildActionPatterns] over [self._actionpatterns.keys()]. *)
Fixpoint buildActionPatterns (bd : BehaviourDict)
    (l : list (string * action_pattern_desc))
    (competences actionpatterns : gmap string addr) (h : heap) : res heap :=
  match l with
  | [] => Ok h
  | (actionpattern, desc) :: rest =>
      do element_list <- build_action_pattern_elements bd (apd_elements desc) competences;
      match actionpatterns !! actionpattern with
      | None => Raise (key_error actionpattern)
      | Some p =>
          match h !! p with
          | Some (OActionPattern a) =>
              buildActionPatterns bd rest competences actionpatterns
                (<[p := OActionPattern (ActionPattern_setElements element_list a)]> h)
          | _ => Raise DanglingReference
          end
      end
  end.

(** The timer that [_buildDriveCollection] sets for a drive collection of
    type [dctype]; [setTimer] resets it.  The warnings printed for [DC]
    and [RDC] are left out. *)
Definition timer_of_type (dctype : string) (w : World) : res Timer :=
  let real_time :=
    match fdiv (float_of_literal "1000.0") (float_of_literal "50.0") with
    | None => Raise (ZeroDivisionError "float division")
    | Some q => do t <- RealTimeTimer_init (long_of_float q) w; Ok (Timer_reset t w)
    end in
  if String.eqb dctype "SDC" then Ok (Timer_reset (SteppedTimer_init w) w)
  else if String.eqb dctype "SRDC" then real_time
  else if String.eqb dctype "DC" then Ok (Timer_reset (SteppedTimer_init w) w)
  else if String.eqb dctype "RDC" then real_time
  else Raise (TypeError ("Drive collection of type '" +:+ dctype +:+
                         "' not supported (only supporting SDC and SRDC, DC and RDC)."))
.

Definition build_drive_priorities (bd : BehaviourDict) (dcname : string)
    (priorities : list (list drive_element_desc))
    (competences actionpatterns : gmap string addr)
    : res (list DrivePriorityElement) :=
  build_list
    (fun priority_element =>
       do element_list <-
         build_list (fun e => buildDriveElement bd e competences actionpatterns)
                    priority_element;
       Ok {| dpe_name := dcname; dpe_elements := element_list |})
    priorities.

Definition buildDriveCollection (self : PlanBuilder) (bd : BehaviourDict)
    (competences actionpatterns : gmap string addr) (w : World)
    : res (Timer * DriveCollection) :=
  match pb_drivecollection self with
  | None => Raise (TypeError "'NoneType' object is unsubscriptable")
  | Some dc =>
      let dcname := dcd_name dc in
      do timer <- timer_of_type (dcd_type dc) w;
      do goal <- buildGoal bd (dcd_goal dc);
      do priority_elements <-
        build_drive_priorities bd dcname (dcd_priorities dc) competences actionpatterns;
      Ok (timer, {| dc_name := dcname; dc_elements := priority_elements;
                    dc_goal := goal |})
  end.

(** What [build] leaves behind: the drive collection it returns, the
    competences and action patterns it created, the timer it set on the
    agent, and the two dictionaries of stubs. *)
Record built := {
  b_dc : DriveCollection;
  b_heap : heap;
  b_timer : Timer;
  b_competences : gmap string addr;
  b_actionpatterns : gmap string addr
}.

Definition build (self : PlanBuilder) (bd : BehaviourDict) (w : World) : res built :=
  do _ <- checkNameClashes self bd;
  do (competences, h1) <- buildCompetenceStubs self bd ∅;
  let '(actionpatterns, h2) := buildActionPatternStubs self h1 in
  do h3 <- buildCompetences bd (map_to_list (pb_competences self))
                            competences actionpatterns h2;
  do h4 <- buildActionPatterns bd (map_to_list (pb_actionpatterns self))
                               competences actionpatterns h3;
  do (timer, dc) <- buildDriveCollection self bd competences actionpatterns w;
  Ok {| b_dc := dc; b_heap := h4; b_timer := timer;
        b_competences := competences; b_actionpatterns := actionpatterns |}.

(** [Agent(behaviours, plan, log)], for the behaviour dictionary that the
    behaviours make and the text of the plan file: the plan is parsed and
    built, and the agent keeps the drive collection. *)
Definition Agent_init (bd : BehaviourDict) (plan_str : string) (w : World) : res Agent :=
  do plan_builder <- parse plan_str;
  do b <- build plan_builder bd w;
  Ok {| ag_bdict := bd; ag_timer := Some (b_timer b); ag_dc := b_dc b;
        ag_heap := b_heap b |}.

(** ** Registering behaviours ([behaviour.py], [behaviour_dict.py], [agent.py]) *)

(** A behaviour, as far as the dictionary looks at it: its name (the name
    of its class), the names it lists as its actions and senses, and its
    methods by name, which is where [getattr] looks. *)
Record Behaviour := {
  bh_name : string;
  bh_actions : list string;
  bh_senses : list string;
  bh_attrs : gmap string callable
}.

(** [BehaviourDict] with all its three dictionaries: [_behaviours] beside
    [_actions] and [_senses]. *)
Record BehaviourRegistry := {
  br_behaviours : gmap string Behaviour;
  br_dict : BehaviourDict
}.

Definition BehaviourRegistry_init : BehaviourRegistry :=
  {| br_behaviours := ∅; br_dict := {| bd_actions := ∅; bd_senses := ∅ |} |}.

(** [getattr(behaviour, prefix + name)], and [getattr(behaviour, name)] when
    the behaviour has no such attribute. *)
Definition find_method (behaviour : Behaviour) (prefix name : string) : option callable :=
  match bh_attrs behaviour !! (prefix +:+ name) with
  | Some m => Some m
  | None => bh_attrs behaviour !! name
  end.

(** What the message of the [NameError] for a name that is registered
    already raises while it is put together: [self._actions[action]] is a
    pair, and a pair has no [getName]. *)
Definition tuple_has_no_getName : exn :=
  AttributeError "'tuple' object has no attribute 'getName'".

(** The loop of [registerBehaviour] over the actions. *)
Fixpoint register_actions (behaviour : Behaviour) (actions : list string)
    (registered : gmap string (callable * string))
    : res unit * gmap string (callable * string) :=
  match actions with
  | [] => (Ok tt, registered)
  | action :: rest =>
      if has_key registered action then (Raise tuple_has_no_getName, registered)
      else
        match find_method behaviour "action_" action with
        | Some actionMethod =>
            register_actions behaviour rest
              (<[action := (actionMethod, bh_name behaviour)]> registered)
        | None =>
            (Raise (AttributeError
                      ("Behaviour '" +:+ bh_name behaviour +:+
                       "' does not provide an action method named '" +:+ action +:+ "'")),
             registered)
        end
  end.

(** The loop of [registerBehaviour] over the senses. *)
Fixpoint register_senses (behaviour : Behaviour) (senses : list string)
    (registered : gmap string (callable * string))
    : res unit * gmap string (callable * string) :=
  match senses with
  | [] => (Ok tt, registered)
  | sense :: rest =>
      if has_key registered sense then (Raise tuple_has_no_getName, registered)
      else
        match find_method behaviour "sense_" sense with
        | Some senseMethod =>
            register_senses behaviour rest
              (<[sense := (senseMethod, bh_name behaviour)]> registered)
        | None =>
            (Raise (AttributeError
                      ("Behaviour '" +:+ bh_name behaviour +:+
                       "' does no provide a sense method named '" +:+ sense +:+ "'")),
             registered)
        end
  end.

Definition registerBehaviour (behaviour : Behaviour) (self : BehaviourRegistry)
    : res unit * BehaviourRegistry :=
  let actions := bh_actions behaviour in
  let senses := bh_senses behaviour in
  let behaviourName := bh_name behaviour in
  if has_key (br_behaviours self) behaviourName then
    (Raise (NameError ("Behaviour '" +:+ behaviourName +:+ "' cannot be registered twice")),
     self)
  else
    let behaviours := <[behaviourName := behaviour]> (br_behaviours self) in
    match register_actions behaviour actions (bd_actions (br_dict self)) with
    | (Raise e, registered_actions) =>
        (Raise e,
         {| br_behaviours := behaviours;
            br_dict := {| bd_actions := registered_actions;
                          bd_senses := bd_senses (br_dict self) |} |})
    | (Ok _, registered_actions) =>
        let '(r, registered_senses) :=
          register_senses behaviour senses (bd_senses (br_dict self)) in
        (r, {| br_behaviours := behaviours;
               br_dict := {| bd_actions := registered_actions;
                             bd_senses := registered_senses |} |})
    end.

Definition getBehaviour (self : BehaviourRegistry) (behav_name : string) : res Behaviour :=
  match br_behaviours self !! behav_name with
  | Some behaviour => Ok behaviour
  | None => Raise (NameError ("Cannot find behaviour '" +:+ behav_name +:+ "'"))
  end.

(** The loop of [Agent._loadBehaviours]. *)
Fixpoint register_all (behaviours : list Behaviour) (beh_dict : BehaviourRegistry)
    : res BehaviourRegistry :=
  match behaviours with
  | [] => Ok beh_dict
  | behaviour :: rest =>
      match registerBehaviour behaviour beh_dict with
      | (Ok _, beh_dict') => register_all rest beh_dict'
      | (Raise e, _) => Raise e
      end
  end.

Definition Agent_loadBehaviours (behaviours : list Behaviour) : res BehaviourRegistry :=
  register_all behaviours BehaviourRegistry_init.

(** * Properties *)

(** ** Definitions that the statements use *)

(** A trigger that every host state satisfies. *)
Definition always_true (t : Trigger) : Prop :=
  forall w, exists w', Trigger_fire t w = (Ok true, w').

(** Successive readiness checks of one competence element, the [i]-th of
    them in the host state [ws !! i]; the outcomes, and the element after
    the last check. *)
Fixpoint ce_checks (self : CompetenceElement) (ws : list World)
    : list (res bool) * CompetenceElement :=
  match ws with
  | [] => ([], self)
  | w :: ws' =>
      let '(r, self', _) := CompetenceElement_isReady self 0 w in
      let '(rs, self'') := ce_checks self' ws' in
      (r :: rs, self'')
  end.

(** ** The retry budget of a competence element *)

Lemma CompetenceElement_isReady_true (self : CompetenceElement) (t : Trigger)
    (timestamp : Z) (w : World) :
  ce_trigger self = Some t -> always_true t ->
  exists w',
    CompetenceElement_isReady self timestamp w =
      if (ce_max_retries self <? 0) || (ce_retries self <=? ce_max_retries self)
      then (Ok true, ce_set_retries (ce_retries self + 1) self, w')
      else (Ok false, self, w').
Proof.
  intros Ht Hall. destruct (Hall w) as [w' Hw'].
  exists w'. unfold CompetenceElement_isReady. rewrite Ht, Hw'. reflexivity.
Qed.

Lemma ce_checks_cons (self : CompetenceElement) (w : World) (ws : list World) :
  fst (ce_checks self (w :: ws)) =
    fst (fst (CompetenceElement_isReady self 0 w))
    :: fst (ce_checks (snd (fst (CompetenceElement_isReady self 0 w))) ws).
Proof.
  cbn [ce_checks].
  destruct (CompetenceElement_isReady self 0 w) as [[r self'] w'].
  cbn [fst snd]. destruct (ce_checks self' ws). reflexivity.
Qed.

Lemma ce_checks_from (self : CompetenceElement) (t : Trigger) (ws : list World) :
  ce_trigger self = Some t -> always_true t -> 0 <= ce_retries self ->
  forall (i : nat) (w : World), ws !! i = Some w ->
    fst (ce_checks self ws) !! i =
      Some (Ok ((ce_max_retries self <? 0)
                || (ce_retries self + Z.of_nat i <=? ce_max_retries self))).
Proof.
  revert self. induction ws as [|w0 ws IH]; intros self Ht Hall Hr i w Hi.
  - discriminate.
  - rewrite ce_checks_cons.
    destruct (CompetenceElement_isReady_true self t 0 w0 Ht Hall) as [w' Hw'].
    rewrite Hw'.
    destruct ((ce_max_retries self <? 0) || (ce_retries self <=? ce_max_retries self)) eqn:Hb;
      cbn [fst snd]; rewrite lookup_cons; destruct i as [|i].
    + rewrite Z.add_0_r, Hb. reflexivity.
    + rewrite (IH (ce_set_retries (ce_retries self + 1) self) Ht Hall
                 ltac:(cbn; lia) i w Hi).
      cbn [ce_retries ce_set_retries ce_max_retries].
      replace (ce_retries self + 1 + Z.of_nat i)
        with (ce_retries self + Z.of_nat (S i)) by lia.
      reflexivity.
    + rewrite Z.add_0_r, Hb. reflexivity.
    + rewrite (IH self Ht Hall Hr i w Hi).
      do 2 f_equal.
      apply orb_false_iff in Hb as [Hb1 Hb2]. rewrite Hb1. cbn.
      apply Z.leb_gt in Hb2.
      destruct (Z.leb_spec (ce_retries self + Z.of_nat i) (ce_max_retries self));
        destruct (Z.leb_spec (ce_retries self + Z.of_nat (S i)) (ce_max_retries self));
        try reflexivity; lia.
Qed.

(** C6.  A competence element whose trigger is always satisfied, checked
    again and again after [reset]: with a maximum of retries [r >= 0] the
    checks number 0 to [r] (the first [r + 1]) return true and every later
    one returns false, for as long as the element is not reset; with a
    negative maximum every check returns true.  [reset] sets the counter of
    consumed retries to zero and changes nothing else, and each check that
    returns true adds one to the counter. *)
Theorem CompetenceElement_retry_budget (self : CompetenceElement) (t : Trigger)
    (ws : list World) :
  ce_trigger self = Some t -> always_true t ->
  ce_retries (CompetenceElement_reset self) = 0 /\
  ce_max_retries (CompetenceElement_reset self) = ce_max_retries self /\
  ce_trigger (CompetenceElement_reset self) = ce_trigger self /\
  ce_element (CompetenceElement_reset self) = ce_element self /\
  (forall (i : nat) (w : World), ws !! i = Some w ->
     fst (ce_checks (CompetenceElement_reset self) ws) !! i =
       Some (Ok (if ce_max_retries self <? 0 then true
                 else Z.of_nat i <? ce_max_retries self + 1))) /\
  (forall timestamp w self' w',
     CompetenceElement_isReady self timestamp w = (Ok true, self', w') ->
     ce_retries self' = ce_retries self + 1).
Proof.
  intros Ht Hall. repeat split.
  - intros i w Hi.
    rewrite (ce_checks_from (CompetenceElement_reset self) t ws Ht Hall
               ltac:(cbn; lia) i w Hi).
    cbn [CompetenceElement_reset ce_set_retries ce_retries ce_max_retries].
    destruct (ce_max_retries self <? 0); cbn [orb]; [reflexivity|].
    do 2 f_equal.
    destruct (Z.leb_spec (0 + Z.of_nat i) (ce_max_retries self));
      destruct (Z.ltb_spec (Z.of_nat i) (ce_max_retries self + 1));
      try reflexivity; lia.
  - intros timestamp w self' w' H.
    destruct (CompetenceElement_isReady_true self t timestamp w Ht Hall) as [w1 H1].
    rewrite H1 in H.
    destruct ((ce_max_retries self <? 0) || (ce_retries self <=? ce_max_retries self));
      inversion H; subst; reflexivity.
Qed.

(** ** The action pattern as a state machine *)

(** The three kinds of result. *)
Definition stop_no_handoff : FireResult := mkFireResult false None.
Definition continue_no_handoff : FireResult := mkFireResult true None.
Definition hand_off (e : element) : FireResult := mkFireResult true (Some e).

(** The truth value of an action or a sense; [None] for an element that is
    neither. *)
Definition leaf_fire (e : element) (w : World) : option (res bool * World) :=
  match e with
  | EAction a => Some (Action_fire a w)
  | ESense s => Some (Sense_fire s w)
  | _ => None
  end.

Lemma ap_after_elements (ok : bool) (self : ActionPattern) :
  ap_elements (snd (ap_after ok self)) = ap_elements self /\
  ap_name (snd (ap_after ok self)) = ap_name self.
Proof.
  unfold ap_after. destruct ok; cbn [negb]; [|split; reflexivity].
  destruct (length (ap_elements self) <=? S (ap_element_idx self))%nat;
    split; reflexivity.
Qed.

Lemma ap_after_spec (ok : bool) (self : ActionPattern) :
  (ap_element_idx self < length (ap_elements self))%nat ->
  ap_after ok self =
    if ok then
      if bool_decide (S (ap_element_idx self) = length (ap_elements self))
      then (stop_no_handoff, ap_set_idx 0 self)
      else (continue_no_handoff, ap_set_idx (S (ap_element_idx self)) self)
    else (stop_no_handoff, ap_set_idx 0 self).
Proof.
  intros Hlt. unfold ap_after. destruct ok; cbn [negb]; [|reflexivity].
  destruct (Nat.leb_spec (length (ap_elements self)) (S (ap_element_idx self)));
    case_bool_decide; try reflexivity; lia.
Qed.

(** C7.  [fire] of an action pattern whose cursor is at the element [e].
    The elements and the name stay as they are and the cursor stays inside
    the pattern.  For an action or a sense: when it fails the cursor goes
    back to 0 and the result is "stop, no hand-off"; when it succeeds the
    cursor moves on, and the result is "stop, no hand-off" with the cursor
    back at 0 when that was the last element, and "continue, no hand-off"
    otherwise; when it raises, the pattern is unchanged.  For any other
    element (a competence) the cursor goes back to 0 and the result names
    that element as the hand-off target. *)
Theorem ActionPattern_fire_state_machine (self : ActionPattern) (e : element)
    (w : World) :
  ap_elements self !! ap_element_idx self = Some e ->
  exists r self' w',
    ActionPattern_fire self w = (r, self', w') /\
    ap_elements self' = ap_elements self /\
    ap_name self' = ap_name self /\
    (ap_element_idx self' < length (ap_elements self'))%nat /\
    match leaf_fire e w with
    | Some (Raise x, w1) => r = Raise x /\ self' = self /\ w' = w1
    | Some (Ok false, w1) =>
        r = Ok stop_no_handoff /\ ap_element_idx self' = 0%nat /\ w' = w1
    | Some (Ok true, w1) =>
        w' = w1 /\
        if bool_decide (S (ap_element_idx self) = length (ap_elements self))
        then r = Ok stop_no_handoff /\ ap_element_idx self' = 0%nat
        else r = Ok continue_no_handoff /\
             ap_element_idx self' = S (ap_element_idx self)
    | None => r = Ok (hand_off e) /\ ap_element_idx self' = 0%nat /\ w' = w
    end.
Proof.
  intros He.
  assert (Hlt : (ap_element_idx self < length (ap_elements self))%nat)
    by (eapply lookup_lt_Some; exact He).
  assert (Hleaf : forall o w1, leaf_fire e w = Some (o, w1) ->
            exists r self' w',
              ActionPattern_fire self w = (r, self', w') /\
              w' = w1 /\
              match o with
              | Raise x => r = Raise x /\ self' = self
              | Ok ok => r = Ok (fst (ap_after ok self)) /\ self' = snd (ap_after ok self)
              end).
  { intros o w1 Hl. unfold ActionPattern_fire. rewrite He.
    destruct e; cbn in Hl; try discriminate; inversion Hl as [Hf]; rewrite Hf;
      destruct o as [ok|x]; try (destruct (ap_after ok self) eqn:Ha);
      do 3 eexists; repeat split; reflexivity. }
  destruct (leaf_fire e w) as [[o w1]|] eqn:Hl.
  - destruct (Hleaf o w1 eq_refl) as (r & self' & w' & Hf & Hw & Ho).
    exists r, self', w'. split; [exact Hf|].
    destruct o as [ok|x].
    + destruct Ho as [-> ->].
      destruct (ap_after_elements ok self) as [He' Hn'].
      rewrite He', Hn'. repeat split.
      * rewrite (ap_after_spec ok self Hlt). destruct ok; [case_bool_decide|]; cbn; lia.
      * rewrite (ap_after_spec ok self Hlt).
        destruct ok; [|repeat split; assumption].
        split; [assumption|]. case_bool_decide; split; reflexivity.
    + destruct Ho as [-> ->]. repeat split; assumption.
  - unfold ActionPattern_fire. rewrite He.
    destruct e; cbn in Hl; try discriminate;
      do 3 eexists; (split; [reflexivity|]); cbn; repeat split; lia.
Qed.

(** ** The result that tells a failed priority element apart *)

(** The value that [CompetencePriorityElement.fire] returns when no
    element was ready. *)
Definition all_failed : FireResult := mkFireResult true None.

(** Follows the spec's words: "scans its elements in order" for "the first
    ready one".  The readiness checks alone, in order, up to the first that
    returns true: the position of that element, or [None] when no element
    is ready. *)
Fixpoint first_ready (elements : list CompetenceElement) (w : World)
    : res (option nat) * list CompetenceElement * World :=
  match elements with
  | [] => (Ok None, [], w)
  | element :: rest =>
      match CompetenceElement_isReady element 0 w with
      | (Raise e, element', w') => (Raise e, element' :: rest, w')
      | (Ok true, element', w') => (Ok (Some 0%nat), element' :: rest, w')
      | (Ok false, element', w') =>
          let '(r, rest', w'') := first_ready rest w' in
          (match r with
           | Ok (Some i) => Ok (Some (S i))
           | other => other
           end, element' :: rest', w'')
      end
  end.

Lemma CompetenceElement_fire_result (ce : CompetenceElement) (w : World)
    (r : FireResult) (w' : World) :
  CompetenceElement_fire ce w = (Ok r, w') ->
  r <> all_failed /\
  (if is_Action (ce_element ce) then r = stop_no_handoff
   else r = hand_off (ce_element ce)).
Proof.
  unfold CompetenceElement_fire. intros H.
  destruct (ce_element ce) eqn:He; cbn [is_Action].
  - destruct (Action_fire a w) as [[ok|x] w1]; inversion H; subst.
    split; [discriminate|reflexivity].
  - inversion H; subst. split; [discriminate|reflexivity].
  - inversion H; subst. split; [discriminate|reflexivity].
  - inversion H; subst. split; [discriminate|reflexivity].
Qed.

Lemma fire_first_ready_scan (elements : list CompetenceElement) (w : World) :
  match first_ready elements w with
  | (Raise x, elements', w') => fire_first_ready elements w = (Raise x, elements', w')
  | (Ok None, elements', w') => fire_first_ready elements w = (Ok all_failed, elements', w')
  | (Ok (Some i), elements', w') =>
      exists ce, elements' !! i = Some ce /\
        fire_first_ready elements w =
          (fst (CompetenceElement_fire ce w'), elements',
           snd (CompetenceElement_fire ce w'))
  end.
Proof.
  revert w. induction elements as [|element rest IH]; intros w.
  - reflexivity.
  - cbn [first_ready fire_first_ready].
    destruct (CompetenceElement_isReady element 0 w) as [[[[|]|x] element'] w'].
    + exists element'. split; [reflexivity|].
      destruct (CompetenceElement_fire element' w'); reflexivity.
    + specialize (IH w').
      destruct (first_ready rest w') as [[[[i|]|x] rest'] w''].
      * destruct IH as (ce & Hce & Hf). exists ce. split; [exact Hce|].
        rewrite Hf. reflexivity.
      * rewrite IH. reflexivity.
      * rewrite IH. reflexivity.
    + reflexivity.
Qed.

(** C8.  [CompetencePriorityElement.fire] checks the elements in order,
    fires the first that is ready and returns what that element returns; it
    returns the value "continue, no hand-off" exactly when no element is
    ready.  A competence element never returns that value: for an action
    it returns "stop, no hand-off", and otherwise "continue" with its
    target, which is present; this holds for every competence element, and
    so for those that the builder makes.  The enclosing competence goes on
    to the next priority element on exactly that value. *)
Theorem all_failed_is_distinguishable (self : CompetencePriorityElement) (w : World) :
  (forall (ce : CompetenceElement) w0 r w1,
     CompetenceElement_fire ce w0 = (Ok r, w1) ->
     r <> all_failed /\
     (if is_Action (ce_element ce) then r = stop_no_handoff
      else r = hand_off (ce_element ce))) /\
  (forall r : FireResult,
     continueExecution r && negb (bool_decide (is_Some (nextElement r))) = true
     <-> r = all_failed) /\
  match first_ready (cpe_elements self) w with
  | (Raise x, elements', w') =>
      CompetencePriorityElement_fire self w =
        (Raise x, {| cpe_name := cpe_name self; cpe_elements := elements' |}, w')
  | (Ok None, elements', w') =>
      CompetencePriorityElement_fire self w =
        (Ok all_failed, {| cpe_name := cpe_name self; cpe_elements := elements' |}, w')
  | (Ok (Some i), elements', w') =>
      exists ce, elements' !! i = Some ce /\
        CompetencePriorityElement_fire self w =
          (fst (CompetenceElement_fire ce w'),
           {| cpe_name := cpe_name self; cpe_elements := elements' |},
           snd (CompetenceElement_fire ce w'))
  end /\
  (forall r self' w',
     CompetencePriorityElement_fire self w = (Ok r, self', w') ->
     (r = all_failed <-> fst (fst (first_ready (cpe_elements self) w)) = Ok None)).
Proof.
  split; [exact CompetenceElement_fire_result|].
  split.
  { intros [c [n|]]; cbn; split; intros H; try discriminate.
    - destruct c; cbn in H; discriminate.
    - destruct c; [reflexivity|discriminate].
    - inversion H; subst. reflexivity. }
  pose proof (fire_first_ready_scan (cpe_elements self) w) as Hs.
  unfold CompetencePriorityElement_fire.
  destruct (first_ready (cpe_elements self) w) as [[[[i|]|x] elements'] w'].
  - destruct Hs as (ce & Hce & Hf). rewrite Hf. split.
    + exists ce. split; [exact Hce|reflexivity].
    + intros r self' w'' H. cbn [fst].
      destruct (CompetenceElement_fire ce w') as [r0 w1] eqn:Hfire.
      cbn [fst snd] in H. inversion H; subst.
      destruct (CompetenceElement_fire_result ce w' r w'' Hfire) as [Hne _].
      split; [intros Heq; contradiction|discriminate].
  - rewrite Hs. split; [reflexivity|].
    intros r self' w'' H. inversion H; subst. split; reflexivity.
  - rewrite Hs. split; [reflexivity|].
    intros r self' w'' H. discriminate.
Qed.

(** ** The slip stack of a drive element *)

(** Where the cursor of a drive element stands after [fire], given the
    result of the element that was fired. *)
Definition slip (self : DriveElement) (result : FireResult) : element :=
  if continueExecution result then
    match nextElement result with
    | Some target => target
    | None => de_element self
    end
  else de_root self.

(** C4.  [fire] of a drive element leaves the time of the last firing, the
    root, the trigger and the maximal frequency as they are; only the
    readiness check sets the time of the last firing, and [fire] does not
    reset it as [reset] does.  After [fire] the cursor is the root when the
    cursor was at an action; otherwise the element at the cursor is fired,
    and the cursor is the root when the result says "stop", the hand-off
    target when the result says "continue" and names one, and unchanged
    when it says "continue" and names none.  When the fired element raises,
    the drive element is unchanged. *)
Theorem DriveElement_fire_slip_stack (self : DriveElement) (h : heap) (w : World) :
  (let '(r, self', h', w') := DriveElement_fire self h w in
   de_last_fired self' = de_last_fired self /\
   de_root self' = de_root self /\
   de_trigger self' = de_trigger self /\
   de_max_freq self' = de_max_freq self /\
   match de_element self with
   | EAction a =>
       match Action_fire a w with
       | (Ok _, w1) => r = Ok tt /\ de_element self' = de_root self /\ h' = h /\ w' = w1
       | (Raise x, w1) => r = Raise x /\ self' = self /\ h' = h /\ w' = w1
       end
   | e =>
       match target_fire e h w with
       | (Ok result, h1, w1) =>
           r = Ok tt /\ de_element self' = slip self result /\ h' = h1 /\ w' = w1
       | (Raise x, h1, w1) => r = Raise x /\ self' = self /\ h' = h1 /\ w' = w1
       end
   end) /\
  (forall timestamp w0 self1 w1,
     DriveElement_isReady self timestamp w0 = (Ok true, self1, w1) ->
     de_last_fired self1 = timestamp) /\
  de_last_fired (DriveElement_reset self) = -100000 /\
  de_element (DriveElement_reset self) = de_root self.
Proof.
  split; [|split; [|split; reflexivity]].
  - unfold DriveElement_fire, slip.
    destruct (de_element self) as [a|s|p|n] eqn:He.
    + destruct (Action_fire a w) as [[ok|x] w1]; cbn; repeat split; reflexivity.
    + destruct (target_fire (ESense s) h w) as [[[result|x] h1] w1];
        [destruct (continueExecution result); [destruct (nextElement result)|]|];
        cbn; repeat split; congruence.
    + destruct (target_fire (ERef p) h w) as [[[result|x] h1] w1];
        [destruct (continueExecution result); [destruct (nextElement result)|]|];
        cbn; repeat split; congruence.
    + destruct (target_fire (EDriveCollection n) h w) as [[[result|x] h1] w1];
        [destruct (continueExecution result); [destruct (nextElement result)|]|];
        cbn; repeat split; congruence.
  - intros timestamp w0 self1 w1. unfold DriveElement_isReady.
    destruct (de_trigger self) as [t|]; [|discriminate].
    destruct (Trigger_fire t w0) as [[[|]|x] w']; try discriminate.
    destruct (freq_allows _ _ _); [|discriminate].
    intros H; inversion H; subst. reflexivity.
Qed.

(** ** The frequency of a drive element under the stepped timer *)

(** What may happen to a drive element and the timer of its agent: a
    readiness check, a firing, the end of a step.  Each happens in a state
    of the host and the heap that the rest of the engine has left. *)
Inductive de_op :=
| OpReady (w : World)
| OpFire (h : heap) (w : World)
| OpLoopEnd (w : World).

(** A run of such operations; the trace has, for each readiness check, the
    time at which it was made and its outcome. *)
Fixpoint de_run (self : DriveElement) (timer : Timer) (ops : list de_op)
    : list (Z * res bool) * DriveElement * Timer :=
  match ops with
  | [] => ([], self, timer)
  | OpReady w :: rest =>
      let timestamp := Timer_time timer w in
      let '(r, self', _) := DriveElement_isReady self timestamp w in
      let '(trace, self'', timer') := de_run self' timer rest in
      ((timestamp, r) :: trace, self'', timer')
  | OpFire h w :: rest =>
      let '(_, self', _, _) := DriveElement_fire self h w in
      de_run self' timer rest
  | OpLoopEnd w :: rest => de_run self (Timer_loopEnd timer w) rest
  end.

Lemma DriveElement_isReady_true (self : DriveElement) (t : Trigger)
    (timestamp : Z) (w : World) :
  de_trigger self = Some t -> always_true t ->
  exists w',
    DriveElement_isReady self timestamp w =
      if freq_allows (de_max_freq self) timestamp (de_last_fired self)
      then (Ok true, de_set_last_fired timestamp self, w')
      else (Ok false, self, w').
Proof.
  intros Ht Hall. destruct (Hall w) as [w' Hw'].
  exists w'. unfold DriveElement_isReady. rewrite Ht, Hw'. reflexivity.
Qed.

Lemma DriveElement_fire_frame (self : DriveElement) (h : heap) (w : World) :
  let self' := snd (fst (fst (DriveElement_fire self h w))) in
  de_last_fired self' = de_last_fired self /\
  de_trigger self' = de_trigger self /\
  de_max_freq self' = de_max_freq self.
Proof.
  pose proof (DriveElement_fire_slip_stack self h w) as [H _].
  destruct (DriveElement_fire self h w) as [[[r self'] h'] w'].
  cbn. tauto.
Qed.

(** Every check of the run that returns true is made at least [k] after the
    last firing before the run, and not before the time at which the run
    starts. *)
Lemma de_run_after (ops : list de_op) :
  forall (self : DriveElement) (t : Trigger) (k time : Z),
  de_trigger self = Some t -> always_true t ->
  de_max_freq self = Some k -> 0 <= k ->
  forall ts, In (ts, Ok true) (fst (fst (de_run self (SteppedTimer time) ops))) ->
    de_last_fired self + k <= ts /\ time <= ts.
Proof.
  induction ops as [|op ops IH]; intros self t k time Ht Hall Hk Hk0 ts Hin.
  - destruct Hin.
  - destruct op as [w|h w|w]; cbn [de_run] in Hin.
    + cbn [Timer_time] in Hin.
      destruct (DriveElement_isReady_true self t time w Ht Hall) as [w' Hr].
      rewrite Hr in Hin. unfold freq_allows in Hin. rewrite Hk in Hin.
      destruct ((k <? 0) || (k <=? time - de_last_fired self)) eqn:Hb.
      * assert (Hge : k <= time - de_last_fired self).
        { apply orb_true_iff in Hb as [Hb|Hb]; [apply Z.ltb_lt in Hb; lia|].
          apply Z.leb_le in Hb. exact Hb. }
        specialize (IH (de_set_last_fired time self) t k time Ht Hall Hk Hk0 ts).
        destruct (de_run (de_set_last_fired time self) (SteppedTimer time) ops)
          as [[trace self''] timer'].
        cbn [fst] in *. destruct Hin as [Heq|Hin].
        -- inversion Heq; subst. lia.
        -- specialize (IH Hin). cbn [de_last_fired de_set_last_fired] in IH. lia.
      * specialize (IH self t k time Ht Hall Hk Hk0 ts).
        destruct (de_run self (SteppedTimer time) ops) as [[trace self''] timer'].
        cbn [fst] in *. destruct Hin as [Heq|Hin]; [discriminate|].
        exact (IH Hin).
    + pose proof (DriveElement_fire_frame self h w) as (Hl & Htr & Hm).
      destruct (DriveElement_fire self h w) as [[[r self'] h'] w'].
      cbn [fst snd] in *.
      rewrite <- Hl.
      apply (IH self' t k time); try assumption; congruence.
    + cbn [Timer_loopEnd] in Hin.
      destruct (IH self t k (time + 1) Ht Hall Hk Hk0 ts Hin). lia.
Qed.

Lemma de_run_gaps (ops : list de_op) :
  forall (self : DriveElement) (t : Trigger) (k time : Z),
  de_trigger self = Some t -> always_true t ->
  de_max_freq self = Some k -> 0 <= k ->
  forall (i j : nat) (ti tj : Z), (i < j)%nat ->
    fst (fst (de_run self (SteppedTimer time) ops)) !! i = Some (ti, Ok true) ->
    fst (fst (de_run self (SteppedTimer time) ops)) !! j = Some (tj, Ok true) ->
    k <= tj - ti.
Proof.
  induction ops as [|op ops IH]; intros self t k time Ht Hall Hk Hk0 i j ti tj Hij Hi Hj.
  - discriminate.
  - destruct op as [w|h w|w]; cbn [de_run] in Hi, Hj.
    + cbn [Timer_time] in Hi, Hj.
      destruct (DriveElement_isReady_true self t time w Ht Hall) as [w' Hr].
      rewrite Hr in Hi, Hj.
      destruct (freq_allows (de_max_freq self) time (de_last_fired self)).
      * pose proof (de_run_after ops (de_set_last_fired time self) t k time
                      Ht Hall Hk Hk0) as Hafter.
        specialize (IH (de_set_last_fired time self) t k time Ht Hall Hk Hk0).
        destruct (de_run (de_set_last_fired time self) (SteppedTimer time) ops)
          as [[trace self''] timer'].
        cbn [fst] in *.
        destruct j as [|j]; [lia|]. rewrite lookup_cons in Hj.
        destruct i as [|i]; rewrite lookup_cons in Hi.
        -- inversion Hi; subst.
           destruct (Hafter tj) as [Ha _].
           { apply list_elem_of_In. eapply list_elem_of_lookup_2. exact Hj. }
           cbn [de_last_fired de_set_last_fired] in Ha. lia.
        -- apply (IH i j ti tj); [lia|assumption|assumption].
      * specialize (IH self t k time Ht Hall Hk Hk0).
        destruct (de_run self (SteppedTimer time) ops) as [[trace self''] timer'].
        cbn [fst] in *.
        destruct j as [|j]; [lia|]. rewrite lookup_cons in Hj.
        destruct i as [|i]; rewrite lookup_cons in Hi; [discriminate|].
        apply (IH i j ti tj); [lia|assumption|assumption].
    + pose proof (DriveElement_fire_frame self h w) as (Hl & Htr & Hm).
      destruct (DriveElement_fire self h w) as [[[r self'] h'] w'].
      cbn [fst snd] in *.
      apply (IH self' t k time ltac:(congruence) Hall ltac:(congruence) Hk0 i j ti tj);
        assumption.
    + cbn [Timer_loopEnd] in Hi, Hj.
      apply (IH self t k (time + 1) Ht Hall Hk Hk0 i j ti tj); assumption.
Qed.

(** C5.  A drive element whose trigger is always true and whose maximal
    frequency is [k >= 0], under the stepped timer, through any run of
    readiness checks, firings and ends of steps: between two checks that
    return true the timer has advanced by at least [k].  A check that
    returns true sets the time of the last firing to the time of the check,
    and the end of a step advances the stepped timer by exactly 1. *)
Theorem DriveElement_frequency_gating (self : DriveElement) (t : Trigger)
    (k time : Z) (ops : list de_op) :
  de_trigger self = Some t -> always_true t ->
  de_max_freq self = Some k -> 0 <= k ->
  (forall (i j : nat) (ti tj : Z), (i < j)%nat ->
     fst (fst (de_run self (SteppedTimer time) ops)) !! i = Some (ti, Ok true) ->
     fst (fst (de_run self (SteppedTimer time) ops)) !! j = Some (tj, Ok true) ->
     k <= tj - ti) /\
  (forall timestamp w self' w',
     DriveElement_isReady self timestamp w = (Ok true, self', w') ->
     de_last_fired self' = timestamp /\ k <= timestamp - de_last_fired self) /\
  (forall w w', Timer_time (Timer_loopEnd (SteppedTimer time) w) w' = time + 1) /\
  (forall w, Timer_time (SteppedTimer_init w) w = 0).
Proof.
  intros Ht Hall Hk Hk0. split; [|split; [|split]].
  - exact (de_run_gaps ops self t k time Ht Hall Hk Hk0).
  - intros timestamp w self' w' H.
    destruct (DriveElement_isReady_true self t timestamp w Ht Hall) as [w1 H1].
    rewrite H1 in H. unfold freq_allows in H. rewrite Hk in H.
    destruct ((k <? 0) || (k <=? timestamp - de_last_fired self)) eqn:Hb;
      inversion H; subst.
    split; [reflexivity|].
    apply orb_true_iff in Hb as [Hb|Hb]; [apply Z.ltb_lt in Hb; lia|].
    apply Z.leb_le in Hb. exact Hb.
  - reflexivity.
  - reflexivity.
Qed.

(** ** The outcome of a step *)

(** The goal is set and satisfied in the host state [w]. *)
Definition goal_satisfied (goal : option Trigger) (w : World) : Prop :=
  exists g w', goal = Some g /\ Trigger_fire g w = (Ok true, w').

(** Follows the spec's words: a drive priority element "fires the first
    ready DriveElement".  The elements before it are checked and are not
    ready; it is checked, is ready, and is fired. *)
Inductive fires_ready : list DriveElement -> Z -> heap -> World -> Prop :=
| fires_here (element : DriveElement) rest timestamp h w element' w' element'' h' w'' :
    DriveElement_isReady element timestamp w = (Ok true, element', w') ->
    DriveElement_fire element' h w' = (Ok tt, element'', h', w'') ->
    fires_ready (element :: rest) timestamp h w
| fires_later (element : DriveElement) rest timestamp h w element' w' :
    DriveElement_isReady element timestamp w = (Ok false, element', w') ->
    fires_ready rest timestamp h w' ->
    fires_ready (element :: rest) timestamp h w.

(** Follows the spec's words: the drive collection "tries each
    DrivePriorityElement in priority order", and the first success wins.
    The priority elements before the one that fires report a failure. *)
Inductive priority_fired
  : list DrivePriorityElement -> Timer -> heap -> World -> Prop :=
| fired_first (element : DrivePriorityElement) rest timer h w :
    fires_ready (dpe_elements element) (Timer_time timer w) h w ->
    priority_fired (element :: rest) timer h w
| fired_next (element : DrivePriorityElement) rest timer h w element' h' w' :
    DrivePriorityElement_fire element timer h w = (Ok None, element', h', w') ->
    priority_fired rest timer h' w' ->
    priority_fired (element :: rest) timer h w.

Lemma fire_first_ready_drive_fires (elements : list DriveElement) (timestamp : Z) :
  forall h w,
  fires_ready elements timestamp h w <->
  exists r elements' h' w',
    fire_first_ready_drive elements timestamp h w = (Ok (Some r), elements', h', w').
Proof.
  induction elements as [|element rest IH]; intros h w.
  - split; [intros H; inversion H|intros (r & e & h' & w' & H); discriminate].
  - cbn [fire_first_ready_drive]. split.
    + intros H.
      inversion H as [e r0 ts h0 w0 e' w' e'' h' w'' Hr Hf
                     |e r0 ts h0 w0 e' w' Hr Hrest]; subst.
      * rewrite Hr, Hf. do 4 eexists. reflexivity.
      * rewrite Hr. apply IH in Hrest as (r & e & h' & w'' & Hf).
        rewrite Hf. do 4 eexists. reflexivity.
    + intros (r & e & h' & w' & H).
      destruct (DriveElement_isReady element timestamp w)
        as [[[[|]|x] element'] w1] eqn:Hr; [| |discriminate].
      * destruct (DriveElement_fire element' h w1)
          as [[[[[]|x] element''] h1] w2] eqn:Hf; [|discriminate].
        eapply fires_here; eassumption.
      * eapply fires_later; [eassumption|].
        apply IH.
        destruct (fire_first_ready_drive rest timestamp h w1)
          as [[[[[r0|]|x] rest'] h1] w2]; try discriminate.
        do 4 eexists. reflexivity.
Qed.

Lemma fire_drive_priorities_fired (elements : list DrivePriorityElement)
    (timer : Timer) :
  forall h w b elements' h' w',
  fire_drive_priorities elements timer h w = (Ok b, elements', h', w') ->
  (b = true <-> priority_fired elements timer h w).
Proof.
  induction elements as [|element rest IH]; intros h w b elements' h' w' H.
  - inversion H; subst. split; [discriminate|intros Hp; inversion Hp].
  - cbn [fire_drive_priorities] in H.
    destruct (DrivePriorityElement_fire element timer h w)
      as [[[[[r|]|x] element'] h1] w1] eqn:Hf; [| |discriminate].
    + inversion H; subst. split; [intros _|reflexivity].
      apply fired_first. apply fire_first_ready_drive_fires.
      unfold DrivePriorityElement_fire in Hf.
      destruct (fire_first_ready_drive (dpe_elements element) (Timer_time timer w) h w)
        as [[[r0 e0] h0] w0]. inversion Hf; subst. do 4 eexists. reflexivity.
    + destruct (fire_drive_priorities rest timer h1 w1)
        as [[[r0 rest'] h2] w2] eqn:Hrest.
      inversion H; subst.
      specialize (IH h1 w1 b rest' h' w' Hrest). split.
      * intros Hb. eapply fired_next; [exact Hf|]. apply IH. exact Hb.
      * intros Hp.
        inversion Hp as [e r1 tm h0 w0 Hfr|e r1 tm h0 w0 e' h3 w3 Hfe Hpr]; subst.
        -- apply fire_first_ready_drive_fires in Hfr as (r & e & h0 & w0 & Hs).
           unfold DrivePriorityElement_fire in Hf. rewrite Hs in Hf. discriminate.
        -- rewrite Hf in Hfe. inversion Hfe; subst. apply IH. exact Hpr.
Qed.

(** C3.  One step of an agent that returns: the outcome is [DRIVE_WON]
    exactly when the goal of the drive collection is set and satisfied at
    the start of the step; otherwise it is [DRIVE_FOLLOWED] exactly when a
    drive priority element fired a ready drive element, the priority
    elements being tried in order and the first success ending the step;
    otherwise it is [DRIVE_LOST]. *)
Theorem followDrive_outcome (self : Agent) (timer : Timer) (w : World)
    (r : drive_result) (self' : Agent) (w' : World) :
  ag_timer self = Some timer ->
  followDrive self w = (Ok r, self', w') ->
  let w1 := Timer_loopWait timer w in
  let goal := dc_goal (ag_dc self) in
  let fired :=
    priority_fired (dc_elements (ag_dc self)) timer (ag_heap self)
                   (snd (goal_fire goal w1)) in
  (r = DRIVE_WON <-> goal_satisfied goal w1) /\
  (r = DRIVE_FOLLOWED <-> ~ goal_satisfied goal w1 /\ fired) /\
  (r = DRIVE_LOST <-> ~ goal_satisfied goal w1 /\ ~ fired).
Proof.
  intros Ht H. cbn zeta. unfold followDrive in H. rewrite Ht in H.
  unfold DriveCollection_fire in H.
  set (w1 := Timer_loopWait timer w) in *.
  assert (Hgoal : forall b w2, goal_fire (dc_goal (ag_dc self)) w1 = (Ok b, w2) ->
                    (b = true <-> goal_satisfied (dc_goal (ag_dc self)) w1)).
  { intros b w2 Hg. unfold goal_satisfied, goal_fire in *.
    destruct (dc_goal (ag_dc self)) as [g|].
    - split.
      + intros ->. exists g, w2. split; [reflexivity|exact Hg].
      + intros (g' & w3 & Hg' & Hf). inversion Hg'; subst. rewrite Hf in Hg.
        inversion Hg. reflexivity.
    - inversion Hg; subst. split; [discriminate|].
      intros (g' & w3 & Hg' & _). discriminate. }
  destruct (goal_fire (dc_goal (ag_dc self)) w1) as [[[|]|x] w2] eqn:Hg;
    [| |discriminate].
  - pose proof (proj1 (Hgoal true w2 eq_refl) eq_refl) as Hsat.
    inversion H; subst. cbn.
    repeat split; try discriminate; try tauto.
  - assert (Hnot : ~ goal_satisfied (dc_goal (ag_dc self)) w1).
    { intros Hs. apply (Hgoal false w2 eq_refl) in Hs. discriminate. }
    cbn [snd].
    destruct (fire_drive_priorities (dc_elements (ag_dc self)) timer (ag_heap self) w2)
      as [[[[b|x] elements'] h'] w3] eqn:Hf; [|discriminate].
    pose proof (fire_drive_priorities_fired _ _ _ _ _ _ _ _ Hf) as Hb.
    destruct b; inversion H; subst; cbn.
    + assert (Hp := proj1 Hb eq_refl).
      repeat split; try discriminate; try tauto.
    + assert (Hp : ~ priority_fired (dc_elements (ag_dc self)) timer (ag_heap self) w2).
      { intros Hp. apply Hb in Hp. discriminate. }
      repeat split; try discriminate; try tauto.
Qed.

(** ** Elements that the plan gives no trigger *)

(** The readiness checks of a competence priority element come to an
    element without a trigger: the elements before it are not ready. *)
Inductive elements_reach : list CompetenceElement -> World -> Prop :=
| elements_reach_here (element : CompetenceElement) rest w :
    ce_trigger element = None ->
    elements_reach (element :: rest) w
| elements_reach_later (element : CompetenceElement) rest w element' w' :
    CompetenceElement_isReady element 0 w = (Ok false, element', w') ->
    elements_reach rest w' ->
    elements_reach (element :: rest) w.

(** The same for the priority elements of a competence: the ones before
    have no ready element. *)
Inductive priorities_reach : list CompetencePriorityElement -> World -> Prop :=
| priorities_reach_here (element : CompetencePriorityElement) rest w :
    elements_reach (cpe_elements element) w ->
    priorities_reach (element :: rest) w
| priorities_reach_later (element : CompetencePriorityElement) rest w element' w' :
    CompetencePriorityElement_fire element w = (Ok all_failed, element', w') ->
    priorities_reach rest w' ->
    priorities_reach (element :: rest) w.

(** The readiness checks of a drive priority element come to an element
    without a trigger: among its own elements, or inside the competence at
    the cursor of the drive element that is ready and fired. *)
Inductive drives_reach : list DriveElement -> Z -> heap -> World -> Prop :=
| drives_reach_here (element : DriveElement) rest timestamp h w :
    de_trigger element = None ->
    drives_reach (element :: rest) timestamp h w
| drives_reach_below (element : DriveElement) rest timestamp h w element' w' p c w'' :
    DriveElement_isReady element timestamp w = (Ok true, element', w') ->
    de_element element' = ERef p ->
    h !! p = Some (OCompetence c) ->
    goal_fire (c_goal c) w' = (Ok false, w'') ->
    priorities_reach (c_elements c) w'' ->
    drives_reach (element :: rest) timestamp h w
| drives_reach_later (element : DriveElement) rest timestamp h w element' w' :
    DriveElement_isReady element timestamp w = (Ok false, element', w') ->
    drives_reach rest timestamp h w' ->
    drives_reach (element :: rest) timestamp h w.

(** A step comes to such a check: the drive priority elements before
    report a failure. *)
Inductive step_reaches : list DrivePriorityElement -> Timer -> heap -> World -> Prop :=
| step_reaches_here (element : DrivePriorityElement) rest timer h w :
    drives_reach (dpe_elements element) (Timer_time timer w) h w ->
    step_reaches (element :: rest) timer h w
| step_reaches_later (element : DrivePriorityElement) rest timer h w element' h' w' :
    DrivePriorityElement_fire element timer h w = (Ok None, element', h', w') ->
    step_reaches rest timer h' w' ->
    step_reaches (element :: rest) timer h w.

Definition no_fire : exn := none_has_no "fire".

Lemma CompetenceElement_isReady_None (self : CompetenceElement) (timestamp : Z)
    (w : World) :
  ce_trigger self = None ->
  CompetenceElement_isReady self timestamp w = (Raise no_fire, self, w).
Proof. intros H. unfold CompetenceElement_isReady. rewrite H. reflexivity. Qed.

Lemma DriveElement_isReady_None (self : DriveElement) (timestamp : Z) (w : World) :
  de_trigger self = None ->
  DriveElement_isReady self timestamp w = (Raise no_fire, self, w).
Proof. intros H. unfold DriveElement_isReady. rewrite H. reflexivity. Qed.

Lemma elements_reach_raises (elements : list CompetenceElement) (w : World) :
  elements_reach elements w ->
  exists elements' w', fire_first_ready elements w = (Raise no_fire, elements', w').
Proof.
  induction 1 as [element rest w Hn|element rest w element' w' Hr _ IH];
    cbn [fire_first_ready].
  - rewrite (CompetenceElement_isReady_None element 0 w Hn). eauto.
  - rewrite Hr. destruct IH as (els & w1 & ->). eauto.
Qed.

Lemma priorities_reach_raises (elements : list CompetencePriorityElement) (w : World) :
  priorities_reach elements w ->
  exists elements' w', fire_priorities elements w = (Raise no_fire, elements', w').
Proof.
  induction 1 as [element rest w Hn|element rest w element' w' Hr _ IH];
    cbn [fire_priorities].
  - unfold CompetencePriorityElement_fire.
    destruct (elements_reach_raises _ _ Hn) as (els & w1 & ->). eauto.
  - rewrite Hr. cbn. destruct IH as (els & w1 & ->). eauto.
Qed.

Lemma drives_reach_raises (elements : list DriveElement) (timestamp : Z) (h : heap)
    (w : World) :
  drives_reach elements timestamp h w ->
  exists elements' h' w',
    fire_first_ready_drive elements timestamp h w = (Raise no_fire, elements', h', w').
Proof.
  induction 1 as [element rest ts h w Hn
                 |element rest ts h w element' w' p c w'' Hr He Hp Hg Hpr
                 |element rest ts h w element' w' Hr _ IH];
    cbn [fire_first_ready_drive].
  - rewrite (DriveElement_isReady_None element ts w Hn). eauto.
  - rewrite Hr. unfold DriveElement_fire. rewrite He. cbn [target_fire].
    rewrite Hp. unfold Competence_fire. rewrite Hg.
    destruct (priorities_reach_raises _ _ Hpr) as (els & w1 & ->). eauto.
  - rewrite Hr. destruct IH as (els & h1 & w1 & ->). eauto.
Qed.

Lemma step_reaches_raises (elements : list DrivePriorityElement) (timer : Timer)
    (h : heap) (w : World) :
  step_reaches elements timer h w ->
  exists elements' h' w',
    fire_drive_priorities elements timer h w = (Raise no_fire, elements', h', w').
Proof.
  induction 1 as [element rest timer h w Hn
                 |element rest timer h w element' h' w' Hr _ IH];
    cbn [fire_drive_priorities].
  - unfold DrivePriorityElement_fire.
    destruct (drives_reach_raises _ _ _ _ Hn) as (els & h1 & w1 & ->). eauto.
  - rewrite Hr. destruct IH as (els & h1 & w1 & ->). eauto.
Qed.

Lemma buildGoal_nil (bd : BehaviourDict) (trigger : trigger_desc) :
  trigger = None \/ trigger = Some [] -> buildGoal bd trigger = Ok None.
Proof. intros [-> | ->]; reflexivity. Qed.

(** C10.  For a drive element or a competence element to which the plan
    gives no trigger, the builder stores no trigger; every readiness check
    of such an element raises, whatever the time and the state of the
    host; and a step whose checks come to such an element does not return
    an outcome: it raises the same exception. *)
Theorem untriggered_element_raises :
  (forall (bd : BehaviourDict) (e : drive_element_desc) competences actionpatterns de,
     ded_trigger e = None \/ ded_trigger e = Some [] ->
     buildDriveElement bd e competences actionpatterns = Ok de ->
     de_trigger de = None) /\
  (forall (bd : BehaviourDict) (e : competence_element_desc) competences actionpatterns ce,
     ced_trigger e = None \/ ced_trigger e = Some [] ->
     buildCompetenceElement bd e competences actionpatterns = Ok ce ->
     ce_trigger ce = None) /\
  (forall (self : DriveElement) timestamp (w : World),
     de_trigger self = None ->
     DriveElement_isReady self timestamp w = (Raise no_fire, self, w)) /\
  (forall (self : CompetenceElement) timestamp (w : World),
     ce_trigger self = None ->
     CompetenceElement_isReady self timestamp w = (Raise no_fire, self, w)) /\
  (forall (self : Agent) (timer : Timer) (w w2 : World),
     ag_timer self = Some timer ->
     goal_fire (dc_goal (ag_dc self)) (Timer_loopWait timer w) = (Ok false, w2) ->
     step_reaches (dc_elements (ag_dc self)) timer (ag_heap self) w2 ->
     exists self' w', followDrive self w = (Raise no_fire, self', w')).
Proof.
  repeat split.
  - intros bd e cs aps de Hn Hb. unfold buildDriveElement, buildTrigger in Hb.
    rewrite (buildGoal_nil bd _ Hn) in Hb.
    destruct (getTriggerable bd (ded_triggerable e) cs aps); inversion Hb.
    reflexivity.
  - intros bd e cs aps ce Hn Hb. unfold buildCompetenceElement, buildTrigger in Hb.
    rewrite (buildGoal_nil bd _ Hn) in Hb.
    destruct (getTriggerable bd (ced_triggerable e) cs aps); inversion Hb.
    reflexivity.
  - intros self ts w Hn. exact (DriveElement_isReady_None self ts w Hn).
  - intros self ts w Hn. exact (CompetenceElement_isReady_None self ts w Hn).
  - intros self timer w w2 Ht Hg Hs.
    unfold followDrive, DriveCollection_fire. rewrite Ht, Hg.
    destruct (step_reaches_raises _ _ _ _ Hs) as (els & h1 & w1 & ->). eauto.
Qed.

(** ** Who holds which instance in a built plan *)

Definition is_competence (o : object) : bool :=
  match o with OCompetence _ => true | OActionPattern _ => false end.

Definition is_action_pattern (o : object) : bool :=
  match o with OCompetence _ => false | OActionPattern _ => true end.

(** The references of a slot: the address it holds, if it holds one. *)
Definition refs_of (e : element) : list addr :=
  match e with ERef p => [p] | _ => [] end.

(** The reference sites inside an object of the heap: the targets of the
    competence elements of a competence, the elements of an action
    pattern. *)
Definition object_sites (o : object) : list addr :=
  match o with
  | OCompetence c =>
      concat (map (fun cpe => concat (map (fun ce => refs_of (ce_element ce))
                                          (cpe_elements cpe)))
                  (c_elements c))
  | OActionPattern a => concat (map refs_of (ap_elements a))
  end.

(** All reference sites of a built plan, each with the address it holds:
    the roots of the drive elements, then the sites inside the objects. *)
Definition reference_sites (b : built) : list addr :=
  concat (map (fun dpe => concat (map (fun de => refs_of (de_root de))
                                      (dpe_elements dpe)))
              (dc_elements (b_dc b)))
  ++ concat (map (fun po => object_sites (snd po)) (map_to_list (b_heap b))).

(** Follows the spec's words: "every distinct reference site must receive
    an independently-mutable instance": no instance is held by two
    sites. *)
Definition independent_instances (b : built) : Prop :=
  NoDup (reference_sites b).

(** What the reference site for [name] holds: the action of that name when
    there is one, and otherwise the one object that the dictionaries of
    stubs have for the name, the competences first. *)
Definition site_of (bd : BehaviourDict) (competences actionpatterns : gmap string addr)
    (name : string) (e : element) : Prop :=
  match Action_init bd name with
  | Ok a => e = EAction a
  | Raise _ =>
      exists p, e = ERef p /\
        (competences !! name = Some p \/
         (competences !! name = None /\ actionpatterns !! name = Some p))
  end.

(** Every name of the dictionary has an object of class [cls] in the heap,
    and no two names have the same object. *)
Definition allocated (stub_dict : gmap string addr) (h : heap) (cls : object -> bool)
    : Prop :=
  (forall k p, stub_dict !! k = Some p -> exists o, h !! p = Some o /\ cls o = true) /\
  (forall k1 k2 p, stub_dict !! k1 = Some p -> stub_dict !! k2 = Some p -> k1 = k2).

(** The objects of [h] are in [h'], with their class. *)
Definition same_classes (h h' : heap) : Prop :=
  forall p o, h !! p = Some o ->
    exists o', h' !! p = Some o' /\ is_competence o' = is_competence o.

Lemma getTriggerable_site (bd : BehaviourDict) (name : string)
    (competences actionpatterns : gmap string addr) (e : element) :
  getTriggerable bd name competences actionpatterns = Ok e ->
  site_of bd competences actionpatterns name e.
Proof.
  unfold getTriggerable, site_of.
  destruct (Action_init bd name) as [a|x].
  - destruct (has_key competences name || has_key actionpatterns name);
      intros H; inversion H. reflexivity.
  - destruct x; try discriminate.
    destruct (competences !! name) as [p|] eqn:Hc.
    + intros H; inversion H. exists p. split; [reflexivity|left; reflexivity].
    + destruct (actionpatterns !! name) as [p|] eqn:Ha; [|discriminate].
      intros H; inversion H. exists p. split; [reflexivity|right; split; reflexivity].
Qed.

Lemma site_of_functional (bd : BehaviourDict) (competences actionpatterns : gmap string addr)
    (name : string) (e1 e2 : element) :
  site_of bd competences actionpatterns name e1 ->
  site_of bd competences actionpatterns name e2 ->
  e1 = e2.
Proof.
  unfold site_of. destruct (Action_init bd name) as [a|x].
  - congruence.
  - intros (p1 & -> & H1) (p2 & -> & H2). f_equal.
    destruct H1 as [H1|[H1 H1']], H2 as [H2|[H2 H2']]; congruence.
Qed.

Lemma build_list_Forall2 {A B} (f : A -> res B) (l : list A) (l' : list B) :
  build_list f l = Ok l' -> Forall2 (fun x y => f x = Ok y) l l'.
Proof.
  revert l'. induction l as [|x l IH]; intros l' H; cbn in H.
  - inversion H. constructor.
  - destruct (f x) as [y|e] eqn:Hf; [|discriminate].
    destruct (build_list f l) as [ys|e]; [|discriminate].
    inversion H; subst. constructor; [exact Hf|]. apply IH. reflexivity.
Qed.

Lemma allocated_alloc (stub_dict : gmap string addr) (h : heap) (cls : object -> bool)
    (name : string) (o : object) :
  allocated stub_dict h cls -> cls o = true ->
  allocated (<[name := fresh (dom h)]> stub_dict) (<[fresh (dom h) := o]> h) cls.
Proof.
  intros [Hobj Hinj] Hcls.
  assert (Hfresh : h !! fresh (dom h) = None)
    by (apply not_elem_of_dom, is_fresh).
  assert (Hused : forall k, stub_dict !! k = Some (fresh (dom h)) -> False).
  { intros k Hk. destruct (Hobj k _ Hk) as (o' & Ho' & _). congruence. }
  split.
  - intros k p Hk. destruct (decide (name = k)) as [->|Hne].
    + rewrite lookup_insert_eq in Hk. inversion Hk; subst.
      exists o. rewrite lookup_insert_eq. split; [reflexivity|exact Hcls].
    + rewrite lookup_insert_ne in Hk by exact Hne.
      destruct (Hobj k p Hk) as (o' & Ho' & Hc'). exists o'.
      rewrite lookup_insert_ne by congruence. split; assumption.
  - intros k1 k2 p H1 H2.
    destruct (decide (name = k1)) as [Heq1|Hne1], (decide (name = k2)) as [Heq2|Hne2];
      try (subst; reflexivity).
    + subst k1. rewrite lookup_insert_eq in H1.
      rewrite lookup_insert_ne in H2 by exact Hne2.
      inversion H1; subst. destruct (Hused k2 H2).
    + subst k2. rewrite lookup_insert_eq in H2.
      rewrite lookup_insert_ne in H1 by exact Hne1.
      inversion H2; subst. destruct (Hused k1 H1).
    + rewrite lookup_insert_ne in H1 by exact Hne1.
      rewrite lookup_insert_ne in H2 by exact Hne2. eapply Hinj; eassumption.
Qed.

Lemma allocated_mono (stub_dict : gmap string addr) (h h' : heap) (cls : object -> bool) :
  (cls = is_competence \/ cls = is_action_pattern) ->
  allocated stub_dict h cls -> same_classes h h' -> allocated stub_dict h' cls.
Proof.
  intros Hcls [Hobj Hinj] Hsame. split; [|exact Hinj].
  intros k p Hk. destruct (Hobj k p Hk) as (o & Ho & Hc).
  destruct (Hsame p o Ho) as (o' & Ho' & Hc'). exists o'. split; [exact Ho'|].
  destruct Hcls as [-> | ->]; destruct o, o'; cbn in *; congruence.
Qed.

Lemma same_classes_refl (h : heap) : same_classes h h.
Proof. intros p o Ho. exists o. split; [exact Ho|reflexivity]. Qed.

Lemma same_classes_trans (h1 h2 h3 : heap) :
  same_classes h1 h2 -> same_classes h2 h3 -> same_classes h1 h3.
Proof.
  intros H12 H23 p o Ho. destruct (H12 p o Ho) as (o2 & Ho2 & Hc2).
  destruct (H23 p o2 Ho2) as (o3 & Ho3 & Hc3). exists o3. split; [exact Ho3|congruence].
Qed.

Lemma same_classes_alloc (h : heap) (o : object) :
  same_classes h (<[fresh (dom h) := o]> h).
Proof.
  intros p o' Ho'. exists o'. split; [|reflexivity].
  rewrite lookup_insert_ne; [exact Ho'|].
  intros <-. pose proof (is_fresh (dom h)) as Hf.
  apply not_elem_of_dom in Hf. congruence.
Qed.

Lemma same_classes_update (h : heap) (p : addr) (o o' : object) :
  h !! p = Some o -> is_competence o' = is_competence o ->
  same_classes h (<[p := o']> h).
Proof.
  intros Ho Hc q oq Hq. destruct (decide (p = q)) as [->|Hne].
  - exists o'. rewrite lookup_insert_eq. split; [reflexivity|congruence].
  - exists oq. rewrite lookup_insert_ne by exact Hne. split; [exact Hq|reflexivity].
Qed.

(** The stub phase for competences. *)
Lemma competence_stubs_allocated (bd : BehaviourDict) (l : list (string * competence_desc)) :
  forall stub_dict h stub_dict' h',
  competence_stubs bd l stub_dict h = Ok (stub_dict', h') ->
  allocated stub_dict h is_competence ->
  allocated stub_dict' h' is_competence /\ same_classes h h'.
Proof.
  induction l as [|[k d] l IH]; intros sd h sd' h' H Ha; cbn [competence_stubs] in H.
  - inversion H; subst. split; [exact Ha|apply same_classes_refl].
  - destruct (buildGoal bd (cd_goal d)) as [goal|x]; [|discriminate].
    unfold alloc in H.
    apply IH in H as [Ha' Hs'].
    + split; [exact Ha'|].
      eapply same_classes_trans; [apply same_classes_alloc|exact Hs'].
    + apply allocated_alloc; [exact Ha|reflexivity].
Qed.

(** The stub phase for action patterns. *)
Lemma action_pattern_stubs_allocated (l : list (string * action_pattern_desc)) :
  forall stub_dict h stub_dict' h',
  action_pattern_stubs l stub_dict h = (stub_dict', h') ->
  allocated stub_dict h is_action_pattern ->
  allocated stub_dict' h' is_action_pattern /\ same_classes h h'.
Proof.
  induction l as [|[k d] l IH]; intros sd h sd' h' H Ha; cbn [action_pattern_stubs] in H.
  - inversion H; subst. split; [exact Ha|apply same_classes_refl].
  - unfold alloc in H.
    apply IH in H as [Ha' Hs'].
    + split; [exact Ha'|].
      eapply same_classes_trans; [apply same_classes_alloc|exact Hs'].
    + apply allocated_alloc; [exact Ha|reflexivity].
Qed.

(** The fill phase for competences: every competence of the plan gets its
    priority elements, and nothing else in the heap changes. *)
Lemma buildCompetences_filled (bd : BehaviourDict) (competences actionpatterns : gmap string addr)
    (l : list (string * competence_desc)) :
  forall h h',
  buildCompetences bd l competences actionpatterns h = Ok h' ->
  NoDup (l.*1) ->
  (forall k1 k2 p, competences !! k1 = Some p -> competences !! k2 = Some p -> k1 = k2) ->
  same_classes h h' /\
  (forall p a, h !! p = Some (OActionPattern a) -> h' !! p = Some (OActionPattern a)) /\
  (forall p, (forall k, k ∈ l.*1 -> competences !! k <> Some p) -> h' !! p = h !! p) /\
  (forall k d, (k, d) ∈ l -> exists p c cpes,
     competences !! k = Some p /\ h' !! p = Some (OCompetence c) /\
     build_competence_priorities bd k (cd_priorities d) competences actionpatterns = Ok cpes /\
     c_elements c = map CompetencePriorityElement_reset cpes).
Proof.
  induction l as [|[k d] l IH]; intros h h' H Hnd Hinj; cbn [buildCompetences] in H.
  - inversion H; subst. repeat split.
    + apply same_classes_refl.
    + auto.
    + intros k d Hin. inversion Hin.
  - destruct (build_competence_priorities bd k (cd_priorities d) competences actionpatterns)
      as [cpes|x] eqn:Hcpes; [|discriminate].
    destruct (competences !! k) as [p|] eqn:Hk; [|discriminate].
    destruct (h !! p) as [[c|a]|] eqn:Hp; try discriminate.
    rewrite fmap_cons in Hnd. cbn [fst] in Hnd. apply NoDup_cons in Hnd as [Hnotin Hnd].
    destruct (IH _ _ H Hnd Hinj) as (Hsame & Hap & Hframe & Hdone).
    assert (Hhead : h' !! p = Some (OCompetence (Competence_setElements cpes c))).
    { rewrite Hframe; [apply lookup_insert_eq|].
      intros k' Hin' Hk'. assert (k' = k) by (eapply Hinj; eassumption).
      subst. contradiction. }
    repeat split.
    + eapply same_classes_trans; [|exact Hsame].
      eapply same_classes_update; [exact Hp|reflexivity].
    + intros q a Hq. apply Hap. rewrite lookup_insert_ne; [exact Hq|congruence].
    + intros q Hq. rewrite Hframe.
      * apply lookup_insert_ne. intros ->. apply (Hq k); [|exact Hk].
        rewrite fmap_cons. apply elem_of_cons. left. reflexivity.
      * intros k' Hin'. apply Hq. rewrite fmap_cons. apply elem_of_cons. right. exact Hin'.
    + intros k' d' Hin. apply elem_of_cons in Hin as [Heq|Hin].
      * inversion Heq; subst. exists p, (Competence_setElements cpes c), cpes.
        repeat split; try assumption.
      * apply Hdone. exact Hin.
Qed.

(** The fill phase for action patterns. *)
Lemma buildActionPatterns_filled (bd : BehaviourDict) (competences actionpatterns : gmap string addr)
    (l : list (string * action_pattern_desc)) :
  forall h h',
  buildActionPatterns bd l competences actionpatterns h = Ok h' ->
  NoDup (l.*1) ->
  (forall k1 k2 p, actionpatterns !! k1 = Some p -> actionpatterns !! k2 = Some p -> k1 = k2) ->
  same_classes h h' /\
  (forall p c, h !! p = Some (OCompetence c) -> h' !! p = Some (OCompetence c)) /\
  (forall p, (forall k, k ∈ l.*1 -> actionpatterns !! k <> Some p) -> h' !! p = h !! p) /\
  (forall k d, (k, d) ∈ l -> exists p a,
     actionpatterns !! k = Some p /\ h' !! p = Some (OActionPattern a) /\
     build_action_pattern_elements bd (apd_elements d) competences = Ok (ap_elements a) /\
     ap_element_idx a = 0%nat).
Proof.
  induction l as [|[k d] l IH]; intros h h' H Hnd Hinj; cbn [buildActionPatterns] in H.
  - inversion H; subst. repeat split.
    + apply same_classes_refl.
    + auto.
    + intros k d Hin. inversion Hin.
  - destruct (build_action_pattern_elements bd (apd_elements d) competences)
      as [els|x] eqn:Hels; [|discriminate].
    destruct (actionpatterns !! k) as [p|] eqn:Hk; [|discriminate].
    destruct (h !! p) as [[c|a]|] eqn:Hp; try discriminate.
    rewrite fmap_cons in Hnd. cbn [fst] in Hnd. apply NoDup_cons in Hnd as [Hnotin Hnd].
    destruct (IH _ _ H Hnd Hinj) as (Hsame & Hc & Hframe & Hdone).
    assert (Hhead : h' !! p = Some (OActionPattern (ActionPattern_setElements els a))).
    { rewrite Hframe; [apply lookup_insert_eq|].
      intros k' Hin' Hk'. assert (k' = k) by (eapply Hinj; eassumption).
      subst. contradiction. }
    repeat split.
    + eapply same_classes_trans; [|exact Hsame].
      eapply same_classes_update; [exact Hp|reflexivity].
    + intros q c Hq. apply Hc. rewrite lookup_insert_ne; [exact Hq|congruence].
    + intros q Hq. rewrite Hframe.
      * apply lookup_insert_ne. intros ->. apply (Hq k); [|exact Hk].
        rewrite fmap_cons. apply elem_of_cons. left. reflexivity.
      * intros k' Hin'. apply Hq. rewrite fmap_cons. apply elem_of_cons. right. exact Hin'.
    + intros k' d' Hin. apply elem_of_cons in Hin as [Heq|Hin].
      * inversion Heq; subst. exists p, (ActionPattern_setElements els a).
        repeat split; try assumption.
      * apply Hdone. exact Hin.
Qed.

Lemma allocated_empty (cls : object -> bool) (h : heap) : allocated ∅ h cls.
Proof. split; intros *; rewrite lookup_empty; discriminate. Qed.

Lemma build_list_rel {A B} (R : A -> B -> Prop) (f : A -> res B) (l : list A)
    (l' : list B) :
  (forall x y, f x = Ok y -> R x y) ->
  build_list f l = Ok l' -> Forall2 R l l'.
Proof.
  intros HR H. apply build_list_Forall2 in H.
  induction H; constructor; auto.
Qed.

(** The drive elements built for the rows of descriptors [rows]: one drive
    priority element for each row and one drive element for each
    descriptor, its root and its cursor at what the name resolves to. *)
Definition drive_sites (bd : BehaviourDict) (competences actionpatterns : gmap string addr)
    (rows : list (list drive_element_desc)) (dpes : list DrivePriorityElement) : Prop :=
  Forall2 (fun row dpe =>
             Forall2 (fun d de =>
                        de_name de = ded_name d /\
                        site_of bd competences actionpatterns (ded_triggerable d) (de_root de) /\
                        de_element de = de_root de)
                     row (dpe_elements dpe))
          rows dpes.

(** The same for the competence elements of a competence. *)
Definition competence_sites (bd : BehaviourDict) (competences actionpatterns : gmap string addr)
    (rows : list (list competence_element_desc)) (cpes : list CompetencePriorityElement)
    : Prop :=
  Forall2 (fun row cpe =>
             Forall2 (fun d ce =>
                        ce_name ce = ced_name d /\
                        site_of bd competences actionpatterns (ced_triggerable d)
                                (ce_element ce) /\
                        ce_retries ce = 0)
                     row (cpe_elements cpe))
          rows cpes.

(** The elements of an action pattern: as many as the plan names, and the
    last, when it is a name and no sense, at what the name resolves to
    among the actions and the competences. *)
Definition action_pattern_sites (bd : BehaviourDict) (competences : gmap string addr)
    (names : list sense_desc) (elements : list element) : Prop :=
  length elements = length names /\
  forall n, last names = Some (SName n) -> in_sense_names bd n = false ->
    exists e, last elements = Some e /\ site_of bd competences ∅ n e.

Lemma build_drive_priorities_sites (bd : BehaviourDict)
    (competences actionpatterns : gmap string addr) (dcname : string)
    (rows : list (list drive_element_desc)) (dpes : list DrivePriorityElement) :
  build_drive_priorities bd dcname rows competences actionpatterns = Ok dpes ->
  drive_sites bd competences actionpatterns rows dpes.
Proof.
  apply build_list_rel. intros row dpe H.
  destruct (build_list _ row) as [els|x] eqn:Hels; [|discriminate].
  inversion H; subst. cbn [dpe_elements].
  revert Hels. apply build_list_rel. intros d de Hde.
  unfold buildDriveElement in Hde.
  destruct (buildTrigger bd (ded_trigger d)); [|discriminate].
  destruct (getTriggerable bd (ded_triggerable d) competences actionpatterns)
    as [e|x] eqn:He; [|discriminate].
  inversion Hde; subst. cbn. repeat split.
  apply getTriggerable_site. exact He.
Qed.

Lemma build_competence_priorities_sites (bd : BehaviourDict)
    (competences actionpatterns : gmap string addr) (competence : string)
    (rows : list (list competence_element_desc)) (cpes : list CompetencePriorityElement) :
  build_competence_priorities bd competence rows competences actionpatterns = Ok cpes ->
  competence_sites bd competences actionpatterns rows
                   (map CompetencePriorityElement_reset cpes).
Proof.
  intros H. unfold competence_sites.
  apply (build_list_rel
           (fun row cpe =>
              Forall2 (fun d ce =>
                         ce_name ce = ced_name d /\
                         site_of bd competences actionpatterns (ced_triggerable d)
                                 (ce_element ce) /\
                         ce_retries ce = 0)
                      row (cpe_elements (CompetencePriorityElement_reset cpe)))) in H.
  - induction H as [|row cpe rows' cpes' Hd Hrest IH]; cbn [map];
      [constructor|constructor; [exact Hd|exact IH]].
  - intros row cpe Hrow.
    destruct (build_list _ row) as [els|x] eqn:Hels; [|discriminate].
    inversion Hrow; subst. cbn [cpe_elements CompetencePriorityElement_reset].
    apply (build_list_rel
             (fun d ce =>
                ce_name (CompetenceElement_reset ce) = ced_name d /\
                site_of bd competences actionpatterns (ced_triggerable d)
                        (ce_element (CompetenceElement_reset ce)) /\
                ce_retries (CompetenceElement_reset ce) = 0)) in Hels.
    + clear Hrow. induction Hels as [|d ce row' els' Hd Hrest IH]; cbn [map];
        [constructor|constructor; [exact Hd|exact IH]].
    + intros d ce Hce. unfold buildCompetenceElement in Hce.
      destruct (buildTrigger bd (ced_trigger d)); [|discriminate].
      destruct (getTriggerable bd (ced_triggerable d) competences actionpatterns)
        as [e|x] eqn:He; [|discriminate].
      inversion Hce; subst. cbn. repeat split.
      apply getTriggerable_site. exact He.
Qed.

Lemma build_list_length {A B} (f : A -> res B) (l : list A) (l' : list B) :
  build_list f l = Ok l' -> length l' = length l.
Proof.
  intros H. apply build_list_Forall2 in H. symmetry.
  eapply Forall2_length. exact H.
Qed.

Lemma build_action_pattern_elements_sites (bd : BehaviourDict)
    (competences : gmap string addr) (names : list sense_desc) (elements : list element) :
  build_action_pattern_elements bd names competences = Ok elements ->
  action_pattern_sites bd competences names elements.
Proof.
  unfold build_action_pattern_elements, action_pattern_sites. intros H.
  destruct (build_list _ (all_but_last names)) as [els|x] eqn:Hels; [|discriminate].
  destruct (last names) as [e|] eqn:Hlast; [|discriminate].
  destruct (action_pattern_element bd e competences) as [x|y] eqn:Hx; [|discriminate].
  inversion H; subst. split.
  - rewrite length_app. cbn [length]. rewrite (build_list_length _ _ _ Hels).
    unfold all_but_last. rewrite length_take.
    destruct names as [|n0 names]; [discriminate|]. cbn [length]. lia.
  - intros n Hn Hsense. inversion Hn; subst.
    exists x. split; [apply last_snoc|].
    unfold action_pattern_element in Hx. rewrite Hsense in Hx.
    apply getTriggerable_site. exact Hx.
Qed.

(** C1, as the builder has it.  For every plan that is built: each
    competence and each action pattern of the plan is one object of the
    heap, objects of different names are different, and every reference
    site holds what its name resolves to; so all the sites that name one
    competence or action pattern hold the same object, with its one set of
    retry counters or its one cursor.  The drive collection has one drive
    priority element for each row of the plan and one drive element for
    each descriptor. *)
Theorem build_shares_instances (self : PlanBuilder) (bd : BehaviourDict) (w : World)
    (b : built) :
  build self bd w = Ok b ->
  let competences := b_competences b in
  let actionpatterns := b_actionpatterns b in
  allocated competences (b_heap b) is_competence /\
  allocated actionpatterns (b_heap b) is_action_pattern /\
  (exists dc, pb_drivecollection self = Some dc /\
     dc_name (b_dc b) = dcd_name dc /\
     drive_sites bd competences actionpatterns (dcd_priorities dc)
                 (dc_elements (b_dc b))) /\
  (forall k d, pb_competences self !! k = Some d ->
     exists p c, competences !! k = Some p /\
       b_heap b !! p = Some (OCompetence c) /\
       competence_sites bd competences actionpatterns (cd_priorities d) (c_elements c)) /\
  (forall k d, pb_actionpatterns self !! k = Some d ->
     exists p a, actionpatterns !! k = Some p /\
       b_heap b !! p = Some (OActionPattern a) /\
       ap_element_idx a = 0%nat /\
       action_pattern_sites bd competences (apd_elements d) (ap_elements a)) /\
  (forall name e1 e2,
     site_of bd competences actionpatterns name e1 ->
     site_of bd competences actionpatterns name e2 ->
     e1 = e2).
Proof.
  unfold build. intros H.
  destruct (checkNameClashes self bd); [|discriminate].
  destruct (buildCompetenceStubs self bd ∅) as [[cs h1]|x] eqn:Hcs; [|discriminate].
  destruct (buildActionPatternStubs self h1) as [aps h2] eqn:Haps.
  destruct (buildCompetences bd (map_to_list (pb_competences self)) cs aps h2)
    as [h3|x] eqn:Hc; [|discriminate].
  destruct (buildActionPatterns bd (map_to_list (pb_actionpatterns self)) cs aps h3)
    as [h4|x] eqn:Ha; [|discriminate].
  destruct (buildDriveCollection self bd cs aps w) as [[timer dc]|x] eqn:Hdc;
    [|discriminate].
  inversion H; subst. cbn [b_competences b_actionpatterns b_heap b_dc]. clear H.
  unfold buildCompetenceStubs in Hcs.
  apply competence_stubs_allocated in Hcs as [Hcs1 Hs1]; [|apply allocated_empty].
  unfold buildActionPatternStubs in Haps.
  apply action_pattern_stubs_allocated in Haps as [Haps2 Hs2]; [|apply allocated_empty].
  apply buildCompetences_filled in Hc as (Hs3 & _ & _ & Hcdone);
    [|apply NoDup_fst_map_to_list|exact (proj2 Hcs1)].
  apply buildActionPatterns_filled in Ha as (Hs4 & Hckeep & _ & Hadone);
    [|apply NoDup_fst_map_to_list|exact (proj2 Haps2)].
  assert (Hs14 : same_classes h1 h4)
    by (eapply same_classes_trans; [exact Hs2|];
        eapply same_classes_trans; [exact Hs3|exact Hs4]).
  assert (Hs24 : same_classes h2 h4)
    by (eapply same_classes_trans; [exact Hs3|exact Hs4]).
  split; [eapply allocated_mono; [left; reflexivity|exact Hcs1|exact Hs14]|].
  split; [eapply allocated_mono; [right; reflexivity|exact Haps2|exact Hs24]|].
  split.
  { unfold buildDriveCollection in Hdc.
    destruct (pb_drivecollection self) as [dcd|]; [|discriminate].
    destruct (timer_of_type (dcd_type dcd) w); [|discriminate].
    destruct (buildGoal bd (dcd_goal dcd)); [|discriminate].
    destruct (build_drive_priorities bd (dcd_name dcd) (dcd_priorities dcd) cs aps)
      as [dpes|x] eqn:Hd; [|discriminate].
    inversion Hdc; subst. exists dcd. repeat split.
    cbn [dc_elements]. eapply build_drive_priorities_sites. exact Hd. }
  split.
  { intros k d Hk. apply elem_of_map_to_list in Hk.
    destruct (Hcdone k d Hk) as (p & c & cpes & Hp & Hh & Hb & He).
    exists p, c. split; [exact Hp|]. split; [apply Hckeep; exact Hh|].
    rewrite He. eapply build_competence_priorities_sites. exact Hb. }
  split.
  { intros k d Hk. apply elem_of_map_to_list in Hk.
    destruct (Hadone k d Hk) as (p & ap & Hp & Hh & Hb & Hi).
    exists p, ap. repeat split; try assumption;
      apply (build_action_pattern_elements_sites _ _ _ _ Hb). }
  apply site_of_functional.
Qed.

(** ** The value of a sense *)

(** C9, what the code does.  The text of a value is classified by the
    first pattern that matches: an integer, a float, a truth value, or
    else a text.  For a text that the pattern of truth values matches the
    stored value is 1, whatever the text says: the test [if value:] is
    made on the text, which is not empty.  So [false] is stored as 1, and
    the sense then compares its reading with a true value. *)
Theorem Sense_convertValue_false :
  Sense_convertValue (Some "false") = Ok (Some (PyInt 1)) /\
  Sense_convertValue (Some "False") = Ok (Some (PyInt 1)) /\
  truthy (PyInt 1) = true /\
  (forall v : string,
     v <> EmptyString -> intMatcher v = false -> floatMatcher v = false ->
     boolMatcher v = true ->
     Sense_convertValue (Some v) = Ok (Some (PyInt 1))) /\
  (forall v : string,
     v <> EmptyString -> intMatcher v = false -> floatMatcher v = false ->
     boolMatcher v = false ->
     Sense_convertValue (Some v) = Ok (Some (PyStr v))) /\
  (forall v : string,
     v <> EmptyString -> intMatcher v = false -> floatMatcher v = true ->
     Sense_convertValue (Some v) = Ok (Some (PyFloatV (float_of_literal v)))) /\
  (forall v : string,
     v <> EmptyString -> intMatcher v = true ->
     Sense_convertValue (Some v) =
       match py_int v with Ok z => Ok (Some z) | Raise e => Raise e end) /\
  Sense_convertValue None = Ok None /\
  (forall (bd : BehaviourDict) name value s,
     Sense_init bd name value None = Ok s -> s_pred s = "==") /\
  (forall (s : Sense) (w : World) result w',
     s_value s = None -> s_sense s w = (Ok result, w') ->
     Sense_fire s w = (Ok (truthy result), w')).
Proof.
  assert (Hne : forall v : string, v <> EmptyString -> String.eqb v EmptyString = false).
  { intros v Hv. apply String.eqb_neq. exact Hv. }
  repeat split.
  - intros v Hv Hi Hf Hb. unfold Sense_convertValue.
    rewrite (Hne v Hv), Hi, Hf, Hb. cbn [truthy]. rewrite (Hne v Hv). reflexivity.
  - intros v Hv Hi Hf Hb. unfold Sense_convertValue.
    rewrite (Hne v Hv), Hi, Hf, Hb. reflexivity.
  - intros v Hv Hi Hf. unfold Sense_convertValue.
    rewrite (Hne v Hv), Hi, Hf. reflexivity.
  - intros v Hv Hi. unfold Sense_convertValue.
    rewrite (Hne v Hv), Hi. reflexivity.
  - intros bd name value s H. unfold Sense_init in H.
    destruct (getSense bd name); [|discriminate].
    destruct (getSenseBehaviour bd name); [|discriminate].
    destruct (Sense_convertValue value); [|discriminate].
    inversion H; subst. reflexivity.
  - intros s w result w' Hv Hs. unfold Sense_fire. rewrite Hs, Hv. reflexivity.
Qed.

(** ** Scenario A *)

(** A text in quotes. *)
Definition quoted (s : string) : string :=
  String dquote s +:+ String dquote EmptyString.

(** The plan of scenario A, as the specification writes it. *)
Definition scenario_A_text : string :=
  "(SDC " +:+ quoted "d" +:+ " nil (drives (((" +:+ quoted "e1" +:+ " nil " +:+
  quoted "doThing" +:+ " nil)))))".

(** What the parser answers to it. *)
Definition scenario_A_error : exn :=
  ParseError
    ("Line 1: Expected '(' as start of documentation / competence / " +:+
     "action-pattern / drive-collection, or ')' to end plan, instead of 'SDC'").

(** The plan of scenario A in the grammar of the parser: the plan in its
    own parentheses, names without quotes, one pair of parentheses for the
    list of drive elements, and a trigger for the element. *)
Definition scenario_A_plan : string :=
  "((SDC d nil (drives ((e1 (trigger (ready)) doThing nil)))))".

(** What the parser makes of it. *)
Definition scenario_A_builder : PlanBuilder :=
  {| pb_docstring := None;
     pb_drivecollection :=
       Some {| dcd_type := "SDC"; dcd_name := "d"; dcd_goal := None;
               dcd_priorities :=
                 [[ {| ded_name := "e1"; ded_trigger := Some [SName "ready"];
                       ded_triggerable := "doThing"; ded_freq := None |} ]] |};
     pb_actionpatterns := ∅;
     pb_competences := ∅ |}.

(** The steps of an agent, one for each state in which the host calls
    [followDrive]; the host may have changed in between. *)
Fixpoint run_steps (self : Agent) (ws : list World) : list (res drive_result) :=
  match ws with
  | [] => []
  | w :: rest =>
      let '(r, self', _) := followDrive self w in
      r :: run_steps self' rest
  end.

Lemma parse_scenario_A_plan : parse scenario_A_plan = Ok scenario_A_builder.
Proof. vm_compute. reflexivity. Qed.

Lemma parse_scenario_A_text : parse scenario_A_text = Raise scenario_A_error.
Proof. vm_compute. reflexivity. Qed.

(** The agent of scenario A while it runs: the stepped timer at [time], the
    one drive element with its cursor at its root, last fired at
    [last_fired]. *)
Definition scenario_A_agent (bd : BehaviourDict) (doThing ready : callable)
    (b1 b2 : string) (time last_fired : Z) : Agent :=
  {| ag_bdict := bd;
     ag_timer := Some (SteppedTimer time);
     ag_dc :=
       {| dc_name := "d";
          dc_elements :=
            [ {| dpe_name := "d";
                 dpe_elements :=
                   [ {| de_name := "e1";
                        de_trigger :=
                          Some {| t_senses :=
                                    [ {| s_sense := ready; s_name := b2 +:+ ".ready";
                                         s_value := None; s_pred := "==" |} ] |};
                        de_root := EAction {| a_action := doThing;
                                              a_name := b1 +:+ ".doThing" |};
                        de_element := EAction {| a_action := doThing;
                                                 a_name := b1 +:+ ".doThing" |};
                        de_max_freq := None;
                        de_last_fired := last_fired |} ] |} ];
          dc_goal := None |};
     ag_heap := ∅ |}.

Lemma scenario_A_build (bd : BehaviourDict) (doThing ready : callable) (b1 b2 : string)
    (w : World) :
  bd_actions bd !! "doThing" = Some (doThing, b1) ->
  bd_senses bd !! "ready" = Some (ready, b2) ->
  Agent_init bd scenario_A_plan w = Ok (scenario_A_agent bd doThing ready b1 b2 0 (-100000)).
Proof.
  intros Ha Hs. unfold Agent_init. rewrite parse_scenario_A_plan.
  unfold build, checkNameClashes, buildCompetenceStubs, buildActionPatternStubs.
  cbn [scenario_A_builder pb_competences pb_actionpatterns].
  rewrite !map_to_list_empty.
  cbn [map check_clashes competence_stubs action_pattern_stubs buildCompetences
       buildActionPatterns].
  unfold buildDriveCollection.
  cbn [scenario_A_builder pb_drivecollection dcd_type dcd_name dcd_goal dcd_priorities].
  assert (Ht : timer_of_type "SDC" w = Ok (SteppedTimer 0)) by reflexivity.
  rewrite Ht. cbn [buildGoal].
  unfold build_drive_priorities. cbn [build_list].
  unfold buildDriveElement, buildTrigger.
  cbn [ded_trigger ded_triggerable ded_name ded_freq buildGoal build_senses].
  unfold buildSenseAct, Sense_init, getSense, getSenseBehaviour. rewrite Hs.
  cbn [fst snd Sense_convertValue].
  unfold getTriggerable, Action_init, getAction, getActionBehaviour. rewrite Ha.
  cbn [fst snd]. unfold has_key. rewrite !lookup_empty.
  reflexivity.
Qed.

Lemma scenario_A_step (bd : BehaviourDict) (doThing ready : callable) (b1 b2 : string)
    (time last_fired : Z) (w : World) :
  (forall w, exists v w', doThing w = (Ok v, w')) ->
  (forall w, exists v w', ready w = (Ok v, w') /\ truthy v = true) ->
  exists w',
    followDrive (scenario_A_agent bd doThing ready b1 b2 time last_fired) w =
      (Ok DRIVE_FOLLOWED, scenario_A_agent bd doThing ready b1 b2 (time + 1) time, w').
Proof.
  intros Hdo Hready.
  destruct (Hready w) as (v & w1 & Hr & Hv).
  destruct (Hdo w1) as (v2 & w2 & Hd).
  exists w2.
  unfold followDrive, scenario_A_agent.
  cbn [ag_timer ag_dc ag_heap Timer_loopWait].
  unfold DriveCollection_fire. cbn [dc_goal goal_fire dc_elements fire_drive_priorities].
  unfold DrivePriorityElement_fire.
  cbn [dpe_elements Timer_time fire_first_ready_drive].
  unfold DriveElement_isReady. cbn [de_trigger].
  unfold Trigger_fire. cbn [t_senses senses_fire].
  unfold Sense_fire. cbn [s_sense s_value s_pred]. rewrite Hr, Hv.
  cbn [de_max_freq freq_allows].
  unfold DriveElement_fire. cbn [de_element de_set_last_fired].
  unfold Action_fire. cbn [a_action]. rewrite Hd.
  reflexivity.
Qed.

(** C2, as the code has it.  The text of scenario A is refused with a
    syntax error.  The plan of scenario A, written in the grammar of the
    parser and with a trigger for its one drive element, compiles against
    every behaviour dictionary that has the action [doThing] and the sense
    [ready]; when [doThing] returns on every call and [ready] is true on
    every call, every step of the agent returns [DRIVE_FOLLOWED]. *)
Theorem scenario_A_followed (bd : BehaviourDict) (doThing ready : callable)
    (b1 b2 : string) (w0 : World) :
  bd_actions bd !! "doThing" = Some (doThing, b1) ->
  bd_senses bd !! "ready" = Some (ready, b2) ->
  (forall w, exists v w', doThing w = (Ok v, w')) ->
  (forall w, exists v w', ready w = (Ok v, w') /\ truthy v = true) ->
  Agent_init bd scenario_A_text w0 = Raise scenario_A_error /\
  exists agent,
    Agent_init bd scenario_A_plan w0 = Ok agent /\
    forall ws : list World,
      run_steps agent ws = map (fun _ => Ok DRIVE_FOLLOWED) ws.
Proof.
  intros Ha Hs Hdo Hready.
  split; [unfold Agent_init; rewrite parse_scenario_A_text; reflexivity|].
  exists (scenario_A_agent bd doThing ready b1 b2 0 (-100000)).
  split; [apply scenario_A_build; assumption|].
  intros ws. generalize 0 (-100000).
  induction ws as [|w ws IH]; intros time last_fired; [reflexivity|].
  cbn [run_steps map].
  destruct (scenario_A_step bd doThing ready b1 b2 time last_fired w Hdo Hready)
    as [w' Hstep].
  rewrite Hstep. f_equal. apply IH.
Qed.

(** * More properties of the engine *)

(** ** Triggers and senses *)

Lemma senses_fire_app (l1 l2 : list Sense) (w : World) :
  senses_fire (l1 ++ l2) w =
    match senses_fire l1 w with
    | (Ok true, w1) => senses_fire l2 w1
    | r => r
    end.
Proof.
  revert w. induction l1 as [|s l1 IH]; intros w; [reflexivity|].
  cbn [app senses_fire].
  destruct (Sense_fire s w) as [[[|]|e] w1]; [apply IH|reflexivity|reflexivity].
Qed.

(** X1.  A trigger is the conjunction of its senses, fired from left to
    right.  The trigger without senses is true.  A trigger of the senses
    [l1] and then [l2] fires [l1] and, only when all of them hold, [l2] in
    the host state that [l1] leaves: the senses after the first one that
    fails or raises are not fired. *)
Theorem Trigger_fire_conjunction (l1 l2 : list Sense) (w : World) :
  Trigger_fire {| t_senses := [] |} w = (Ok true, w) /\
  Trigger_fire {| t_senses := l1 ++ l2 |} w =
    match Trigger_fire {| t_senses := l1 |} w with
    | (Ok true, w1) => Trigger_fire {| t_senses := l2 |} w1
    | r => r
    end.
Proof. split; [reflexivity|apply senses_fire_app]. Qed.

(** The sense [self] without its value: the sense-act of the same name. *)
Definition sense_act_of (self : Sense) : Sense :=
  {| s_sense := s_sense self; s_name := s_name self; s_value := None;
     s_pred := s_pred self |}.

(** X2.  [Sense.fire] knows six predicates: [==], [!=], [<=], [>=], [>]
    and [<].  With any other text for the predicate (the lexer's [=] is
    one) the value of the sense is not looked at: the sense fires as the
    sense-act of the same name does, on the truth value of what the
    behaviour returns. *)
Theorem Sense_fire_other_predicate (self : Sense) (w : World) :
  s_pred self ∉ ["=="; "!="; "<="; ">="; ">"; "<"] ->
  Sense_fire self w = Sense_fire (sense_act_of self) w.
Proof.
  intros Hp. unfold Sense_fire, sense_act_of. cbn [s_sense s_value s_pred].
  destruct (s_sense self w) as [[result|e] w']; [|reflexivity].
  destruct (s_value self) as [v|]; [|reflexivity].
  repeat match goal with
  | |- context [String.eqb (s_pred self) ?q] =>
      destruct (String.eqb_spec (s_pred self) q) as [Heq|_];
      [exfalso; apply Hp; rewrite Heq; rewrite !elem_of_cons; tauto|]
  end.
  reflexivity.
Qed.

(** ** Competences *)

(** [e'] is [e] with consumed retries that are no fewer. *)
Definition ce_frame (e e' : CompetenceElement) : Prop :=
  e' = ce_set_retries (ce_retries e') e /\ ce_retries e <= ce_retries e'.

Definition cpe_frame (pe pe' : CompetencePriorityElement) : Prop :=
  cpe_name pe' = cpe_name pe /\ Forall2 ce_frame (cpe_elements pe) (cpe_elements pe').

(** The retries that the elements have consumed, all in all. *)
Definition retries_sum (l : list CompetenceElement) : Z :=
  foldr (fun e acc => ce_retries e + acc) 0 l.

Definition competence_retries (c : Competence) : Z :=
  foldr (fun pe acc => retries_sum (cpe_elements pe) + acc) 0 (c_elements c).

Lemma ce_frame_refl (e : CompetenceElement) : ce_frame e e.
Proof. split; [destruct e; reflexivity|lia]. Qed.

Lemma Forall2_ce_frame_refl (l : list CompetenceElement) : Forall2 ce_frame l l.
Proof. induction l; constructor; [apply ce_frame_refl|assumption]. Qed.

Lemma cpe_frame_refl (pe : CompetencePriorityElement) : cpe_frame pe pe.
Proof. split; [reflexivity|apply Forall2_ce_frame_refl]. Qed.

Lemma Forall2_cpe_frame_refl (l : list CompetencePriorityElement) : Forall2 cpe_frame l l.
Proof. induction l; constructor; [apply cpe_frame_refl|assumption]. Qed.

Lemma CompetenceElement_isReady_frame (self : CompetenceElement) (timestamp : Z)
    (w : World) :
  let '(r, self', _) := CompetenceElement_isReady self timestamp w in
  match r with
  | Ok true => self' = ce_set_retries (ce_retries self + 1) self
  | _ => self' = self
  end.
Proof.
  unfold CompetenceElement_isReady.
  destruct (ce_trigger self) as [t|]; [|reflexivity].
  destruct (Trigger_fire t w) as [[[|]|e] w']; try reflexivity.
  destruct (_ || _); reflexivity.
Qed.

Lemma fire_first_ready_frame (elements : list CompetenceElement) (w : World) :
  let '(r, elements', _) := fire_first_ready elements w in
  Forall2 ce_frame elements elements' /\
  retries_sum elements <= retries_sum elements' <= retries_sum elements + 1 /\
  (r = Ok (mkFireResult true None) -> elements' = elements).
Proof.
  revert w. induction elements as [|e rest IH]; intros w.
  - cbn. split; [constructor|]. split; [lia|reflexivity].
  - cbn [fire_first_ready].
    pose proof (CompetenceElement_isReady_frame e 0 w) as Hr.
    destruct (CompetenceElement_isReady e 0 w) as [[[[|]|x] e'] w'].
    + subst e'.
      destruct (CompetenceElement_fire _ w') as [r w''] eqn:Hf.
      split; [|split].
      * constructor; [|apply Forall2_ce_frame_refl].
        split; [destruct e; reflexivity|cbn; lia].
      * unfold retries_sum. cbn [foldr ce_retries ce_set_retries]. lia.
      * intros ->. exfalso. unfold CompetenceElement_fire in Hf.
        cbn [ce_element ce_set_retries] in Hf.
        destruct (ce_element e) as [a| | |];
          [destruct (Action_fire a w') as [[?|?] ?]|..]; discriminate.
    + subst e'.
      specialize (IH w'). destruct (fire_first_ready rest w') as [[r rest'] w''].
      destruct IH as (H1 & H2 & H3). split; [|split].
      * constructor; [apply ce_frame_refl|exact H1].
      * unfold retries_sum in *. cbn [foldr]. lia.
      * intros Hs. rewrite (H3 Hs). reflexivity.
    + subst e'.
      split; [apply Forall2_ce_frame_refl|]. split; [lia|discriminate].
Qed.

Lemma fire_priorities_frame (elements : list CompetencePriorityElement) (w : World) :
  let '(_, elements', _) := fire_priorities elements w in
  Forall2 cpe_frame elements elements' /\
  foldr (fun pe acc => retries_sum (cpe_elements pe) + acc) 0 elements
  <= foldr (fun pe acc => retries_sum (cpe_elements pe) + acc) 0 elements'
  <= foldr (fun pe acc => retries_sum (cpe_elements pe) + acc) 0 elements + 1.
Proof.
  revert w. induction elements as [|pe rest IH]; intros w.
  - cbn. split; [constructor|lia].
  - cbn [fire_priorities]. unfold CompetencePriorityElement_fire.
    pose proof (fire_first_ready_frame (cpe_elements pe) w) as Hf.
    destruct (fire_first_ready (cpe_elements pe) w) as [[r els'] w'].
    destruct Hf as (H1 & H2 & H3).
    destruct r as [result|x].
    + destruct (continueExecution result && negb (bool_decide (is_Some (nextElement result))))
        eqn:Hb.
      * assert (result = mkFireResult true None) as ->.
        { destruct result as [[|] [n|]]; try reflexivity; exfalso; cbn in Hb;
            first [discriminate
                  |rewrite bool_decide_eq_true_2 in Hb by (eexists; reflexivity);
                   discriminate]. }
        rewrite (H3 eq_refl).
        specialize (IH w'). destruct (fire_priorities rest w') as [[r rest'] w''].
        destruct IH as [I1 I2]. split.
        -- constructor; [|exact I1]. split; [reflexivity|apply Forall2_ce_frame_refl].
        -- cbn [foldr cpe_elements]. lia.
      * split.
        -- constructor; [|apply Forall2_cpe_frame_refl]. split; [reflexivity|exact H1].
        -- cbn [foldr cpe_elements]. lia.
    + split.
      * constructor; [|apply Forall2_cpe_frame_refl]. split; [reflexivity|exact H1].
      * cbn [foldr cpe_elements]. lia.
Qed.

(** A competence after a step: the same name, the same goal, and elements
    that differ in their consumed retries only. *)
Definition competence_frame (c c' : Competence) : Prop :=
  c_name c' = c_name c /\ c_goal c' = c_goal c /\
  Forall2 cpe_frame (c_elements c) (c_elements c').

Lemma Competence_fire_keeps (self : Competence) (w : World) :
  let '(_, self', _) := Competence_fire self w in competence_frame self self'.
Proof.
  unfold Competence_fire.
  destruct (goal_fire (c_goal self) w) as [[[|]|e] w'].
  - split; [reflexivity|]. split; [reflexivity|apply Forall2_cpe_frame_refl].
  - pose proof (fire_priorities_frame (c_elements self) w') as Hf.
    destruct (fire_priorities (c_elements self) w') as [[r els'] w''].
    destruct Hf as [H1 _]. split; [reflexivity|]. split; [reflexivity|exact H1].
  - split; [reflexivity|]. split; [reflexivity|apply Forall2_cpe_frame_refl].
Qed.

(** X3.  [Competence.fire] changes nothing of a competence but the
    retries that its elements have consumed: the name, the goal, the
    priority elements and, of every element, the name, the trigger, the
    target and the maximum of retries stay.  No counter goes down, and all
    counters together grow by one at most, since one element at most is
    found ready.  Nothing that [fire] calls resets a counter. *)
Theorem Competence_fire_frame (self : Competence) (w : World) :
  let '(_, self', _) := Competence_fire self w in
  c_name self' = c_name self /\
  c_goal self' = c_goal self /\
  Forall2 cpe_frame (c_elements self) (c_elements self') /\
  competence_retries self <= competence_retries self' <= competence_retries self + 1.
Proof.
  unfold Competence_fire.
  destruct (goal_fire (c_goal self) w) as [[[|]|e] w'].
  - repeat split; try reflexivity; try lia. apply Forall2_cpe_frame_refl.
  - pose proof (fire_priorities_frame (c_elements self) w') as Hf.
    destruct (fire_priorities (c_elements self) w') as [[r els'] w''].
    destruct Hf as [H1 H2]. repeat split; try reflexivity; try exact H1;
      unfold competence_retries; cbn [c_set_elements c_elements]; lia.
  - repeat split; try reflexivity; try lia. apply Forall2_cpe_frame_refl.
Qed.


(** What a competence can hand off to: the target of one of its elements,
    when that target is not an action. *)
Definition hand_off_of (elements : list CompetenceElement) (r : FireResult) : Prop :=
  exists ce, ce ∈ elements /\ is_Action (ce_element ce) = false /\
             r = hand_off (ce_element ce).

Lemma fire_first_ready_result (elements : list CompetenceElement) (w : World) :
  match fire_first_ready elements w with
  | (Ok r, _, _) => r = all_failed \/ r = stop_no_handoff \/ hand_off_of elements r
  | (Raise _, _, _) => True
  end.
Proof.
  revert w. induction elements as [|e rest IH]; intros w.
  - left. reflexivity.
  - cbn [fire_first_ready].
    pose proof (CompetenceElement_isReady_frame e 0 w) as Hr.
    destruct (CompetenceElement_isReady e 0 w) as [[[[|]|x] e'] w']; [| |exact I].
    + subst e'.
      destruct (CompetenceElement_fire _ w') as [[r|x] w''] eqn:Hf; [|exact I].
      apply CompetenceElement_fire_result in Hf as [_ Hf].
      cbn [ce_element ce_set_retries] in Hf. right.
      destruct (is_Action (ce_element e)) eqn:Ha; [left; exact Hf|right].
      exists e. split; [left|]. split; [exact Ha|exact Hf].
    + specialize (IH w'). destruct (fire_first_ready rest w') as [[[r|x] rest'] w''];
        [|exact I].
      destruct IH as [H|[H|(ce & Hin & Ha & H)]]; [left; exact H|right; left; exact H|].
      right; right. exists ce. split; [right; exact Hin|]. split; [exact Ha|exact H].
Qed.

Lemma fire_priorities_result (elements : list CompetencePriorityElement) (w : World) :
  match fire_priorities elements w with
  | (Ok r, _, _) =>
      r = stop_no_handoff \/
      exists pe, pe ∈ elements /\ hand_off_of (cpe_elements pe) r
  | (Raise _, _, _) => True
  end.
Proof.
  revert w. induction elements as [|pe rest IH]; intros w.
  - left. reflexivity.
  - cbn [fire_priorities]. unfold CompetencePriorityElement_fire.
    pose proof (fire_first_ready_result (cpe_elements pe) w) as Hf.
    destruct (fire_first_ready (cpe_elements pe) w) as [[[result|x] els'] w']; [|exact I].
    destruct Hf as [->|[->|Hh]].
    + cbn [continueExecution nextElement all_failed andb negb].
      rewrite bool_decide_eq_false_2 by (intros [? ?]; discriminate). cbn [negb].
      specialize (IH w'). destruct (fire_priorities rest w') as [[[r|x] rest'] w''];
        [|exact I].
      destruct IH as [H|(pe' & Hin & H)]; [left; exact H|right].
      exists pe'. split; [right; exact Hin|exact H].
    + left. reflexivity.
    + pose proof Hh as (ce & _ & _ & ->).
      cbn [continueExecution nextElement hand_off andb].
      rewrite bool_decide_eq_true_2 by (eexists; reflexivity). cbn [negb].
      right. exists pe. split; [left|exact Hh].
Qed.

Lemma Competence_fire_next (self : Competence) (w : World) :
  match Competence_fire self w with
  | (Ok r, _, _) => forall e, nextElement r = Some e -> is_Action e = false
  | (Raise _, _, _) => True
  end.
Proof.
  unfold Competence_fire.
  destruct (goal_fire (c_goal self) w) as [[[|]|e] w']; [intros e; discriminate| |exact I].
  pose proof (fire_priorities_result (c_elements self) w') as Hf.
  destruct (fire_priorities (c_elements self) w') as [[[r|x] els'] w'']; [|exact I].
  intros e He. destruct Hf as [->|(pe & _ & ce & _ & Ha & ->)]; [discriminate|].
  injection He as <-. exact Ha.
Qed.

(** X4.  What a competence returns when it is fired: "stop, no hand-off"
    (the goal is reached, an action was fired, or no element was ready),
    or "continue" with the target of one of its own elements, which is
    not an action.  The value "continue, no hand-off", by which a
    priority element says that none of its elements was ready, never
    leaves the competence. *)
Theorem Competence_fire_result (self : Competence) (w : World) :
  match Competence_fire self w with
  | (Ok r, _, _) =>
      r = stop_no_handoff \/
      exists pe, pe ∈ c_elements self /\ hand_off_of (cpe_elements pe) r
  | (Raise _, _, _) => True
  end.
Proof.
  unfold Competence_fire.
  destruct (goal_fire (c_goal self) w) as [[[|]|e] w']; [left; reflexivity| |exact I].
  pose proof (fire_priorities_result (c_elements self) w') as Hf.
  destruct (fire_priorities (c_elements self) w') as [[[r|x] els'] w'']; [exact Hf|exact I].
Qed.

(** ** Action patterns *)

(** X5.  The cursor of an action pattern stays in range.  When it points
    at an element, [fire] keeps the name and the elements, and afterwards
    the cursor points at an element again: it is 0, or one further, or
    where it was, the last only when the element that was fired raised. *)
Theorem ActionPattern_fire_in_range (self : ActionPattern) (w : World) :
  (ap_element_idx self < length (ap_elements self))%nat ->
  let '(r, self', _) := ActionPattern_fire self w in
  ap_name self' = ap_name self /\
  ap_elements self' = ap_elements self /\
  (ap_element_idx self' < length (ap_elements self'))%nat /\
  (ap_element_idx self' = 0%nat \/ ap_element_idx self' = S (ap_element_idx self) \/
   (self' = self /\ exists e, r = Raise e)).
Proof.
  intros Hi. unfold ActionPattern_fire.
  destruct (ap_elements self !! ap_element_idx self) as [e|] eqn:He.
  2:{ apply lookup_ge_None in He. lia. }
  assert (Hafter : forall ok,
            let '(_, self') := ap_after ok self in
            ap_name self' = ap_name self /\
            ap_elements self' = ap_elements self /\
            (ap_element_idx self' < length (ap_elements self'))%nat /\
            (ap_element_idx self' = 0%nat \/
             ap_element_idx self' = S (ap_element_idx self))).
  { intros ok. unfold ap_after. destruct ok; cbn [negb].
    - destruct (Nat.leb_spec (length (ap_elements self)) (S (ap_element_idx self)));
        cbn; repeat split; try lia; auto.
    - cbn. repeat split; try lia; auto. }
  destruct e as [a|s|p|n].
  - destruct (Action_fire a w) as [[ok|x] w'].
    + specialize (Hafter ok). destruct (ap_after ok self) as [r self'].
      destruct Hafter as (H1 & H2 & H3 & H4). repeat split; try assumption.
      destruct H4; auto.
    + repeat split; try assumption. right; right. split; [reflexivity|eauto].
  - destruct (Sense_fire s w) as [[ok|x] w'].
    + specialize (Hafter ok). destruct (ap_after ok self) as [r self'].
      destruct Hafter as (H1 & H2 & H3 & H4). repeat split; try assumption.
      destruct H4; auto.
    + repeat split; try assumption. right; right. split; [reflexivity|eauto].
  - cbn. repeat split; try lia; auto.
  - cbn. repeat split; try lia; auto.
Qed.

(** ** The cursor of a drive element *)

Lemma ActionPattern_fire_next (self : ActionPattern) (w : World) :
  match ActionPattern_fire self w with
  | (Ok r, _, _) => forall e, nextElement r = Some e -> is_Action e = false
  | (Raise _, _, _) => True
  end.
Proof.
  unfold ActionPattern_fire.
  destruct (ap_elements self !! ap_element_idx self) as [[a|s|p|n]|]; try exact I.
  - destruct (Action_fire a w) as [[ok|x] w']; [|exact I].
    unfold ap_after. destruct (negb ok); [intros e; discriminate|].
    destruct (_ <=? _)%nat; intros e; discriminate.
  - destruct (Sense_fire s w) as [[ok|x] w']; [|exact I].
    unfold ap_after. destruct (negb ok); [intros e; discriminate|].
    destruct (_ <=? _)%nat; intros e; discriminate.
  - intros e [= <-]. reflexivity.
  - intros e [= <-]. reflexivity.
Qed.

Lemma target_fire_next (e : element) (h : heap) (w : World) :
  match target_fire e h w with
  | (Ok r, _, _) => forall e', nextElement r = Some e' -> is_Action e' = false
  | (Raise _, _, _) => True
  end.
Proof.
  unfold target_fire. destruct e as [a|s|p|n]; try exact I.
  - destruct (Action_fire a w) as [[ok|x] w']; exact I.
  - destruct (Sense_fire s w) as [[ok|x] w']; exact I.
  - destruct (h !! p) as [[c|a]|]; [| |exact I].
    + pose proof (Competence_fire_next c w) as Hc.
      destruct (Competence_fire c w) as [[[r|x] c'] w']; [exact Hc|exact I].
    + pose proof (ActionPattern_fire_next a w) as Ha.
      destruct (ActionPattern_fire a w) as [[[r|x] a'] w']; [exact Ha|exact I].
Qed.

(** X6.  The comment in [DriveElement.fire] holds: an action is the
    element of a drive element only when it is its root.  [fire] keeps
    the root; after a [fire] that returns, the cursor is the root, or it
    is no action and was none before; a [fire] that raises leaves the
    drive element as it was. *)
Theorem DriveElement_fire_cursor (self : DriveElement) (h : heap) (w : World) :
  let '(r, self', _, _) := DriveElement_fire self h w in
  de_root self' = de_root self /\
  match r with
  | Ok _ =>
      de_element self' = de_root self \/
      (is_Action (de_element self') = false /\ is_Action (de_element self) = false)
  | Raise _ => self' = self
  end.
Proof.
  unfold DriveElement_fire.
  destruct (de_element self) as [a|s|p|n] eqn:He.
  - destruct (Action_fire a w) as [[ok|x] w']; split; try reflexivity.
    left. reflexivity.
  - pose proof (target_fire_next (ESense s) h w) as Hn.
    destruct (target_fire (ESense s) h w) as [[[r|x] h'] w']; [|split; reflexivity].
    destruct (continueExecution r); [|split; [reflexivity|left; reflexivity]].
    destruct (nextElement r) as [e'|]; split; try reflexivity.
    + right. split; [apply Hn; reflexivity|reflexivity].
    + right. rewrite He. split; reflexivity.
  - pose proof (target_fire_next (ERef p) h w) as Hn.
    destruct (target_fire (ERef p) h w) as [[[r|x] h'] w']; [|split; reflexivity].
    destruct (continueExecution r); [|split; [reflexivity|left; reflexivity]].
    destruct (nextElement r) as [e'|]; split; try reflexivity.
    + right. split; [apply Hn; reflexivity|reflexivity].
    + right. rewrite He. split; reflexivity.
  - pose proof (target_fire_next (EDriveCollection n) h w) as Hn.
    destruct (target_fire (EDriveCollection n) h w) as [[[r|x] h'] w']; [|split; reflexivity].
    destruct (continueExecution r); [|split; [reflexivity|left; reflexivity]].
    destruct (nextElement r) as [e'|]; split; try reflexivity.
    + right. split; [apply Hn; reflexivity|reflexivity].
    + right. rewrite He. split; reflexivity.
Qed.

(** ** What a step leaves as it is *)

(** An object of the heap after a step: of the same class, with the same
    name and the same elements. *)
Definition object_frame (o o' : object) : Prop :=
  match o, o' with
  | OCompetence c, OCompetence c' => competence_frame c c'
  | OActionPattern a, OActionPattern a' =>
      ap_name a' = ap_name a /\ ap_elements a' = ap_elements a
  | _, _ => False
  end.

Definition heap_frame (h h' : heap) : Prop :=
  forall p, option_Forall2 object_frame (h !! p) (h' !! p).

Definition de_frame (d d' : DriveElement) : Prop :=
  de_name d' = de_name d /\ de_trigger d' = de_trigger d /\
  de_root d' = de_root d /\ de_max_freq d' = de_max_freq d.

Definition dpe_frame (pe pe' : DrivePriorityElement) : Prop :=
  dpe_name pe' = dpe_name pe /\ Forall2 de_frame (dpe_elements pe) (dpe_elements pe').

Definition dc_frame (dc dc' : DriveCollection) : Prop :=
  dc_name dc' = dc_name dc /\ dc_goal dc' = dc_goal dc /\
  Forall2 dpe_frame (dc_elements dc) (dc_elements dc').

Lemma ce_frame_trans (e1 e2 e3 : CompetenceElement) :
  ce_frame e1 e2 -> ce_frame e2 e3 -> ce_frame e1 e3.
Proof.
  intros [H1 L1] [H2 L2]. split; [|lia].
  rewrite H2, H1. destruct e1; reflexivity.
Qed.

Lemma cpe_frame_trans (pe1 pe2 pe3 : CompetencePriorityElement) :
  cpe_frame pe1 pe2 -> cpe_frame pe2 pe3 -> cpe_frame pe1 pe3.
Proof.
  intros [N1 F1] [N2 F2]. split; [congruence|].
  revert F2. generalize (cpe_elements pe3). induction F1 as [|a b l1 l2 Hab _ IH];
    intros l3 F2; inversion F2; subst; constructor.
  - eapply ce_frame_trans; eassumption.
  - apply IH. assumption.
Qed.

Lemma competence_frame_refl (c : Competence) : competence_frame c c.
Proof. split; [reflexivity|]. split; [reflexivity|apply Forall2_cpe_frame_refl]. Qed.

Lemma competence_frame_trans (c1 c2 c3 : Competence) :
  competence_frame c1 c2 -> competence_frame c2 c3 -> competence_frame c1 c3.
Proof.
  intros (N1 & G1 & F1) (N2 & G2 & F2). split; [congruence|]. split; [congruence|].
  revert F2. generalize (c_elements c3). induction F1 as [|a b l1 l2 Hab _ IH];
    intros l3 F2; inversion F2; subst; constructor.
  - eapply cpe_frame_trans; eassumption.
  - apply IH. assumption.
Qed.

Lemma object_frame_refl (o : object) : object_frame o o.
Proof. destruct o; cbn; [apply competence_frame_refl|split; reflexivity]. Qed.

Lemma object_frame_trans (o1 o2 o3 : object) :
  object_frame o1 o2 -> object_frame o2 o3 -> object_frame o1 o3.
Proof.
  destruct o1, o2, o3; cbn; try contradiction.
  - apply competence_frame_trans.
  - intros [? ?] [? ?]. split; congruence.
Qed.

Lemma heap_frame_refl (h : heap) : heap_frame h h.
Proof.
  intros p. destruct (h !! p); constructor. apply object_frame_refl.
Qed.

Lemma heap_frame_trans (h1 h2 h3 : heap) :
  heap_frame h1 h2 -> heap_frame h2 h3 -> heap_frame h1 h3.
Proof.
  intros H1 H2 p. specialize (H1 p). specialize (H2 p).
  destruct H1; inversion H2; subst; constructor.
  eapply object_frame_trans; eassumption.
Qed.

Lemma heap_frame_update (h : heap) (p : addr) (o o' : object) :
  h !! p = Some o -> object_frame o o' -> heap_frame h (<[p := o']> h).
Proof.
  intros Hp Ho q. destruct (decide (p = q)) as [<-|Hne].
  - rewrite lookup_insert_eq, Hp. constructor. exact Ho.
  - rewrite lookup_insert_ne by exact Hne. apply heap_frame_refl.
Qed.

Lemma de_frame_refl (d : DriveElement) : de_frame d d.
Proof. repeat split. Qed.

Lemma Forall2_de_frame_refl (l : list DriveElement) : Forall2 de_frame l l.
Proof. induction l; constructor; [apply de_frame_refl|assumption]. Qed.

Lemma dpe_frame_refl (pe : DrivePriorityElement) : dpe_frame pe pe.
Proof. split; [reflexivity|apply Forall2_de_frame_refl]. Qed.

Lemma Forall2_dpe_frame_refl (l : list DrivePriorityElement) : Forall2 dpe_frame l l.
Proof. induction l; constructor; [apply dpe_frame_refl|assumption]. Qed.

Lemma target_fire_frame (e : element) (h : heap) (w : World) :
  let '(_, h', _) := target_fire e h w in heap_frame h h'.
Proof.
  unfold target_fire. destruct e as [a|s|p|n].
  - destruct (Action_fire a w) as [[ok|x] w']; apply heap_frame_refl.
  - destruct (Sense_fire s w) as [[ok|x] w']; apply heap_frame_refl.
  - destruct (h !! p) as [[c|a]|] eqn:Hp; [| |apply heap_frame_refl].
    + pose proof (Competence_fire_keeps c w) as Hc.
      destruct (Competence_fire c w) as [[r c'] w'].
      eapply heap_frame_update; [exact Hp|]. exact Hc.
    + destruct (ActionPattern_fire a w) as [[r a'] w'] eqn:Hf.
      eapply heap_frame_update; [exact Hp|]. cbn.
      unfold ActionPattern_fire in Hf.
      destruct (ap_elements a !! ap_element_idx a) as [[x|s|q|n]|].
      * destruct (Action_fire x w) as [[ok|y] w1].
        -- unfold ap_after in Hf.
           destruct (negb ok); [|destruct (_ <=? _)%nat]; inversion Hf; subst;
             split; reflexivity.
        -- inversion Hf; subst. split; reflexivity.
      * destruct (Sense_fire s w) as [[ok|y] w1].
        -- unfold ap_after in Hf.
           destruct (negb ok); [|destruct (_ <=? _)%nat]; inversion Hf; subst;
             split; reflexivity.
        -- inversion Hf; subst. split; reflexivity.
      * inversion Hf; subst. split; reflexivity.
      * inversion Hf; subst. split; reflexivity.
      * inversion Hf; subst. split; reflexivity.
  - apply heap_frame_refl.
Qed.

Lemma DriveElement_fire_keeps (self : DriveElement) (h : heap) (w : World) :
  let '(_, self', h', _) := DriveElement_fire self h w in
  de_frame self self' /\ heap_frame h h'.
Proof.
  unfold DriveElement_fire.
  assert (Ht : forall e, match target_fire e h w with
            | (Raise x, h', w') => de_frame self self /\ heap_frame h h'
            | (Ok result, h', w') =>
                let '(_, self', h'', _) :=
                  (if continueExecution result
                   then match nextElement result with
                        | Some nextElement =>
                            (Ok tt, de_set_element nextElement self, h', w')
                        | None => (Ok tt, self, h', w')
                        end
                   else (Ok tt, de_set_element (de_root self) self, h', w'))
                  : res unit * DriveElement * heap * World in
                de_frame self self' /\ heap_frame h h''
            end).
  { intros e. pose proof (target_fire_frame e h w) as Hf.
    destruct (target_fire e h w) as [[[r|x] h'] w']; [|split; [apply de_frame_refl|exact Hf]].
    destruct (continueExecution r); [destruct (nextElement r)|];
      (split; [repeat split|exact Hf]). }
  destruct (de_element self) as [a|s|p|n].
  - destruct (Action_fire a w) as [[ok|x] w']; (split; [repeat split|apply heap_frame_refl]).
  - specialize (Ht (ESense s)).
    destruct (target_fire (ESense s) h w) as [[[r|x] h'] w']; exact Ht.
  - specialize (Ht (ERef p)).
    destruct (target_fire (ERef p) h w) as [[[r|x] h'] w']; exact Ht.
  - specialize (Ht (EDriveCollection n)).
    destruct (target_fire (EDriveCollection n) h w) as [[[r|x] h'] w']; exact Ht.
Qed.

Lemma DriveElement_isReady_keeps (self : DriveElement) (timestamp : Z) (w : World) :
  let '(_, self', _) := DriveElement_isReady self timestamp w in de_frame self self'.
Proof.
  unfold DriveElement_isReady.
  destruct (de_trigger self) as [t|]; [|apply de_frame_refl].
  destruct (Trigger_fire t w) as [[[|]|x] w']; try apply de_frame_refl.
  destruct (freq_allows _ _ _); repeat split.
Qed.

Lemma de_frame_trans (d1 d2 d3 : DriveElement) :
  de_frame d1 d2 -> de_frame d2 d3 -> de_frame d1 d3.
Proof. intros (?&?&?&?) (?&?&?&?). repeat split; congruence. Qed.

Lemma fire_first_ready_drive_keeps (elements : list DriveElement) (timestamp : Z)
    (h : heap) (w : World) :
  let '(_, elements', h', _) := fire_first_ready_drive elements timestamp h w in
  Forall2 de_frame elements elements' /\ heap_frame h h'.
Proof.
  revert w. induction elements as [|e rest IH]; intros w.
  - split; [constructor|apply heap_frame_refl].
  - cbn [fire_first_ready_drive].
    pose proof (DriveElement_isReady_keeps e timestamp w) as Hr.
    destruct (DriveElement_isReady e timestamp w) as [[[[|]|x] e'] w'].
    + pose proof (DriveElement_fire_keeps e' h w') as Hf.
      destruct (DriveElement_fire e' h w') as [[[[u|x] e''] h'] w''];
        destruct Hf as [Hd Hh];
        (split; [constructor; [eapply de_frame_trans; eassumption
                              |apply Forall2_de_frame_refl]
                |exact Hh]).
    + specialize (IH w').
      destruct (fire_first_ready_drive rest timestamp h w') as [[[r rest'] h'] w''].
      destruct IH as [I1 I2]. split; [constructor; assumption|exact I2].
    + split; [constructor; [exact Hr|apply Forall2_de_frame_refl]|apply heap_frame_refl].
Qed.

Lemma fire_drive_priorities_keeps (elements : list DrivePriorityElement) (timer : Timer) :
  forall (h : heap) (w : World),
  let '(_, elements', h', _) := fire_drive_priorities elements timer h w in
  Forall2 dpe_frame elements elements' /\ heap_frame h h'.
Proof.
  induction elements as [|pe rest IH]; intros h w.
  - split; [constructor|apply heap_frame_refl].
  - cbn [fire_drive_priorities]. unfold DrivePriorityElement_fire.
    pose proof (fire_first_ready_drive_keeps (dpe_elements pe) (Timer_time timer w) h w)
      as Hf.
    destruct (fire_first_ready_drive (dpe_elements pe) (Timer_time timer w) h w)
      as [[[[[r|]|x] els'] h'] w']; destruct Hf as [H1 H2].
    + split; [|exact H2].
      constructor; [split; [reflexivity|exact H1]|apply Forall2_dpe_frame_refl].
    + specialize (IH h' w').
      destruct (fire_drive_priorities rest timer h' w') as [[[r rest'] h''] w''].
      destruct IH as [I1 I2]. split.
      * constructor; [split; [reflexivity|exact H1]|exact I1].
      * eapply heap_frame_trans; eassumption.
    + split; [|exact H2].
      constructor; [split; [reflexivity|exact H1]|apply Forall2_dpe_frame_refl].
Qed.

(** X7.  A step changes no part of the plan.  After [followDrive],
    whether it returns or raises, the agent has the same behaviour
    dictionary; the drive collection has the same name, goal and drive
    elements, each with the same name, trigger, root and frequency; and
    every address of the heap holds an object of the same class as
    before, a competence with the same name, goal and elements (the
    consumed retries apart, which do not go down) or an action pattern
    with the same name and elements.  What a step changes is cursors,
    times of last firing, consumed retries and the timer. *)
Theorem followDrive_keeps_plan (self : Agent) (w : World) :
  let '(_, self', _) := followDrive self w in
  ag_bdict self' = ag_bdict self /\
  dc_frame (ag_dc self) (ag_dc self') /\
  heap_frame (ag_heap self) (ag_heap self').
Proof.
  unfold followDrive.
  destruct (ag_timer self) as [timer|].
  2:{ split; [reflexivity|]. split; [|apply heap_frame_refl].
      split; [reflexivity|]. split; [reflexivity|apply Forall2_dpe_frame_refl]. }
  unfold DriveCollection_fire.
  destruct (goal_fire (dc_goal (ag_dc self)) (Timer_loopWait timer w)) as [[[|]|x] w1].
  - split; [reflexivity|]. split; [|apply heap_frame_refl].
    split; [reflexivity|]. split; [reflexivity|apply Forall2_dpe_frame_refl].
  - pose proof (fire_drive_priorities_keeps (dc_elements (ag_dc self)) timer
                  (ag_heap self) w1) as Hf.
    destruct (fire_drive_priorities (dc_elements (ag_dc self)) timer (ag_heap self) w1)
      as [[[[[|]|x] els'] h'] w2]; destruct Hf as [H1 H2];
      (split; [reflexivity|]; split; [|exact H2];
       split; [reflexivity|]; split; [reflexivity|exact H1]).
  - split; [reflexivity|]. split; [|apply heap_frame_refl].
    split; [reflexivity|]. split; [reflexivity|apply Forall2_dpe_frame_refl].
Qed.

(** ** The checks of the builder *)

Lemma check_clashes_Ok (bd : BehaviourDict) (kind : string) (names : list string) :
  check_clashes bd kind names = Ok tt <->
  Forall (fun name => bd_actions bd !! name = None /\ bd_senses bd !! name = None) names.
Proof.
  induction names as [|name rest IH]; cbn [check_clashes].
  - split; [constructor|reflexivity].
  - unfold in_action_names, in_sense_names.
    destruct (bd_actions bd !! name) as [x|] eqn:Ha.
    { rewrite bool_decide_eq_true_2 by (eexists; reflexivity).
      split; [discriminate|]. intros H. apply Forall_cons in H as [[H _] _]. cbv beta in H. congruence. }
    rewrite bool_decide_eq_false_2 by (intros [? ?]; discriminate).
    destruct (bd_senses bd !! name) as [x|] eqn:Hs.
    { rewrite bool_decide_eq_true_2 by (eexists; reflexivity).
      split; [discriminate|]. intros H. apply Forall_cons in H as [[_ H] _]. cbv beta in H. congruence. }
    rewrite bool_decide_eq_false_2 by (intros [? ?]; discriminate).
    rewrite IH. split.
    + intros H. constructor; [split; assumption|exact H].
    + intros H. apply Forall_cons in H as [_ H]. exact H.
Qed.

Lemma check_clashes_Raise (bd : BehaviourDict) (kind : string) (names : list string)
    (e : exn) :
  check_clashes bd kind names = Raise e -> exists msg, e = NameError msg.
Proof.
  induction names as [|name rest IH]; cbn [check_clashes]; [discriminate|].
  destruct (in_action_names bd name); [intros [= <-]; eauto|].
  destruct (in_sense_names bd name); [intros [= <-]; eauto|exact IH].
Qed.

Lemma elem_of_keys {A} (m : gmap string A) (name : string) :
  name ∈ map fst (map_to_list m) <-> is_Some (m !! name).
Proof.
  rewrite list_elem_of_In, in_map_iff. split.
  - intros ([k x] & <- & Hin). apply list_elem_of_In, elem_of_map_to_list in Hin.
    eexists. exact Hin.
  - intros [x Hx]. exists (name, x). split; [reflexivity|].
    apply list_elem_of_In, elem_of_map_to_list. exact Hx.
Qed.

(** X8.  [_checkNameClashes] passes exactly when no name of a competence
    or of an action pattern of the plan is the name of an action or of a
    sense of the behaviour dictionary; when it does not pass, what it
    raises is a [NameError]. *)
Theorem checkNameClashes_spec (self : PlanBuilder) (bd : BehaviourDict) :
  (checkNameClashes self bd = Ok tt <->
   forall name,
     is_Some (pb_competences self !! name) \/ is_Some (pb_actionpatterns self !! name) ->
     bd_actions bd !! name = None /\ bd_senses bd !! name = None) /\
  (forall e, checkNameClashes self bd = Raise e -> exists msg, e = NameError msg).
Proof.
  unfold checkNameClashes. split.
  - destruct (check_clashes bd "Competence" _) as [[]|e] eqn:Hc.
    + apply check_clashes_Ok in Hc. rewrite check_clashes_Ok.
      rewrite Forall_forall in *. split.
      * intros Ha name [Hn|Hn]; [apply Hc|apply Ha]; apply elem_of_keys; exact Hn.
      * intros H name Hn. apply H. right. apply elem_of_keys. exact Hn.
    + split; [discriminate|]. intros H. exfalso.
      assert (Hok : check_clashes bd "Competence"
                      (map fst (map_to_list (pb_competences self))) = Ok tt).
      { apply check_clashes_Ok, Forall_forall. intros name Hn. apply H. left.
        apply elem_of_keys. exact Hn. }
      congruence.
  - intros e. destruct (check_clashes bd "Competence" _) as [[]|e'] eqn:Hc.
    + apply check_clashes_Raise.
    + intros [= <-]. eapply check_clashes_Raise. exact Hc.
Qed.

(** An action or a sense: an element that is fired where it stands. *)
Definition is_leaf (e : element) : bool :=
  match e with
  | EAction _ | ESense _ => true
  | _ => false
  end.

Lemma action_pattern_element_kind (bd : BehaviourDict) (e : sense_desc)
    (competences : gmap string addr) (x : element) :
  action_pattern_element bd e competences = Ok x ->
  is_leaf x = true \/
  exists name p, e = SName name /\ competences !! name = Some p /\ x = ERef p.
Proof.
  unfold action_pattern_element. destruct e as [name|name v pr].
  - destruct (in_sense_names bd name).
    + destruct (buildSenseAct bd name); [|discriminate]. intros [= <-]. left. reflexivity.
    + unfold getTriggerable. destruct (Action_init bd name) as [a|[]]; try discriminate.
      * destruct (_ || _); [discriminate|]. intros [= <-]. left. reflexivity.
      * destruct (competences !! name) as [p|] eqn:Hc.
        -- intros [= <-]. right. eauto.
        -- rewrite lookup_empty. discriminate.
  - destruct (buildSense bd name v pr); [|discriminate]. intros [= <-]. left. reflexivity.
Qed.

(** X9.  The elements that [_buildActionPatterns] makes for an action
    pattern: as many as the plan names, at least one, and all but the
    last are actions and senses.  Only the last can be something else,
    and then it is the competence of that name: an action pattern is
    never an element of an action pattern, and a competence is one only
    in the last place. *)
Theorem build_action_pattern_elements_shape (bd : BehaviourDict)
    (element_names : list sense_desc) (competences : gmap string addr)
    (elements : list element) :
  build_action_pattern_elements bd element_names competences = Ok elements ->
  length elements = length element_names /\
  elements <> [] /\
  Forall (fun e => is_leaf e = true) (all_but_last elements) /\
  (forall e, last elements = Some e ->
     is_leaf e = true \/
     exists name p, last element_names = Some (SName name) /\
                    competences !! name = Some p /\ e = ERef p).
Proof.
  unfold build_action_pattern_elements.
  destruct (build_list _ (all_but_last element_names)) as [front|] eqn:Hfront;
    [|discriminate].
  destruct (last element_names) as [e|] eqn:Hlast; [|discriminate].
  destruct (action_pattern_element bd e competences) as [x|] eqn:Hx; [|discriminate].
  intros [= <-].
  assert (Hlen : length front = length (all_but_last element_names)).
  { eapply build_list_length. exact Hfront. }
  assert (Hleaf : Forall (fun e => is_leaf e = true) front).
  { clear Hlen. revert front Hfront.
    induction (all_but_last element_names) as [|d ds IH]; intros front Hfront.
    - injection Hfront as <-. constructor.
    - cbn [build_list] in Hfront.
      destruct (action_pattern_element bd d ∅) as [y|] eqn:Hy; [|discriminate].
      destruct (build_list _ ds) as [ys|]; [|discriminate].
      injection Hfront as <-. constructor; [|apply IH; reflexivity].
      apply action_pattern_element_kind in Hy as [Hy|(n & p & _ & Hp & _)]; [exact Hy|].
      rewrite lookup_empty in Hp. discriminate. }
  assert (Hne : element_names <> []) by (intros ->; discriminate).
  split; [|split; [|split]].
  - rewrite length_app, Hlen. unfold all_but_last. rewrite length_take. cbn.
    destruct element_names; [contradiction|cbn; lia].
  - destruct front; discriminate.
  - unfold all_but_last. rewrite length_app. cbn [length].
    replace (length front + 1 - 1)%nat with (length front) by lia.
    rewrite take_app_length. exact Hleaf.
  - intros e'. rewrite last_snoc. intros [= <-].
    apply action_pattern_element_kind in Hx as [Hx|(n & p & -> & Hp & ->)]; [left; exact Hx|].
    right. eauto.
Qed.

(** X10.  The parser accepts a plan that is one competence or one action
    pattern and has no drive collection, but no agent can be made of it:
    the builder reads the drive collection that is not there, and
    [Agent(...)] raises. *)
Theorem Agent_init_needs_drive_collection (bd : BehaviourDict) (plan_str : string)
    (plan_builder : PlanBuilder) (w : World) :
  parse plan_str = Ok plan_builder ->
  pb_drivecollection plan_builder = None ->
  exists e, Agent_init bd plan_str w = Raise e.
Proof.
  intros Hp Hd. unfold Agent_init. rewrite Hp. unfold build.
  destruct (checkNameClashes plan_builder bd); [|eauto].
  destruct (buildCompetenceStubs plan_builder bd ∅) as [[competences h1]|]; [|eauto].
  destruct (buildActionPatternStubs plan_builder h1) as [actionpatterns h2].
  destruct (buildCompetences _ _ _ _ _); [|eauto].
  destruct (buildActionPatterns _ _ _ _ _); [|eauto].
  unfold buildDriveCollection. rewrite Hd. eauto.
Qed.

(** ** The behaviour dictionary *)


Lemma has_key_None {A} (m : gmap string A) (k : string) :
  has_key m k = false <-> m !! k = None.
Proof.
  unfold has_key. rewrite bool_decide_eq_false. split.
  - intros H. destruct (m !! k) eqn:Hk; [|reflexivity]. destruct H. eexists; reflexivity.
  - intros -> [x Hx]. discriminate.
Qed.






Lemma register_actions_Ok (behaviour : Behaviour) (actions : list string) :
  forall registered registered',
  register_actions behaviour actions registered = (Ok tt, registered') ->
  NoDup actions /\
  (forall a, a ∈ actions ->
     registered !! a = None /\
     exists m, find_method behaviour "action_" a = Some m /\
               registered' !! a = Some (m, bh_name behaviour)) /\
  (forall a, a ∉ actions -> registered' !! a = registered !! a).
Proof.
  induction actions as [|a rest IH]; intros registered registered'; cbn [register_actions].
  - intros [= <-]. split; [constructor|]. split; [intros a Ha; inversion Ha|reflexivity].
  - destruct (has_key registered a) eqn:Hk; [discriminate|]. apply has_key_None in Hk.
    destruct (find_method behaviour "action_" a) as [m|] eqn:Hm; [|discriminate].
    intros H. apply IH in H as (Hnd & Hin & Hout).
    assert (Hnotin : a ∉ rest).
    { intros Ha. destruct (Hin a Ha) as [Hnone _].
      rewrite lookup_insert_eq in Hnone. discriminate. }
    split; [constructor; assumption|]. split.
    + intros b Hb. apply elem_of_cons in Hb as [->|Hb].
      * split; [exact Hk|]. exists m. split; [exact Hm|].
        rewrite (Hout a Hnotin). apply lookup_insert_eq.
      * destruct (Hin b Hb) as [Hnone Hsome].
        assert (a <> b) by (intros ->; contradiction).
        rewrite lookup_insert_ne in Hnone by assumption. split; assumption.
    + intros b Hb. apply not_elem_of_cons in Hb as [Hne Hb].
      rewrite (Hout b Hb). apply lookup_insert_ne. congruence.
Qed.

Lemma register_senses_Ok (behaviour : Behaviour) (senses : list string) :
  forall registered registered',
  register_senses behaviour senses registered = (Ok tt, registered') ->
  NoDup senses /\
  (forall a, a ∈ senses ->
     registered !! a = None /\
     exists m, find_method behaviour "sense_" a = Some m /\
               registered' !! a = Some (m, bh_name behaviour)) /\
  (forall a, a ∉ senses -> registered' !! a = registered !! a).
Proof.
  induction senses as [|a rest IH]; intros registered registered'; cbn [register_senses].
  - intros [= <-]. split; [constructor|]. split; [intros a Ha; inversion Ha|reflexivity].
  - destruct (has_key registered a) eqn:Hk; [discriminate|]. apply has_key_None in Hk.
    destruct (find_method behaviour "sense_" a) as [m|] eqn:Hm; [|discriminate].
    intros H. apply IH in H as (Hnd & Hin & Hout).
    assert (Hnotin : a ∉ rest).
    { intros Ha. destruct (Hin a Ha) as [Hnone _].
      rewrite lookup_insert_eq in Hnone. discriminate. }
    split; [constructor; assumption|]. split.
    + intros b Hb. apply elem_of_cons in Hb as [->|Hb].
      * split; [exact Hk|]. exists m. split; [exact Hm|].
        rewrite (Hout a Hnotin). apply lookup_insert_eq.
      * destruct (Hin b Hb) as [Hnone Hsome].
        assert (a <> b) by (intros ->; contradiction).
        rewrite lookup_insert_ne in Hnone by assumption. split; assumption.
    + intros b Hb. apply not_elem_of_cons in Hb as [Hne Hb].
      rewrite (Hout b Hb). apply lookup_insert_ne. congruence.
Qed.

Lemma registerBehaviour_inv (behaviour : Behaviour) (self self' : BehaviourRegistry) :
  registerBehaviour behaviour self = (Ok tt, self') ->
  br_behaviours self !! bh_name behaviour = None /\
  br_behaviours self' = <[bh_name behaviour := behaviour]> (br_behaviours self) /\
  NoDup (bh_actions behaviour) /\ NoDup (bh_senses behaviour) /\
  (forall a, a ∈ bh_actions behaviour ->
     bd_actions (br_dict self) !! a = None /\
     exists m, find_method behaviour "action_" a = Some m /\
               bd_actions (br_dict self') !! a = Some (m, bh_name behaviour)) /\
  (forall a, a ∉ bh_actions behaviour ->
     bd_actions (br_dict self') !! a = bd_actions (br_dict self) !! a) /\
  (forall s, s ∈ bh_senses behaviour ->
     bd_senses (br_dict self) !! s = None /\
     exists m, find_method behaviour "sense_" s = Some m /\
               bd_senses (br_dict self') !! s = Some (m, bh_name behaviour)) /\
  (forall s, s ∉ bh_senses behaviour ->
     bd_senses (br_dict self') !! s = bd_senses (br_dict self) !! s).
Proof.
  unfold registerBehaviour.
  destruct (has_key (br_behaviours self) (bh_name behaviour)) eqn:Hk; [discriminate|].
  apply has_key_None in Hk.
  destruct (register_actions _ _ _) as [[[]|x] acts] eqn:Ha; [|discriminate].
  destruct (register_senses _ _ _) as [r sns] eqn:Hs.
  intros [= -> <-]. cbn [br_behaviours br_dict bd_actions bd_senses].
  apply register_actions_Ok in Ha as (A1 & A2 & A3).
  apply register_senses_Ok in Hs as (S1 & S2 & S3).
  repeat (split; [assumption||reflexivity|]). assumption.
Qed.

(** X13.  When [registerBehaviour] returns: the name of the behaviour
    was free and [getBehaviour] now finds the behaviour; no action and no
    sense is listed twice; every action that the behaviour lists was
    free, and [getAction] now returns its method, the attribute
    [action_<name>] when there is one and the attribute [<name>]
    otherwise, and [getActionBehaviour] returns the behaviour; every
    other action is looked up as before; and the same for the senses. *)
Theorem registerBehaviour_Ok (behaviour : Behaviour) (self self' : BehaviourRegistry) :
  registerBehaviour behaviour self = (Ok tt, self') ->
  br_behaviours self !! bh_name behaviour = None /\
  getBehaviour self' (bh_name behaviour) = Ok behaviour /\
  NoDup (bh_actions behaviour) /\ NoDup (bh_senses behaviour) /\
  (forall a, a ∈ bh_actions behaviour ->
     bd_actions (br_dict self) !! a = None /\
     exists m, find_method behaviour "action_" a = Some m /\
               getAction (br_dict self') a = Ok m /\
               getActionBehaviour (br_dict self') a = Ok (bh_name behaviour)) /\
  (forall a, a ∉ bh_actions behaviour ->
     getAction (br_dict self') a = getAction (br_dict self) a) /\
  (forall s, s ∈ bh_senses behaviour ->
     bd_senses (br_dict self) !! s = None /\
     exists m, find_method behaviour "sense_" s = Some m /\
               getSense (br_dict self') s = Ok m /\
               getSenseBehaviour (br_dict self') s = Ok (bh_name behaviour)) /\
  (forall s, s ∉ bh_senses behaviour ->
     getSense (br_dict self') s = getSense (br_dict self) s).
Proof.
  intros H. apply registerBehaviour_inv in H as (Hk & Hb & A1 & S1 & A2 & A3 & S2 & S3).
  split; [exact Hk|]. split.
  { unfold getBehaviour. rewrite Hb, lookup_insert_eq. reflexivity. }
  split; [exact A1|]. split; [exact S1|].
  split; [|split; [|split]].
  - intros a Hin. destruct (A2 a Hin) as (Hn & m & Hm & Hl). split; [exact Hn|].
    exists m. split; [exact Hm|]. unfold getAction, getActionBehaviour.
    rewrite Hl. split; reflexivity.
  - intros a Hout. unfold getAction. rewrite (A3 a Hout). reflexivity.
  - intros s Hin. destruct (S2 s Hin) as (Hn & m & Hm & Hl). split; [exact Hn|].
    exists m. split; [exact Hm|]. unfold getSense, getSenseBehaviour.
    rewrite Hl. split; reflexivity.
  - intros s Hout. unfold getSense. rewrite (S3 s Hout). reflexivity.
Qed.

(** Every action and every sense of the dictionary is a method of a
    registered behaviour that lists it. *)
Definition registry_sound (reg : BehaviourRegistry) : Prop :=
  (forall a m n, bd_actions (br_dict reg) !! a = Some (m, n) ->
     exists b, br_behaviours reg !! n = Some b /\ bh_name b = n /\
               a ∈ bh_actions b /\ find_method b "action_" a = Some m) /\
  (forall s m n, bd_senses (br_dict reg) !! s = Some (m, n) ->
     exists b, br_behaviours reg !! n = Some b /\ bh_name b = n /\
               s ∈ bh_senses b /\ find_method b "sense_" s = Some m) /\
  (forall n b, br_behaviours reg !! n = Some b -> bh_name b = n).

Lemma registerBehaviour_sound (behaviour : Behaviour) (self self' : BehaviourRegistry) :
  registerBehaviour behaviour self = (Ok tt, self') ->
  registry_sound self -> registry_sound self'.
Proof.
  intros H (Ia & Is & In).
  apply registerBehaviour_inv in H as (Hfresh & Hb & _ & _ & A2 & A3 & S2 & S3).
  split; [|split].
  - intros a m n Hl. rewrite Hb.
    destruct (decide (a ∈ bh_actions behaviour)) as [Hin|Hout].
    + destruct (A2 a Hin) as (_ & m' & Hm' & Hg).
      rewrite Hl in Hg. injection Hg as Hg1 Hg2. subst m' n.
      exists behaviour. rewrite lookup_insert_eq. repeat split; assumption.
    + rewrite (A3 a Hout) in Hl. destruct (Ia a m n Hl) as (b & Hbn & Hn & Hin & Hm).
      exists b. split; [|auto].
      rewrite lookup_insert_ne; [exact Hbn|]. intros Heq. congruence.
  - intros s m n Hl. rewrite Hb.
    destruct (decide (s ∈ bh_senses behaviour)) as [Hin|Hout].
    + destruct (S2 s Hin) as (_ & m' & Hm' & Hg).
      rewrite Hl in Hg. injection Hg as Hg1 Hg2. subst m' n.
      exists behaviour. rewrite lookup_insert_eq. repeat split; assumption.
    + rewrite (S3 s Hout) in Hl. destruct (Is s m n Hl) as (b & Hbn & Hn & Hin & Hm).
      exists b. split; [|auto].
      rewrite lookup_insert_ne; [exact Hbn|]. intros Heq. congruence.
  - intros n b. rewrite Hb. destruct (decide (bh_name behaviour = n)) as [<-|Hne].
    + rewrite lookup_insert_eq. intros [= <-]. reflexivity.
    + rewrite lookup_insert_ne by exact Hne. apply In.
Qed.

Lemma register_all_sound (behaviours : list Behaviour) :
  forall beh_dict beh_dict',
  register_all behaviours beh_dict = Ok beh_dict' ->
  registry_sound beh_dict ->
  registry_sound beh_dict' /\
  (forall b, b ∈ behaviours -> br_behaviours beh_dict' !! bh_name b = Some b).
Proof.
  induction behaviours as [|b rest IH]; intros beh_dict beh_dict'; cbn [register_all].
  - intros [= <-] H. split; [exact H|]. intros b Hb. inversion Hb.
  - destruct (registerBehaviour b beh_dict) as [[[]|e] d1] eqn:Hr; [|discriminate].
    intros Hrest Hs.
    pose proof (registerBehaviour_sound _ _ _ Hr Hs) as Hs1.
    destruct (IH _ _ Hrest Hs1) as [Hs' Hall]. split; [exact Hs'|].
    intros b' Hb'. apply elem_of_cons in Hb' as [->|Hb']; [|apply Hall, Hb'].
    apply registerBehaviour_inv in Hr as (_ & Hb1 & _).
    (* [b] stays registered: a later behaviour of the same name is refused *)
    clear IH Hall Hs Hs1 Hs'.
    assert (Hd1 : br_behaviours d1 !! bh_name b = Some b)
      by (rewrite Hb1; apply lookup_insert_eq).
    clear Hb1. revert d1 Hrest Hd1.
    induction rest as [|c rest IHr]; intros d1; cbn [register_all].
    + intros [= <-] H. exact H.
    + destruct (registerBehaviour c d1) as [[[]|e] d2] eqn:Hr2; [|discriminate].
      intros Hrest Hd1. apply (IHr d2 Hrest).
      apply registerBehaviour_inv in Hr2 as (Hfresh & Hb2 & _).
      rewrite Hb2. rewrite lookup_insert_ne; [exact Hd1|].
      intros Heq. rewrite Heq in Hfresh. congruence.
Qed.

(** X14.  The dictionary that [Agent._loadBehaviours] makes of a list of
    behaviours: every action and every sense in it is a method of a
    registered behaviour that lists it, found under the name of that
    behaviour, and every behaviour of the list is found by
    [getBehaviour] under its own name. *)
Theorem Agent_loadBehaviours_sound (behaviours : list Behaviour) (beh_dict : BehaviourRegistry) :
  Agent_loadBehaviours behaviours = Ok beh_dict ->
  registry_sound beh_dict /\
  (forall b, b ∈ behaviours -> getBehaviour beh_dict (bh_name b) = Ok b).
Proof.
  intros H. apply register_all_sound in H as [Hs Hall].
  - split; [exact Hs|]. intros b Hb. unfold getBehaviour. rewrite (Hall b Hb). reflexivity.
  - split; [|split]; cbn; intros *; rewrite lookup_empty; discriminate.
Qed.

End Engine.

(** * Properties of the lexer and the parser *)

(** ** The lexer *)

Lemma count_newlines_app (a b : list ascii) :
  count_newlines (a ++ b) = (count_newlines a + count_newlines b)%nat.
Proof. unfold count_newlines. rewrite filter_app, length_app. reflexivity. Qed.

Lemma count_newlines_cons (c : ascii) (s : list ascii) :
  count_newlines (c :: s) =
  ((if Ascii.eqb c newline then 1 else 0) + count_newlines s)%nat.
Proof.
  unfold count_newlines. rewrite filter_cons.
  destruct (Ascii.eqb_spec c newline) as [->|Hne].
  - rewrite decide_True by reflexivity. reflexivity.
  - rewrite decide_False by exact Hne. reflexivity.
Qed.

Lemma strip_comments_newlines (in_comment : bool) (s : list ascii) :
  count_newlines (strip_comments in_comment s) = count_newlines s.
Proof.
  revert in_comment. induction s as [|c r IH]; intros in_comment; [reflexivity|].
  cbn [strip_comments]. rewrite (count_newlines_cons c r).
  destruct (Ascii.eqb c newline) eqn:Hc.
  - rewrite count_newlines_cons, Hc, IH. reflexivity.
  - destruct in_comment; [apply IH|].
    destruct (ascii_in c "#;"); [apply IH|].
    rewrite count_newlines_cons, Hc, IH. reflexivity.
Qed.

Lemma strip_comments_clean (in_comment : bool) (s : list ascii) :
  Forall (fun c => ascii_in c "#;" = false) (strip_comments in_comment s).
Proof.
  revert in_comment. induction s as [|c r IH]; intros in_comment; [constructor|].
  cbn [strip_comments].
  destruct (Ascii.eqb_spec c newline) as [->|Hne].
  - constructor; [reflexivity|apply IH].
  - destruct in_comment; [apply IH|].
    destruct (ascii_in c "#;") eqn:Hc; [apply IH|].
    constructor; [exact Hc|apply IH].
Qed.

Lemma strip_comments_sublist (in_comment : bool) (s : list ascii) :
  sublist (strip_comments in_comment s) s.
Proof.
  revert in_comment. induction s as [|c r IH]; intros in_comment; [constructor|].
  cbn [strip_comments].
  destruct (Ascii.eqb c newline).
  - apply sublist_skip, IH.
  - destruct in_comment; [apply sublist_cons, IH|].
    destruct (ascii_in c "#;"); [apply sublist_cons, IH|apply sublist_skip, IH].
Qed.

Lemma strip_comments_id (s : list ascii) :
  Forall (fun c => ascii_in c "#;" = false) s -> strip_comments false s = s.
Proof.
  induction 1 as [|c r Hc _ IH]; [reflexivity|].
  cbn [strip_comments]. rewrite Hc, IH. destruct (Ascii.eqb c newline); reflexivity.
Qed.

(** X15.  The preprocessing of [setInput].  What is left of the text has
    no [#] and no [;] in it; it has as many newlines as the text, so that
    line numbers are those of the file; no character is added or moved;
    and preprocessing it again changes nothing. *)
Theorem LAPLexer_setInput_strips (inputStr : string) :
  let s := list_ascii_of_string inputStr in
  let s' := lx_input (LAPLexer_setInput inputStr) in
  Forall (fun c => c <> "#"%char /\ c <> ";"%char) s' /\
  count_newlines s' = count_newlines s /\
  sublist s' s /\
  lx_input (LAPLexer_setInput (string_of_list_ascii s')) = s'.
Proof.
  cbn [LAPLexer_setInput lx_input]. repeat split.
  - eapply Forall_impl; [apply strip_comments_clean|].
    intros c Hc. cbn in Hc. split; intros ->; discriminate.
  - apply strip_comments_newlines.
  - apply strip_comments_sublist.
  - rewrite list_ascii_of_string_of_list_ascii.
    apply strip_comments_id, strip_comments_clean.
Qed.

Lemma span_app (p : ascii -> bool) (s : list ascii) :
  s = fst (span p s) ++ snd (span p s).
Proof.
  induction s as [|c r IH]; [reflexivity|].
  cbn [span]. destruct (p c); [|reflexivity].
  destruct (span p r) as [a b]. cbn [fst snd] in *. rewrite IH at 1. reflexivity.
Qed.

Lemma span_Forall (p : ascii -> bool) (s : list ascii) :
  Forall (fun c => p c = true) (fst (span p s)).
Proof.
  induction s as [|c r IH]; [constructor|].
  cbn [span]. destruct (p c) eqn:Hc; [|constructor].
  destruct (span p r) as [a b]. cbn [fst] in *. constructor; assumption.
Qed.

Lemma span_drop (p : ascii -> bool) (s : list ascii) :
  drop (length (fst (span p s))) s = snd (span p s).
Proof.
  rewrite (span_app p s) at 2. rewrite drop_app_length. reflexivity.
Qed.

Lemma comment_pattern_Some (input rest' : list ascii) :
  comment_pattern input = Some rest' ->
  exists m, input = m ++ rest' /\ m <> [] /\
            take (length input - length rest') input = m.
Proof.
  destruct input as [|c r]; [discriminate|]. cbn [comment_pattern].
  destruct (Ascii.eqb c dquote); [|discriminate].
  pose proof (span_app (fun x => negb (Ascii.eqb x dquote)) r) as Hs.
  destruct (snd (span (fun x => negb (Ascii.eqb x dquote)) r)) as [|q r'] eqn:Hr;
    [discriminate|].
  intros [= <-].
  set (mid := fst (span (fun x => negb (Ascii.eqb x dquote)) r)) in *.
  exists (c :: mid ++ [q]). split; [|split].
  - rewrite Hs. cbn. rewrite <- app_assoc. reflexivity.
  - discriminate.
  - rewrite Hs.
    replace (c :: mid ++ q :: r') with ((c :: mid ++ [q]) ++ r')
      by (cbn; rewrite <- app_assoc; reflexivity).
    rewrite length_app.
    replace (length (c :: mid ++ [q]) + length r' - length r')%nat
      with (length (c :: mid ++ [q])) by lia.
    apply take_app_length.
Qed.

(** The text of the token that [token] returns; nothing when it returns
    [None]. *)
Definition token_text (t : option Token) : list ascii :=
  match t with
  | Some tok => list_ascii_of_string (value tok)
  | None => []
  end.

Lemma token_loop_spec (n : nat) :
  forall self : LAPLexer,
  (length (lx_input self) < n)%nat ->
  exists skipped,
    lx_input self = skipped ++ token_text (fst (token_loop n self))
                            ++ lx_input (snd (token_loop n self)) /\
    (fst (token_loop n self) = None -> lx_input (snd (token_loop n self)) = []) /\
    (forall tok, fst (token_loop n self) = Some tok -> token_text (Some tok) <> []) /\
    lx_lineno (snd (token_loop n self)) =
      (lx_lineno self +
       count_newlines (skipped ++ token_text (fst (token_loop n self))))%nat /\
    Forall (fun c => char_tokens c = None) skipped /\
    length (lx_printed (snd (token_loop n self))) =
      (length (lx_printed self) +
       length (filter (fun c => is_separating c = false) skipped))%nat.
Proof.
  induction n as [|n IH]; intros self Hn; [lia|].
  cbn [token_loop].
  destruct (lx_input self) as [|char rest] eqn:Hin.
  { exists []. cbn. rewrite Hin. repeat split; try done; try lia. }
  destruct (comment_pattern (char :: rest)) as [rest'|] eqn:Hc.
  { apply comment_pattern_Some in Hc as (m & Hm & Hne & Htake).
    exists []. cbn [fst snd token_text value lx_input lx_lineno lx_printed app].
    rewrite Htake, list_ascii_of_string_of_list_ascii.
    repeat split; try done; try (cbn; lia).
    intros tok [= <-]. cbn. rewrite list_ascii_of_string_of_list_ascii. exact Hne. }
  cbn [length] in Hn.
  destruct (is_separating char) eqn:Hsep.
  - destruct (char_tokens char) as [k|] eqn:Hk.
    + exists []. cbn [fst snd token_text value lx_input lx_lineno lx_printed app].
      repeat split; try done; try (cbn; lia).
      * intros tok [= <-]. discriminate.
      * cbn [list_ascii_of_string]. rewrite count_newlines_cons. cbn.
        destruct (Ascii.eqb char newline); lia.
    + match goal with |- context [token_loop n ?s] => set (self' := s) end.
      destruct (IH self') as (sk & H1 & H2 & H3 & H4 & H5 & H6);
        [subst self'; cbn; lia|].
      exists (char :: sk). subst self'. cbn [lx_input lx_lineno lx_printed] in *.
      repeat split; try assumption.
      * cbn. f_equal. exact H1.
      * rewrite H4. cbn [app]. rewrite (count_newlines_cons char).
        destruct (Ascii.eqb char newline); lia.
      * constructor; assumption.
      * rewrite H6, filter_cons. rewrite decide_False by (rewrite Hsep; discriminate).
        reflexivity.
  - set (sep_str := fst (span (fun c => negb (is_separating c)) (char :: rest))).
    destruct (first_full_match tokens sep_str) as [k|] eqn:Hk.
    + exists []. cbn [fst snd token_text value lx_input lx_lineno lx_printed app].
      rewrite list_ascii_of_string_of_list_ascii.
      assert (Hne : sep_str <> []).
      { subst sep_str. cbn [span]. rewrite Hsep. cbn.
        destruct (span _ rest). discriminate. }
      repeat split; try done; try (cbn; lia).
      * subst sep_str. rewrite span_drop. apply span_app.
      * intros tok [= <-]. cbn. rewrite list_ascii_of_string_of_list_ascii. exact Hne.
    + match goal with |- context [token_loop n ?s] => set (self' := s) end.
      destruct (IH self') as (sk & H1 & H2 & H3 & H4 & H5 & H6);
        [subst self'; cbn; lia|].
      exists (char :: sk). subst self'. cbn [lx_input lx_lineno lx_printed] in *.
      assert (Hnl : Ascii.eqb char newline = false).
      { destruct (Ascii.eqb_spec char newline) as [->|]; [|reflexivity].
        discriminate Hsep. }
      repeat split; try assumption.
      * cbn. f_equal. exact H1.
      * rewrite H4. cbn [app]. rewrite (count_newlines_cons char), Hnl. lia.
      * constructor; [|assumption].
        unfold char_tokens. unfold is_separating in Hsep.
        destruct (Ascii.eqb_spec char "(") as [->|]; [discriminate Hsep|].
        destruct (Ascii.eqb_spec char ")") as [->|]; [discriminate Hsep|].
        reflexivity.
      * rewrite H6, filter_cons, decide_True by exact Hsep.
        rewrite length_app. cbn. lia.
Qed.

Theorem LAPLexer_token_lineno (self : LAPLexer) :
  (lx_lineno (snd (LAPLexer_token self)) +
   count_newlines (lx_input (snd (LAPLexer_token self))) =
   lx_lineno self + count_newlines (lx_input self))%nat.
Proof.
  unfold LAPLexer_token.
  destruct (token_loop_spec (S (length (lx_input self))) self) as
    (sk & H1 & _ & _ & H4 & _); [lia|].
  rewrite H4. rewrite H1 at 3. rewrite app_assoc, (count_newlines_app (sk ++ _)). lia.
Qed.

(** [n] calls of [token] on a lexer. *)
Fixpoint after_tokens (n : nat) (self : LAPLexer) : LAPLexer :=
  match n with
  | O => self
  | S n' => snd (LAPLexer_token (after_tokens n' self))
  end.

(** X16.  The line number of the lexer is the line it stands on: after
    [setInput] and any number of calls of [token], the line number and
    the newlines still to be read add up to one more than the newlines of
    the text. *)
Theorem LAPLexer_lineno_counts_lines (inputStr : string) (n : nat) :
  (lx_lineno (after_tokens n (LAPLexer_setInput inputStr)) +
   count_newlines (lx_input (after_tokens n (LAPLexer_setInput inputStr))) =
   1 + count_newlines (list_ascii_of_string inputStr))%nat.
Proof.
  induction n as [|n IH].
  - cbn [after_tokens LAPLexer_setInput lx_input lx_lineno].
    rewrite strip_comments_newlines. reflexivity.
  - cbn [after_tokens]. rewrite LAPLexer_token_lineno. exact IH.
Qed.

(** X17.  One call of [token] accounts for every character it takes off
    the input: the input was what it passed over, then the text of the
    token, then what is left.  Nothing that it passes over is a
    parenthesis, and it prints one message for every character of it
    that is not a separating one.  A token has a text that is not empty,
    and [None] is returned only when the input is used up. *)
Theorem LAPLexer_token_accounts (self : LAPLexer) :
  exists skipped,
    lx_input self = skipped ++ token_text (fst (LAPLexer_token self))
                            ++ lx_input (snd (LAPLexer_token self)) /\
    Forall (fun c => c <> "("%char /\ c <> ")"%char) skipped /\
    length (lx_printed (snd (LAPLexer_token self))) =
      (length (lx_printed self) +
       length (filter (fun c => is_separating c = false) skipped))%nat /\
    match fst (LAPLexer_token self) with
    | Some tok => value tok <> EmptyString
    | None => lx_input (snd (LAPLexer_token self)) = []
    end.
Proof.
  unfold LAPLexer_token.
  destruct (token_loop_spec (S (length (lx_input self))) self) as
    (sk & H1 & H2 & H3 & _ & H5 & H6); [lia|].
  exists sk. split; [exact H1|]. split; [|split; [exact H6|]].
  - eapply Forall_impl; [exact H5|]. intros c Hc. cbn in Hc.
    split; intros ->; discriminate.
  - destruct (fst (token_loop _ self)) as [tok|] eqn:Ht.
    + intros Hv. apply (H3 tok eq_refl). cbn. rewrite Hv. reflexivity.
    + apply H2. reflexivity.
Qed.

Lemma first_full_match_In (tks : list (pattern * token_kind)) (s : list ascii)
    (k : token_kind) :
  first_full_match tks s = Some k -> exists p, In (p, k) tks /\ p s = Some [].
Proof.
  induction tks as [|[p k'] rest IH]; [discriminate|].
  cbn [first_full_match].
  destruct (p s) as [[|c r]|] eqn:Hp.
  - intros [= <-]. exists p. split; [left; reflexivity|exact Hp].
  - intros H. destruct (IH H) as (q & Hq & Hs). exists q. split; [right; exact Hq|exact Hs].
  - intros H. destruct (IH H) as (q & Hq & Hs). exists q. split; [right; exact Hq|exact Hs].
Qed.

Lemma starts_with_full (p : string) (s : list ascii) :
  starts_with p s = Some [] -> s = list_ascii_of_string p.
Proof.
  unfold starts_with. case_bool_decide as Ht; [|discriminate].
  intros [= Hd]. rewrite <- (take_drop (length (list_ascii_of_string p)) s), Ht, Hd.
  apply app_nil_r.
Qed.

Lemma starts_with_take (p : string) (s r : list ascii) :
  starts_with p s = Some r ->
  s = list_ascii_of_string p ++ r.
Proof.
  unfold starts_with. case_bool_decide as Ht; [|discriminate].
  intros [= Hd]. rewrite <- (take_drop (length (list_ascii_of_string p)) s), Ht, Hd.
  reflexivity.
Qed.

Lemma predicate_pattern_full (s : list ascii) :
  predicate_pattern s = Some [] ->
  string_of_list_ascii s ∈ ["=="; "="; "!="; "<"; ">"].
Proof.
  unfold predicate_pattern, word.
  destruct (starts_with "==" s) as [r|] eqn:H1.
  { intros [= ->]. apply starts_with_full in H1 as ->. (cbn; rewrite !elem_of_cons; tauto). }
  destruct (starts_with "=" s) as [r|] eqn:H2.
  { intros [= ->]. apply starts_with_full in H2 as ->. (cbn; rewrite !elem_of_cons; tauto). }
  destruct (starts_with "!=" s) as [r|] eqn:H3.
  { intros [= ->]. apply starts_with_full in H3 as ->. (cbn; rewrite !elem_of_cons; tauto). }
  destruct (starts_with "<" s) as [r|] eqn:H4.
  { intros [= ->]. apply starts_with_full in H4 as ->. (cbn; rewrite !elem_of_cons; tauto). }
  destruct (starts_with ">" s) as [r|] eqn:H5.
  { intros [= ->]. apply starts_with_full in H5 as ->. (cbn; rewrite !elem_of_cons; tauto). }
  destruct (starts_with "<=" s) as [r|] eqn:H6.
  { intros [= ->]. apply starts_with_full in H6 as ->. discriminate H4. }
  intros H7. apply starts_with_full in H7 as ->. discriminate H5.
Qed.

Lemma token_loop_kinds (n : nat) :
  forall (self self' : LAPLexer) (tok : Token),
  token_loop n self = (Some tok, self') ->
  token tok = COMMENT \/ token tok = LPAREN \/ token tok = RPAREN \/
  first_full_match tokens (list_ascii_of_string (value tok)) = Some (token tok).
Proof.
  induction n as [|n IH]; intros self self' tok; [discriminate|].
  cbn [token_loop].
  destruct (lx_input self) as [|char rest]; [discriminate|].
  destruct (comment_pattern (char :: rest)).
  { intros [= <- _]. left. reflexivity. }
  destruct (is_separating char).
  - destruct (char_tokens char) as [k|] eqn:Hk.
    + intros [= <- _]. cbn [token]. unfold char_tokens in Hk.
      destruct (Ascii.eqb char "("); [injection Hk as <-; right; left; reflexivity|].
      destruct (Ascii.eqb char ")"); [injection Hk as <-; right; right; left; reflexivity|].
      discriminate.
    + apply IH.
  - destruct (first_full_match tokens (fst (span (fun c => negb (is_separating c)) (char :: rest))))
      as [k|] eqn:Hk.
    + intros [= <- _]. cbn [token value]. rewrite list_ascii_of_string_of_list_ascii.
      right; right; right. exact Hk.
    + apply IH.
Qed.

(** X18.  The lexer never returns [<=] or [>=] as a predicate, although
    the pattern of [PREDICATE] lists them: the alternatives [<] and [>]
    come first and match one character, which is not all of the word.
    The text of a [PREDICATE] token is one of [==], [=], [!=], [<] and
    [>]. *)
Theorem LAPLexer_token_predicate (self self' : LAPLexer) (tok : Token) :
  LAPLexer_token self = (Some tok, self') ->
  token tok = PREDICATE ->
  value tok ∈ ["=="; "="; "!="; "<"; ">"].
Proof.
  intros Ht Hk. apply token_loop_kinds in Ht. rewrite Hk in Ht.
  destruct Ht as [Ht|[Ht|[Ht|Ht]]]; try discriminate.
  apply first_full_match_In in Ht as (p & Hin & Hp).
  assert (p = predicate_pattern) as ->.
  { cbn in Hin.
    repeat (destruct Hin as [Hin|Hin]; [inversion Hin; subst; try discriminate; try reflexivity|]).
    destruct Hin. }
  apply predicate_pattern_full in Hp.
  rewrite string_of_list_ascii_of_string in Hp. exact Hp.
Qed.

(** A character that separates tokens and is none itself: a blank, a
    newline, a carriage return or a tab. *)
Definition is_blank (c : ascii) : bool :=
  is_separating c && negb (bool_decide (is_Some (char_tokens c))).

Lemma token_loop_blank (n : nat) :
  forall self : LAPLexer,
  Forall (fun c => is_blank c = true) (lx_input self) ->
  fst (token_loop n self) = None.
Proof.
  induction n as [|n IH]; intros self Hb; [reflexivity|].
  cbn [token_loop].
  destruct (lx_input self) as [|char rest] eqn:Hin; [reflexivity|].
  apply Forall_cons in Hb as [Hc Hrest].
  unfold is_blank in Hc. apply andb_true_iff in Hc as [Hsep Hnt].
  assert (Hq : comment_pattern (char :: rest) = None).
  { cbn [comment_pattern]. destruct (Ascii.eqb_spec char dquote) as [->|]; [|reflexivity].
    discriminate Hsep. }
  rewrite Hq, Hsep.
  destruct (char_tokens char) eqn:Hk.
  - exfalso. apply negb_true_iff, bool_decide_eq_false in Hnt. apply Hnt. eexists; reflexivity.
  - apply IH. exact Hrest.
Qed.

(** ** The parser *)

Section ParserProperties.
Context `{PF : PyFloat}.

(** 1 when the parser holds a token, 0 at the end of the input. *)
Definition tok (p : LAPParser) : nat :=
  match p_t p with Some _ => 1 | None => 0 end.

(** What is left to read: the characters of the input and the token in
    hand. *)
Definition mu (p : LAPParser) : nat :=
  (length (lx_input (p_lex p)) + tok p)%nat.

(** The outcome [r] of a method of the parser is a result that satisfies
    [Q], or an exception that satisfies [E]. *)
Definition post {A} (E : exn -> Prop) (r : res (A * LAPParser))
    (Q : A -> LAPParser -> Prop) : Prop :=
  match r with
  | Ok (a, p') => Q a p'
  | Raise e => E e
  end.

Lemma post_bind {A B} (E : exn -> Prop) (m : P A) (f : A -> P B) (p : LAPParser)
    (Q : B -> LAPParser -> Prop) :
  post E (m p) (fun a p' => post E (f a p') Q) -> post E (pbind m f p) Q.
Proof. unfold pbind, post. destruct (m p) as [[a p']|e]; auto. Qed.

Lemma post_mono {A} (E : exn -> Prop) (r : res (A * LAPParser))
    (Q Q' : A -> LAPParser -> Prop) :
  post E r Q -> (forall a p', Q a p' -> Q' a p') -> post E r Q'.
Proof. unfold post. destruct r as [[a p']|e]; auto. Qed.

Lemma post_ret {A} (E : exn -> Prop) (a : A) (p : LAPParser)
    (Q : A -> LAPParser -> Prop) :
  Q a p -> post E (ret a p) Q.
Proof. auto. Qed.

(** The token in hand is of one of the kinds [l]. *)
Definition at_one_of (p : LAPParser) (l : list token_kind) : Prop :=
  exists t, p_t p = Some t /\ token t ∈ l.

(** The exceptions of [parse]. *)
Definition parse_exn (e : exn) : Prop :=
  match e with
  | ParseError _ | NameError _ | ZeroDivisionError _ => True
  | _ => False
  end.

Lemma post_pmatch (E : exn -> Prop) (l : list token_kind) (p : LAPParser) :
  (forall msg, E (ParseError msg)) ->
  post E (pmatch l p)
    (fun b p' => p' = p /\ tok p = 1%nat /\ (b = true <-> at_one_of p l)).
Proof.
  intros HE. unfold pmatch, post, tok, at_one_of. destruct (p_t p) as [t|]; [|apply HE].
  split; [reflexivity|]. split; [reflexivity|].
  rewrite bool_decide_eq_true. split.
  - intros H. exists t. split; [reflexivity|exact H].
  - intros (t' & [= <-] & H). exact H.
Qed.

Lemma post_perror {A} (E : exn -> Prop) (msg : string) (p : LAPParser)
    (Q : A -> LAPParser -> Prop) :
  (forall msg, E (ParseError msg)) -> post E (perror msg p) Q.
Proof. intros HE. apply HE. Qed.

Lemma post_t_value (E : exn -> Prop) (p : LAPParser) :
  tok p = 1%nat -> post E (t_value p) (fun _ p' => p' = p).
Proof. unfold t_value, post, tok. destruct (p_t p); [reflexivity|discriminate]. Qed.

Lemma post_t_token (E : exn -> Prop) (p : LAPParser) :
  tok p = 1%nat -> post E (t_token p) (fun _ p' => p' = p).
Proof. unfold t_token, post, tok. destruct (p_t p); [reflexivity|discriminate]. Qed.

Lemma post_t_present (E : exn -> Prop) (p : LAPParser) :
  post E (t_present p) (fun b p' => p' = p /\ (b = true -> tok p = 1%nat) /\
                                    (b = false -> p_t p = None)).
Proof.
  unfold t_present, post, tok. destruct (p_t p) as [t|].
  - split; [reflexivity|]. split; [reflexivity|].
    rewrite bool_decide_eq_false. intros H. destruct H. eexists. reflexivity.
  - split; [reflexivity|]. split; [|reflexivity].
    rewrite bool_decide_eq_true. intros [x Hx]. discriminate.
Qed.

Lemma post_expect (E : exn -> Prop) (l : list token_kind) (msg : string -> string)
    (p : LAPParser) :
  (forall msg, E (ParseError msg)) ->
  post E (expect l msg p) (fun _ p' => p' = p /\ tok p = 1%nat /\ at_one_of p l).
Proof.
  intros HE. unfold expect. apply post_bind.
  eapply post_mono; [apply post_pmatch, HE|].
  intros b p' (-> & Ht & Hb). destruct b.
  - apply post_ret. split; [reflexivity|]. split; [exact Ht|]. apply Hb. reflexivity.
  - apply post_bind. eapply post_mono; [apply post_t_value, Ht|].
    intros v p' ->. apply post_perror, HE.
Qed.

Lemma LAPLexer_token_length (lx : LAPLexer) :
  (length (lx_input (snd (LAPLexer_token lx))) +
   match fst (LAPLexer_token lx) with Some _ => 1 | None => 0 end
   <= length (lx_input lx))%nat.
Proof.
  unfold LAPLexer_token.
  destruct (token_loop_spec (S (length (lx_input lx))) lx) as
    (sk & H1 & H2 & H3 & _); [lia|].
  remember (token_loop (S (length (lx_input lx))) lx) as r eqn:Hr. clear Hr.
  destruct r as [[t|] lx']; cbn [fst snd] in *.
  - specialize (H3 t eq_refl). rewrite H1, !length_app.
    destruct (token_text (Some t)); [congruence|]. cbn [length]. lia.
  - rewrite H2 by reflexivity. cbn [length]. lia.
Qed.

Lemma post_nextToken (E : exn -> Prop) (p : LAPParser) :
  post E (nextToken p) (fun _ p' => (mu p' + tok p <= mu p)%nat).
Proof.
  unfold nextToken, post.
  pose proof (LAPLexer_token_length (p_lex p)) as H.
  destruct (LAPLexer_token (p_lex p)) as [t lx]. cbn [fst snd] in H.
  unfold mu, tok at 1. cbn [p_lex p_t]. lia.
Qed.


(** The names of a plan are well formed: every competence and action
    pattern is stored under its own name, and no name is both. *)
Definition well_named (pb : PlanBuilder) : Prop :=
  (forall name c, pb_competences pb !! name = Some c -> cd_name c = name) /\
  (forall name a, pb_actionpatterns pb !! name = Some a -> apd_name a = name) /\
  (forall name, is_Some (pb_competences pb !! name) ->
                pb_actionpatterns pb !! name = None).

(** A list of lists none of which is empty, and that is not empty itself. *)
Definition nonempty_lists {A} (l : list (list A)) : Prop :=
  l <> [] /\ Forall (fun x => x <> []) l.

(** Every list of the plan has an element: the priorities of the drive
    collection and of the competences and their rows, and the elements of
    the action patterns. *)
Definition filled (pb : PlanBuilder) : Prop :=
  (forall dc, pb_drivecollection pb = Some dc -> nonempty_lists (dcd_priorities dc)) /\
  (forall name c, pb_competences pb !! name = Some c ->
                  nonempty_lists (cd_priorities c)) /\
  (forall name a, pb_actionpatterns pb !! name = Some a -> apd_elements a <> []).

(** The counters of [plan] count what the plan builder holds. *)
Definition counted (pb : PlanBuilder) (k : plan_counts) : Prop :=
  size (pb_competences pb) = n_c k /\
  size (pb_actionpatterns pb) = n_ap k /\
  (n_dc k = 0%nat <-> pb_drivecollection pb = None).

Lemma has_key_false {A} (m : gmap string A) (k : string) :
  has_key m k = false -> m !! k = None.
Proof.
  unfold has_key. rewrite bool_decide_eq_false. intros H.
  destruct (m !! k) eqn:Hk; [|reflexivity]. destruct H. eexists. reflexivity.
Qed.

Lemma addCompetence_Ok (c : competence_desc) (pb pb' : PlanBuilder) :
  addCompetence c pb = Ok pb' ->
  pb_competences pb !! cd_name c = None /\
  pb_actionpatterns pb !! cd_name c = None /\
  pb' = {| pb_docstring := pb_docstring pb;
           pb_drivecollection := pb_drivecollection pb;
           pb_actionpatterns := pb_actionpatterns pb;
           pb_competences := <[cd_name c := c]> (pb_competences pb) |}.
Proof.
  unfold addCompetence.
  destruct (has_key (pb_competences pb) _) eqn:H1; [discriminate|].
  destruct (has_key (pb_actionpatterns pb) _) eqn:H2; [discriminate|].
  intros [= <-]. auto using has_key_false.
Qed.

Lemma addActionPattern_Ok (a : action_pattern_desc) (pb pb' : PlanBuilder) :
  addActionPattern a pb = Ok pb' ->
  pb_actionpatterns pb !! apd_name a = None /\
  pb_competences pb !! apd_name a = None /\
  pb' = {| pb_docstring := pb_docstring pb;
           pb_drivecollection := pb_drivecollection pb;
           pb_actionpatterns := <[apd_name a := a]> (pb_actionpatterns pb);
           pb_competences := pb_competences pb |}.
Proof.
  unfold addActionPattern.
  destruct (has_key (pb_actionpatterns pb) _) eqn:H1; [discriminate|].
  destruct (has_key (pb_competences pb) _) eqn:H2; [discriminate|].
  intros [= <-]. auto using has_key_false.
Qed.

Lemma addCompetence_well_named (c : competence_desc) (pb pb' : PlanBuilder)
    (k : plan_counts) :
  addCompetence c pb = Ok pb' -> well_named pb -> counted pb k ->
  well_named pb' /\
  counted pb' {| n_ap := n_ap k; n_c := S (n_c k); n_d := n_d k; n_dc := n_dc k |}.
Proof.
  intros Hadd (Hc & Ha & Hd) (Hnc & Hna & Hdc).
  apply addCompetence_Ok in Hadd as (H1 & H2 & ->). split.
  - split; [|split]; cbn [pb_competences pb_actionpatterns].
    + intros name c'. destruct (decide (cd_name c = name)) as [<-|Hne].
      * rewrite lookup_insert_eq. intros [= <-]. reflexivity.
      * rewrite lookup_insert_ne by exact Hne. apply Hc.
    + exact Ha.
    + intros name. destruct (decide (cd_name c = name)) as [<-|Hne].
      * intros _. exact H2.
      * rewrite lookup_insert_ne by exact Hne. apply Hd.
  - split; [|split]; cbn [pb_competences pb_actionpatterns pb_drivecollection n_c n_ap n_dc].
    + rewrite map_size_insert_None by exact H1. rewrite Hnc. reflexivity.
    + exact Hna.
    + exact Hdc.
Qed.

Lemma addActionPattern_well_named (a : action_pattern_desc) (pb pb' : PlanBuilder)
    (k : plan_counts) :
  addActionPattern a pb = Ok pb' -> well_named pb -> counted pb k ->
  well_named pb' /\
  counted pb' {| n_ap := S (n_ap k); n_c := n_c k; n_d := n_d k; n_dc := n_dc k |}.
Proof.
  intros Hadd (Hc & Ha & Hd) (Hnc & Hna & Hdc).
  apply addActionPattern_Ok in Hadd as (H1 & H2 & ->). split.
  - split; [|split]; cbn [pb_competences pb_actionpatterns].
    + exact Hc.
    + intros name a'. destruct (decide (apd_name a = name)) as [<-|Hne].
      * rewrite lookup_insert_eq. intros [= <-]. reflexivity.
      * rewrite lookup_insert_ne by exact Hne. apply Ha.
    + intros name Hs. destruct (decide (apd_name a = name)) as [<-|Hne].
      * rewrite H2 in Hs. destruct Hs as [x Hx]. discriminate.
      * rewrite lookup_insert_ne by exact Hne. apply Hd, Hs.
  - split; [|split]; cbn [pb_competences pb_actionpatterns pb_drivecollection n_c n_ap n_dc].
    + exact Hnc.
    + rewrite map_size_insert_None by exact H1. rewrite Hna. reflexivity.
    + exact Hdc.
Qed.

Section Specs.
Variable E : exn -> Prop.
Hypothesis HE : forall e, parse_exn e -> E e.

Lemma E_parse_error (msg : string) : E (ParseError msg).
Proof. apply HE. exact I. Qed.

Ltac pcall lem :=
  lazymatch goal with
  | |- post _ (pbind _ _ _) _ => apply post_bind
  | _ => idtac
  end;
  eapply post_mono; [eapply lem; try eassumption; try lia | intros ? ? ?; cbn beta in *].

Ltac pstep :=
  lazymatch goal with
  | |- post _ (pbind _ _ _) _ => apply post_bind
  | |- post _ (ret _ _) _ => apply post_ret
  | |- post _ (expect _ _ _) _ =>
      eapply post_mono;
        [apply post_expect, E_parse_error | intros ? ? (-> & ? & ?); cbn beta in *]
  | |- post _ (pmatch _ _) _ =>
      eapply post_mono;
        [apply post_pmatch, E_parse_error | intros ? ? (-> & ? & ?); cbn beta in *]
  | |- post _ (t_value _) _ =>
      eapply post_mono; [apply post_t_value; assumption | intros ? ? ->; cbn beta in *]
  | |- post _ (t_token _) _ =>
      eapply post_mono; [apply post_t_token; assumption | intros ? ? ->; cbn beta in *]
  | |- post _ (nextToken _) _ =>
      eapply post_mono; [apply post_nextToken | intros ? ? ?; cbn beta in *]
  | |- post _ (perror _ _) _ => apply post_perror, E_parse_error
  | |- post _ ((if ?b then _ else _) _) _ => destruct b eqn:?
  | |- post _ ((let '(_, _) := ?r in _) _) _ => destruct r
  | |- post _ ((let _ := _ in _) _) _ => cbn zeta
  end.

Ltac pauto := repeat pstep; try lia.

Lemma numfloat_spec (p : LAPParser) :
  post E (numfloat p) (fun _ p' => (mu p' < mu p)%nat).
Proof. unfold numfloat. pauto. Qed.

Lemma freq_unit_spec (p : LAPParser) :
  post E (freq_unit p) (fun _ p' => (mu p' < mu p)%nat).
Proof. unfold freq_unit. pauto. Qed.

Lemma time_unit_spec (p : LAPParser) :
  post E (time_unit p) (fun _ p' => (mu p' < mu p)%nat).
Proof. unfold time_unit. pauto. Qed.

Lemma times_spec (factor : string) (v : float) (p : LAPParser) :
  post E (times factor v p) (fun _ p' => p' = p).
Proof. unfold times. pauto. reflexivity. Qed.

Lemma divided_spec (numerator : string) (v : float) (p : LAPParser) :
  post E (divided numerator v p) (fun _ p' => p' = p).
Proof.
  unfold divided. destruct (fdiv _ v).
  - pauto. reflexivity.
  - apply HE. exact I.
Qed.

Lemma freq_spec (p : LAPParser) :
  post E (freq p) (fun _ p' => (mu p' < mu p)%nat).
Proof.
  unfold freq. pauto. pcall freq_unit_spec. pauto. pcall numfloat_spec. pauto.
  destruct a; first [pcall times_spec | pcall divided_spec | pauto]; subst; lia.
Qed.

Lemma time_spec (p : LAPParser) :
  post E (time p) (fun _ p' => (mu p' < mu p)%nat).
Proof.
  unfold time. pauto. pcall time_unit_spec. pauto. pcall numfloat_spec. pauto.
  destruct a; first [pcall times_spec | pauto]; subst; lia.
Qed.


Lemma opt_comment_spec (p : LAPParser) :
  post E (opt_comment p) (fun _ p' => (mu p' <= mu p)%nat).
Proof. unfold opt_comment. pauto. Qed.

Lemma sense_value_spec (p : LAPParser) :
  post E (sense_value p) (fun _ p' => (mu p' < mu p)%nat).
Proof. unfold sense_value. pauto. Qed.

Lemma predicate_spec (p : LAPParser) :
  post E (predicate p) (fun _ p' => (mu p' < mu p)%nat).
Proof. unfold predicate. pauto. Qed.

Lemma full_sense_spec (p : LAPParser) :
  post E (full_sense p) (fun _ p' => (mu p' < mu p)%nat).
Proof.
  unfold full_sense. pauto.
  pcall sense_value_spec. pauto. pcall predicate_spec. pauto.
Qed.

Lemma senses_loop_spec (n : nat) :
  forall (elements : list sense_desc) (p : LAPParser),
  (mu p < n)%nat ->
  post E (senses_loop n elements p) (fun _ p' => (mu p' <= mu p)%nat).
Proof.
  induction n as [|n IH]; intros elements p Hn; [lia|].
  cbn [senses_loop]. pauto.
  - pcall IH. lia.
  - pcall full_sense_spec. pcall IH. lia.
Qed.

Lemma senses_spec (n : nat) (p : LAPParser) :
  (mu p < n)%nat ->
  post E (senses n p) (fun _ p' => (mu p' < mu p)%nat).
Proof.
  intros Hn. unfold senses. pauto. pcall senses_loop_spec. pauto.
Qed.

Lemma goal_spec (n : nat) (p : LAPParser) :
  (mu p < n)%nat ->
  post E (goal n p) (fun _ p' => (mu p' < mu p)%nat).
Proof. intros Hn. unfold goal. pauto. pcall senses_spec. pauto. Qed.

Lemma trigger_spec (n : nat) (p : LAPParser) :
  (mu p < n)%nat ->
  post E (trigger n p) (fun _ p' => (mu p' < mu p)%nat).
Proof. intros Hn. unfold trigger. pauto. pcall senses_spec. pauto. Qed.

Lemma while_lparen_spec {A} (n : nat) (item : P A) (Qi : A -> Prop) :
  (forall p, (mu p < n)%nat ->
             post E (item p) (fun x p' => (mu p' < mu p)%nat /\ Qi x)) ->
  forall (k : nat) (out : list A) (p : LAPParser),
  (mu p < k)%nat -> (mu p < n)%nat -> Forall Qi out ->
  post E (while_lparen k item out p)
    (fun r p' => (mu p' <= mu p)%nat /\ Forall Qi r /\
                 (length out <= length r)%nat /\
                 (at_one_of p [LPAREN] -> (length out < length r)%nat)).
Proof.
  intros Hitem. induction k as [|k IH]; intros out p Hk Hn Hout; [lia|].
  cbn [while_lparen]. pauto.
  - pcall Hitem.
    match goal with H : _ /\ Qi _ |- _ => destruct H as [Hmu Hq] end.
    pcall IH.
    { apply Forall_app. split; [exact Hout|]. constructor; [exact Hq|constructor]. }
    match goal with H : _ /\ _ /\ _ /\ _ |- _ => destruct H as (Hx1 & Hx2 & Hx3 & _) end.
    rewrite length_app in Hx3. cbn [length] in Hx3.
    split; [lia|]. split; [exact Hx2|]. split; [lia|]. intros _. lia.
  - split; [lia|]. split; [exact Hout|]. split; [lia|].
    intros Hat.
    match goal with H : false = true <-> _ |- _ => apply H in Hat; discriminate end.
Qed.

Lemma drive_collection_id_spec (p : LAPParser) :
  post E (drive_collection_id p) (fun _ p' => (mu p' < mu p)%nat).
Proof. unfold drive_collection_id. pauto. Qed.

Lemma drive_element_spec (n : nat) (p : LAPParser) :
  (mu p < n)%nat ->
  post E (drive_element n p) (fun _ p' => (mu p' < mu p)%nat).
Proof.
  intros Hn. unfold drive_element. pauto.
  all: try (pcall trigger_spec; pauto).
  all: try (pcall freq_spec; pauto).
  all: try (pcall opt_comment_spec; pauto).
Qed.

Lemma drive_elements_spec (n : nat) (p : LAPParser) :
  (mu p < n)%nat ->
  post E (drive_elements n p) (fun r p' => (mu p' < mu p)%nat /\ r <> []).
Proof.
  intros Hn. unfold drive_elements. pauto.
  pcall (while_lparen_spec n (drive_element n) (fun _ => True)).
  - intros q Hq. eapply post_mono; [apply drive_element_spec, Hq|]. auto.
  - constructor.
  - match goal with H : _ /\ _ /\ _ /\ _ |- _ => destruct H as (Hx1 & _ & _ & Hx4) end.
    pauto. split; [lia|].
    match goal with H : at_one_of _ [LPAREN] |- _ => specialize (Hx4 H) end.
    cbn [length] in Hx4. intros ->. cbn in Hx4. lia.
Qed.

Lemma drive_priorities_spec (n : nat) (p : LAPParser) :
  (mu p < n)%nat ->
  post E (drive_priorities n p) (fun r p' => (mu p' <= mu p)%nat /\ nonempty_lists r).
Proof.
  intros Hn. unfold drive_priorities. pauto.
  pcall (while_lparen_spec n (drive_elements n) (fun l => l <> [])).
  - intros q Hq. apply drive_elements_spec, Hq.
  - constructor.
  - match goal with H : _ /\ _ /\ _ /\ _ |- _ => destruct H as (Hx1 & Hx2 & _ & Hx4) end.
    split; [lia|]. split; [|exact Hx2].
    match goal with H : at_one_of _ [LPAREN] |- _ => specialize (Hx4 H) end.
    cbn [length] in Hx4. intros ->. cbn in Hx4. lia.
Qed.

Lemma drive_collection_spec (n : nat) (p : LAPParser) :
  (mu p < n)%nat ->
  post E (drive_collection n p)
    (fun r p' => (mu p' < mu p)%nat /\ nonempty_lists (dcd_priorities r)).
Proof.
  intros Hn. unfold drive_collection. pauto.
  pcall drive_collection_id_spec. pauto.
  all: try (pcall goal_spec; pauto).
  all: pcall drive_priorities_spec; pauto.
  all: cbn [dcd_priorities]; split; [lia|tauto].
Qed.

Lemma competence_element_spec (n : nat) (p : LAPParser) :
  (mu p < n)%nat ->
  post E (competence_element n p) (fun _ p' => (mu p' < mu p)%nat).
Proof.
  intros Hn. unfold competence_element. pauto.
  all: try (pcall trigger_spec; pauto).
  all: try (pcall opt_comment_spec; pauto).
Qed.

Lemma competence_elements_spec (n : nat) (p : LAPParser) :
  (mu p < n)%nat ->
  post E (competence_elements n p) (fun r p' => (mu p' < mu p)%nat /\ r <> []).
Proof.
  intros Hn. unfold competence_elements. pauto.
  pcall (while_lparen_spec n (competence_element n) (fun _ => True)).
  - intros q Hq. eapply post_mono; [apply competence_element_spec, Hq|]. auto.
  - constructor.
  - match goal with H : _ /\ _ /\ _ /\ _ |- _ => destruct H as (Hx1 & _ & _ & Hx4) end.
    pauto. split; [lia|].
    match goal with H : at_one_of _ [LPAREN] |- _ => specialize (Hx4 H) end.
    cbn [length] in Hx4. intros ->. cbn in Hx4. lia.
Qed.

Lemma competence_priorities_spec (n : nat) (p : LAPParser) :
  (mu p < n)%nat ->
  post E (competence_priorities n p)
    (fun r p' => (mu p' <= mu p)%nat /\ nonempty_lists r).
Proof.
  intros Hn. unfold competence_priorities. pauto.
  pcall (while_lparen_spec n (competence_elements n) (fun l => l <> [])).
  - intros q Hq. apply competence_elements_spec, Hq.
  - constructor.
  - match goal with H : _ /\ _ /\ _ /\ _ |- _ => destruct H as (Hx1 & Hx2 & _ & Hx4) end.
    split; [lia|]. split; [|exact Hx2].
    match goal with H : at_one_of _ [LPAREN] |- _ => specialize (Hx4 H) end.
    cbn [length] in Hx4. intros ->. cbn in Hx4. lia.
Qed.

Lemma goal_then_lparen_spec (n : nat) (name : string) (p : LAPParser) :
  (mu p < n)%nat ->
  post E (goal_then_lparen n name p) (fun _ p' => (mu p' <= mu p)%nat).
Proof.
  intros Hn. unfold goal_then_lparen. pauto.
  pcall goal_spec. pauto.
Qed.

Lemma competence_spec (n : nat) (p : LAPParser) :
  (mu p < n)%nat ->
  post E (competence n p)
    (fun r p' => (mu p' < mu p)%nat /\ nonempty_lists (cd_priorities r)).
Proof.
  intros Hn. unfold competence. pauto.
  all: try (pcall time_spec; pauto).
  all: try (pcall goal_then_lparen_spec; pauto).
  all: try (pcall goal_spec; pauto).
  all: pcall competence_priorities_spec; pauto; pcall opt_comment_spec; pauto.
  all: cbn [cd_priorities]; split; [lia|tauto].
Qed.

Lemma ap_elements_loop_spec (n : nat) :
  forall (elements : list sense_desc) (p : LAPParser),
  (mu p < n)%nat ->
  post E (ap_elements_loop n elements p)
    (fun r p' => (mu p' <= mu p)%nat /\ (length elements <= length r)%nat /\
                 (at_one_of p [NAME; LPAREN] -> (length elements < length r)%nat)).
Proof.
  induction n as [|n IH]; intros elements p Hn; [lia|].
  cbn [ap_elements_loop]. pauto.
  - pcall full_sense_spec. pcall IH.
    match goal with H : _ /\ _ /\ _ |- _ => destruct H as (Hx1 & Hx2 & _) end.
    rewrite length_app in Hx2. cbn [length] in Hx2.
    split; [lia|]. split; [lia|]. intros _. lia.
  - pcall IH.
    match goal with H : _ /\ _ /\ _ |- _ => destruct H as (Hx1 & Hx2 & _) end.
    rewrite length_app in Hx2. cbn [length] in Hx2.
    split; [lia|]. split; [lia|]. intros _. lia.
  - split; [lia|]. split; [lia|]. intros Hat.
    match goal with H : false = true <-> _ |- _ => apply H in Hat; discriminate end.
Qed.

Lemma action_pattern_elements_spec (n : nat) (p : LAPParser) :
  (mu p < n)%nat ->
  post E (action_pattern_elements n p) (fun r p' => (mu p' < mu p)%nat /\ r <> []).
Proof.
  intros Hn. unfold action_pattern_elements. pauto.
  pcall ap_elements_loop_spec.
  match goal with H : _ /\ _ /\ _ |- _ => destruct H as (Hx1 & _ & Hx3) end.
  pauto. split; [lia|].
  assert (Hat : at_one_of p [NAME; LPAREN]).
  { match goal with H : at_one_of p [LPAREN; NAME] |- _ =>
      destruct H as (t & Ht & Hin) end.
    exists t. split; [exact Ht|]. rewrite !elem_of_cons in *. tauto. }
  specialize (Hx3 Hat). cbn [length] in Hx3. intros ->. cbn in Hx3. lia.
Qed.

Lemma action_pattern_spec (n : nat) (p : LAPParser) :
  (mu p < n)%nat ->
  post E (action_pattern n p)
    (fun r p' => (mu p' < mu p)%nat /\ apd_elements r <> []).
Proof.
  intros Hn. unfold action_pattern. pauto.
  all: try (pcall time_spec; pauto).
  all: pcall action_pattern_elements_spec; pcall opt_comment_spec; pauto.
  all: cbn [apd_elements]; split; [lia|tauto].
Qed.

Lemma docstring_loop_spec (n : nat) :
  forall (docs : list string) (p : LAPParser),
  post E (docstring_loop n docs p) (fun _ p' => (mu p' <= mu p)%nat).
Proof.
  induction n as [|n IH]; intros docs p; cbn [docstring_loop]; pauto.
  pcall IH. lia.
Qed.

Lemma docstring_spec (p : LAPParser) :
  post E (docstring p) (fun _ p' => (mu p' < mu p)%nat).
Proof. unfold docstring. pauto. pcall docstring_loop_spec. pauto. Qed.

Lemma post_lift_res {A} (r : res A) (p : LAPParser) :
  (forall e, r = Raise e -> E e) ->
  post E (lift_res r p) (fun a p' => p' = p /\ r = Ok a).
Proof. intros Hr. unfold lift_res, post. destruct r; [split; reflexivity|apply Hr; reflexivity]. Qed.

Lemma addCompetence_raises (c : competence_desc) (pb : PlanBuilder) (e : exn) :
  addCompetence c pb = Raise e -> parse_exn e.
Proof.
  unfold addCompetence. destruct (has_key _ _); [intros [= <-]; exact I|].
  destruct (has_key _ _); [intros [= <-]; exact I|discriminate].
Qed.

Lemma addActionPattern_raises (a : action_pattern_desc) (pb : PlanBuilder) (e : exn) :
  addActionPattern a pb = Raise e -> parse_exn e.
Proof.
  unfold addActionPattern. destruct (has_key _ _); [intros [= <-]; exact I|].
  destruct (has_key _ _); [intros [= <-]; exact I|discriminate].
Qed.

Lemma filled_init : filled PlanBuilder_init.
Proof.
  split; [|split]; cbn; intros *; try rewrite lookup_empty; discriminate.
Qed.

Lemma addCompetence_filled (c : competence_desc) (pb pb' : PlanBuilder) :
  addCompetence c pb = Ok pb' -> nonempty_lists (cd_priorities c) -> filled pb ->
  filled pb'.
Proof.
  intros Hadd Hc (F1 & F2 & F3). apply addCompetence_Ok in Hadd as (_ & _ & ->).
  split; [exact F1|]. split; [|exact F3].
  cbn [pb_competences]. intros name c'.
  destruct (decide (cd_name c = name)) as [<-|Hne].
  - rewrite lookup_insert_eq. intros [= <-]. exact Hc.
  - rewrite lookup_insert_ne by exact Hne. apply F2.
Qed.

Lemma addActionPattern_filled (a : action_pattern_desc) (pb pb' : PlanBuilder) :
  addActionPattern a pb = Ok pb' -> apd_elements a <> [] -> filled pb -> filled pb'.
Proof.
  intros Hadd Ha (F1 & F2 & F3). apply addActionPattern_Ok in Hadd as (_ & _ & ->).
  split; [exact F1|]. split; [exact F2|].
  cbn [pb_actionpatterns]. intros name a'.
  destruct (decide (apd_name a = name)) as [<-|Hne].
  - rewrite lookup_insert_eq. intros [= <-]. exact Ha.
  - rewrite lookup_insert_ne by exact Hne. apply F3.
Qed.

Lemma plan_loop_spec (n : nat) :
  forall (pb : PlanBuilder) (k : plan_counts) (p : LAPParser),
  (mu p < n)%nat -> well_named pb -> counted pb k -> filled pb ->
  post E (plan_loop n pb k p)
    (fun r p' => (mu p' <= mu p)%nat /\ well_named (fst r) /\ counted (fst r) (snd r) /\
                 filled (fst r)).
Proof.
  induction n as [|n IH]; intros pb k p Hn Hw Hk Hf; [lia|].
  cbn [plan_loop]. pauto.
  - cbn [fst snd]. split; [lia|tauto].
  - pcall docstring_spec. pcall IH. split; [lia|tauto].
  - pcall competence_spec.
    match goal with H : _ /\ nonempty_lists _ |- _ => destruct H as [Hmu Hne] end.
    apply post_bind. eapply post_mono.
    { apply post_lift_res. intros e He. eapply HE, addCompetence_raises, He. }
    intros pb' ? [-> Hadd]. cbn beta.
    destruct (addCompetence_well_named _ _ _ k Hadd Hw Hk) as [Hw' Hk'].
    pose proof (addCompetence_filled _ _ _ Hadd Hne Hf) as Hf'.
    pcall IH. split; [lia|tauto].
  - pcall action_pattern_spec.
    match goal with H : _ /\ _ <> [] |- _ => destruct H as [Hmu Hne] end.
    apply post_bind. eapply post_mono.
    { apply post_lift_res. intros e He. eapply HE, addActionPattern_raises, He. }
    intros pb' ? [-> Hadd]. cbn beta.
    destruct (addActionPattern_well_named _ _ _ k Hadd Hw Hk) as [Hw' Hk'].
    pose proof (addActionPattern_filled _ _ _ Hadd Hne Hf) as Hf'.
    pcall IH. split; [lia|tauto].
  - pcall drive_collection_spec.
    match goal with H : _ /\ nonempty_lists _ |- _ => destruct H as [Hmu Hne] end.
    pcall IH.
    + destruct Hk as (? & ? & ?). split; [assumption|]. split; [assumption|].
      cbn. split; discriminate.
    + destruct Hf as (F1 & F2 & F3). split; [|split; assumption].
      cbn [setDriveCollection pb_drivecollection]. intros dc [= <-]. exact Hne.
    + split; [lia|tauto].
Qed.

(** What [plan] returns. *)
Definition plan_ok (pb : PlanBuilder) : Prop :=
  well_named pb /\ filled pb /\
  (is_Some (pb_drivecollection pb) \/
   (size (pb_competences pb) + size (pb_actionpatterns pb) = 1)%nat).

Lemma plan_spec (n : nat) (p : LAPParser) :
  (mu p < n)%nat ->
  post E (plan n p) (fun pb _ => plan_ok pb).
Proof.
  intros Hn. unfold plan. pauto.
  pcall plan_loop_spec.
  { split; [|split]; cbn; intros *; try rewrite lookup_empty; try discriminate.
    intros [x Hx]. discriminate. }
  { split; [|split]; cbn; try reflexivity. tauto. }
  { apply filled_init. }
  match goal with H : _ /\ _ /\ _ /\ _ |- _ => destruct H as (_ & Hw & Hk & Hf) end.
  destruct Hk as (Hnc & Hna & Hdc).
  pauto. cbn [fst snd] in *.
  pcall post_t_present.
  match goal with H : _ = _ /\ _ |- _ => destruct H as (-> & Ht & _) end.
  match goal with |- post _ (pbind (if ?b then _ else _) _ _) _ => destruct b end.
  - specialize (Ht eq_refl). pauto.
  - pauto. split; [exact Hw|]. split; [exact Hf|].
    match goal with Hb : _ && _ = false |- _ =>
      apply andb_false_iff in Hb as [Hb|Hb];
      [left; apply Nat.eqb_neq in Hb | right; apply negb_false_iff, Nat.eqb_eq in Hb; lia]
    end.
    match goal with |- is_Some ?d => destruct d eqn:Hd; [eexists; reflexivity|] end.
    exfalso. tauto.
Qed.

Lemma start_spec (n : nat) (p : LAPParser) :
  (mu p < n)%nat ->
  post E (start n p) (fun pb _ => plan_ok pb).
Proof.
  intros Hn. unfold start. pauto. pcall plan_spec. assumption.
Qed.

End Specs.

Lemma strip_comments_length (b : bool) (s : list ascii) :
  (length (strip_comments b s) <= length s)%nat.
Proof. apply sublist_length, strip_comments_sublist. Qed.

Lemma list_ascii_of_string_length (s : string) :
  length (list_ascii_of_string s) = String.length s.
Proof. induction s as [|c s IH]; [reflexivity|]. cbn. rewrite IH. reflexivity. Qed.

Lemma parse_spec (input_str : string) :
  match parse input_str with
  | Ok plan_builder => plan_ok plan_builder
  | Raise e => parse_exn e
  end.
Proof.
  unfold parse, parse_with.
  set (p0 := {| p_lex := LAPLexer_init input_str; p_t := None |}).
  assert (H0 : (mu p0 <= String.length input_str)%nat).
  { unfold mu, tok, p0, LAPLexer_init. cbn [p_lex p_t].
    destruct (String.eqb input_str ""); cbn [lx_input LAPLexer_setInput length]; [lia|].
    pose proof (strip_comments_length false (list_ascii_of_string input_str)) as H.
    rewrite list_ascii_of_string_length in H. lia. }
  pose proof (start_spec parse_exn (fun e H => H) (S (String.length input_str)) p0
                ltac:(lia)) as H.
  unfold post in H. destruct (start _ p0) as [[pb p']|e]; exact H.
Qed.


(** X20.  The plan that [parse] returns is well named: every competence
    and every action pattern is stored under its own name, and no name
    is both.  It has a drive collection, or it is one competence or one
    action pattern and nothing else. *)
Theorem parse_well_named (input_str : string) (plan_builder : PlanBuilder) :
  parse input_str = Ok plan_builder ->
  well_named plan_builder /\
  (is_Some (pb_drivecollection plan_builder) \/
   (size (pb_competences plan_builder) + size (pb_actionpatterns plan_builder) = 1)%nat).
Proof.
  intros Hp. pose proof (parse_spec input_str) as H. rewrite Hp in H.
  destruct H as (Hw & _ & Hd). split; assumption.
Qed.

(** X21.  The lists of a plan that [parse] returns are not empty, as the
    [+] of the grammar says: the drive collection and every competence
    have a priority list at least, every priority list has an element at
    least, and so has every action pattern. *)
Theorem parse_filled (input_str : string) (plan_builder : PlanBuilder) :
  parse input_str = Ok plan_builder -> filled plan_builder.
Proof.
  intros Hp. pose proof (parse_spec input_str) as H. rewrite Hp in H.
  destruct H as (_ & Hf & _). exact Hf.
Qed.

(** X22.  A text without a token: nothing, or blanks, newlines and
    comments.  [parse] raises [ParseError] with "Unexpected End Of File
    (EOF)", without a line number. *)
Theorem parse_blank (input_str : string) :
  Forall (fun c => is_blank c = true)
         (strip_comments false (list_ascii_of_string input_str)) ->
  parse input_str = Raise (ParseError "Unexpected End Of File (EOF)").
Proof.
  intros Hb. unfold parse, parse_with, start, pbind, nextToken. cbn [p_lex].
  assert (Ht : fst (LAPLexer_token (LAPLexer_init input_str)) = None).
  { unfold LAPLexer_token. apply token_loop_blank.
    unfold LAPLexer_init. destruct (String.eqb_spec input_str "") as [->|Hne].
    - constructor.
    - exact Hb. }
  destruct (LAPLexer_token (LAPLexer_init input_str)) as [t lx]. cbn [fst] in Ht. subst t.
  reflexivity.
Qed.

End ParserProperties.

(** * Examples

    A host whose state is a counter of calls, a small behaviour
    dictionary, and the scenarios of the specification run on them. *)

(** None of the examples has a float in it; this instance has one float. *)
#[local] Instance example_floats : PyFloat :=
  {| float := unit;
     float_of_literal := fun _ => tt;
     float_of_long := fun _ => tt;
     fmul := fun _ _ => tt;
     fdiv := fun _ _ => Some tt;
     fsub := fun _ _ => tt;
     fge := fun _ _ => true;
     long_of_float := fun _ => 0;
     float_truth := fun _ => false |}.

(** Comparison of integers, as far as the examples need it. *)
Definition example_cmp (f : Z -> Z -> bool) (a b : pyval) : bool :=
  match a, b with
  | PyInt x, PyInt y => f x y
  | _, _ => false
  end.

#[local] Instance example_compare : PyCompare :=
  {| py_eq := example_cmp Z.eqb;
     py_ne := fun a b => negb (example_cmp Z.eqb a b);
     py_le := example_cmp Z.leb;
     py_ge := example_cmp Z.geb;
     py_gt := example_cmp Z.gtb;
     py_lt := example_cmp Z.ltb;
     py_int := fun s => Ok (PyInt (long_of_literal s)) |}.

(** The state of the host: how often the action [a1] has been called. *)
#[local] Instance example_host : Host nat :=
  {| host_timestamp := fun _ => 0; host_sleep := fun _ w => w |}.

(** [doThing] returns true on every call. *)
Definition doThing : @callable example_floats nat :=
  fun w => (Ok (PyBool true), w).

(** [ready] is true on every call. *)
Definition ready : @callable example_floats nat :=
  fun w => (Ok (PyBool true), w).

(** [a1] succeeds when it is called for the first time and fails from the
    second call on; [a2] always succeeds. *)
Definition a1 : @callable example_floats nat :=
  fun w => (Ok (PyBool (w =? 0)%nat), S w).

Definition a2 : @callable example_floats nat :=
  fun w => (Ok (PyBool true), w).

(** The registry of scenario A: the one action [doThing]. *)
Definition registry_A : @BehaviourDict example_floats nat :=
  {| bd_actions := {[ "doThing" := (doThing, "Bot") ]}; bd_senses := ∅ |}.

(** A registry with the sense [ready] as well. *)
Definition registry : @BehaviourDict example_floats nat :=
  {| bd_actions := {[ "doThing" := (doThing, "Bot") ]};
     bd_senses := {[ "ready" := (ready, "Bot") ]} |}.

(** C2, the counterexample: the text of scenario A is no plan.  After the
    parenthesis that opens the plan the parser wants the parenthesis that
    opens the drive collection, and finds [SDC]. *)
Lemma scenario_A_text_is_refused :
  Agent_init registry_A scenario_A_text 0%nat =
    Raise (ParseError
             ("Line 1: Expected '(' as start of documentation / competence / " +:+
              "action-pattern / drive-collection, or ')' to end plan, instead of 'SDC'")) /\
  ~ exists agent, Agent_init registry_A scenario_A_text 0%nat = Ok agent.
Proof.
  assert (H : Agent_init registry_A scenario_A_text 0%nat = Raise scenario_A_error)
    by (vm_compute; reflexivity).
  split; [exact H|]. intros [agent Hagent]. rewrite H in Hagent. discriminate.
Qed.

(** With the plan in its own parentheses the quoted names are refused:
    text in quotes is a comment. *)
Lemma scenario_A_quoted_names_are_refused :
  Agent_init registry_A
    ("((SDC " +:+ quoted "d" +:+ " nil (drives ((e1 nil doThing nil)))))") 0%nat =
    Raise (ParseError
             ("Line 1: Expected a valid drive collection name instead of '" +:+
              quoted "d" +:+ "'")).
Proof. vm_compute. reflexivity. Qed.

(** Without the quotes, and with one pair of parentheses less around the
    drive element, the plan compiles; its drive element has no trigger, and
    the first step raises. *)
Lemma scenario_A_without_trigger_raises :
  exists agent,
    Agent_init registry_A "((SDC d nil (drives ((e1 nil doThing nil)))))" 0%nat = Ok agent /\
    fst (fst (followDrive agent 0%nat)) = Raise (none_has_no "fire").
Proof. eexists. split; vm_compute; reflexivity. Qed.

(** C2, the witness: scenario A in the grammar of the parser, on the
    registry with [doThing] and [ready]. *)
Lemma scenario_A_followed_witness :
  Agent_init registry scenario_A_text 0%nat = Raise scenario_A_error /\
  exists agent,
    Agent_init registry scenario_A_plan 0%nat = Ok agent /\
    forall ws : list nat, run_steps agent ws = map (fun _ => Ok DRIVE_FOLLOWED) ws.
Proof.
  apply (scenario_A_followed registry doThing ready "Bot" "Bot" 0%nat).
  - reflexivity.
  - reflexivity.
  - intros w. exists (PyBool true), w. reflexivity.
  - intros w. exists (PyBool true), w. split; reflexivity.
Defined.

(** ** One competence, named by two drive elements *)

Definition sharing_plan : string :=
  "((C c nil nil (elements ((ce1 (trigger (ready)) doThing 2))))" +:+
  " (SDC d nil (drives ((e1 (trigger (ready)) c nil) (e2 (trigger (ready)) c nil)))))".

(** What the parser makes of it. *)
Definition sharing_builder : PlanBuilder :=
  {| pb_docstring := None;
     pb_drivecollection :=
       Some {| dcd_type := "SDC"; dcd_name := "d"; dcd_goal := None;
               dcd_priorities :=
                 [[ {| ded_name := "e1"; ded_trigger := Some [SName "ready"];
                       ded_triggerable := "c"; ded_freq := None |};
                    {| ded_name := "e2"; ded_trigger := Some [SName "ready"];
                       ded_triggerable := "c"; ded_freq := None |} ]] |};
     pb_actionpatterns := ∅;
     pb_competences :=
       {[ "c" := {| cd_name := "c"; cd_time := None; cd_goal := None;
                    cd_priorities :=
                      [[ {| ced_name := "ce1"; ced_trigger := Some [SName "ready"];
                            ced_triggerable := "doThing"; ced_retries := 2 |} ]] |} ]} |}.

Lemma parse_sharing_plan : parse sharing_plan = Ok sharing_builder.
Proof. vm_compute. reflexivity. Qed.

(** C1, the counterexample: the plan builds, and its two drive elements
    hold the same competence, so the reference sites of the built plan are
    not independent. *)
Lemma shared_competence_is_one_instance :
  exists b,
    build sharing_builder registry 0%nat = Ok b /\
    reference_sites b = [0%nat; 0%nat] /\
    ~ independent_instances b.
Proof.
  destruct (build sharing_builder registry 0%nat) as [b|e] eqn:Hb;
    [|vm_compute in Hb; discriminate].
  exists b. split; [reflexivity|].
  assert (Hsites : reference_sites b = [0%nat; 0%nat]).
  { vm_compute in Hb. inversion Hb. vm_compute. reflexivity. }
  split; [exact Hsites|].
  unfold independent_instances. rewrite Hsites. intros Hnd.
  apply NoDup_cons in Hnd as [Hnotin _]. apply Hnotin. left.
Qed.

(** C1, the witness: the same plan, built. *)
Lemma build_shares_instances_witness :
  exists b,
    build sharing_builder registry 0%nat = Ok b /\
    allocated (b_competences b) (b_heap b) is_competence /\
    drive_sites registry (b_competences b) (b_actionpatterns b)
                [[ {| ded_name := "e1"; ded_trigger := Some [SName "ready"];
                      ded_triggerable := "c"; ded_freq := None |};
                   {| ded_name := "e2"; ded_trigger := Some [SName "ready"];
                      ded_triggerable := "c"; ded_freq := None |} ]]
                (dc_elements (b_dc b)).
Proof.
  destruct (build sharing_builder registry 0%nat) as [b|e] eqn:Hb;
    [|vm_compute in Hb; discriminate].
  exists b. split; [reflexivity|].
  destruct (build_shares_instances sharing_builder registry 0%nat b Hb)
    as (Hc & _ & (dc & Hdc & _ & Hsites) & _).
  split; [exact Hc|].
  inversion Hdc; subst. exact Hsites.
Defined.

(** ** Witnesses of the run-time properties *)

Definition trigger_ready : @Trigger example_floats nat :=
  {| t_senses := [ {| s_sense := ready; s_name := "Bot.ready"; s_value := None;
                      s_pred := "==" |} ] |}.

Definition action_doThing : @Action example_floats nat :=
  {| a_action := doThing; a_name := "Bot.doThing" |}.

Lemma trigger_ready_always_true : always_true trigger_ready.
Proof. intros w. exists w. reflexivity. Qed.

(** C6, the witness: a competence element with two retries is ready three
    times, and not the fourth time. *)
Definition ce_example : @CompetenceElement example_floats nat :=
  CompetenceElement_init "ce1" (Some trigger_ready) (EAction action_doThing) 2.

Lemma CompetenceElement_retry_budget_witness :
  fst (ce_checks (CompetenceElement_reset ce_example) [0; 0; 0; 0; 0]%nat) !! 2%nat
    = Some (Ok true) /\
  fst (ce_checks (CompetenceElement_reset ce_example) [0; 0; 0; 0; 0]%nat) !! 3%nat
    = Some (Ok false).
Proof.
  pose proof (CompetenceElement_retry_budget ce_example trigger_ready
                [0; 0; 0; 0; 0]%nat eq_refl trigger_ready_always_true)
    as (_ & _ & _ & _ & Hchecks & _).
  split.
  - exact (Hchecks 2%nat 0%nat eq_refl).
  - exact (Hchecks 3%nat 0%nat eq_refl).
Defined.

(** C7, the witness, which is scenario D: the pattern [a1, a2], fired when
    [a1] has been called once; [a1] fails, the cursor is at 0 and the
    result is "stop, no hand-off". *)
Definition scenario_D_pattern : @ActionPattern example_floats nat :=
  {| ap_name := "p";
     ap_elements := [ EAction {| a_action := a1; a_name := "Bot.a1" |};
                      EAction {| a_action := a2; a_name := "Bot.a2" |} ];
     ap_element_idx := 0 |}.

Lemma scenario_D :
  exists r self' w',
    ActionPattern_fire scenario_D_pattern 1%nat = (r, self', w') /\
    r = Ok stop_no_handoff /\ ap_element_idx self' = 0%nat /\ w' = 2%nat.
Proof.
  destruct (ActionPattern_fire_state_machine scenario_D_pattern
              (EAction {| a_action := a1; a_name := "Bot.a1" |}) 1%nat eq_refl)
    as (r & self' & w' & Hfire & _ & _ & _ & Hr).
  exists r, self', w'. split; [exact Hfire|exact Hr].
Defined.

(** The whole of scenario D: [a1] succeeds, [a2] succeeds and ends the
    pattern, [a1] fails. *)
Lemma scenario_D_run :
  ActionPattern_fire scenario_D_pattern 0%nat =
    (Ok continue_no_handoff, ap_set_idx 1 scenario_D_pattern, 1%nat) /\
  ActionPattern_fire (ap_set_idx 1 scenario_D_pattern) 1%nat =
    (Ok stop_no_handoff, scenario_D_pattern, 1%nat) /\
  ActionPattern_fire scenario_D_pattern 1%nat =
    (Ok stop_no_handoff, scenario_D_pattern, 2%nat).
Proof. repeat split. Qed.

(** C5, the witness: a drive element that may fire every 3 steps, checked
    at the times 0, 1 and 3. *)
Definition de_example : @DriveElement example_floats nat :=
  DriveElement_init "e1" (Some trigger_ready) (EAction action_doThing) (Some 3).

Definition ops_example : list (@de_op example_floats nat) :=
  [ OpReady 0%nat; OpFire ∅ 0%nat; OpLoopEnd 0%nat;
    OpReady 0%nat; OpLoopEnd 0%nat; OpLoopEnd 0%nat;
    OpReady 0%nat; OpFire ∅ 0%nat; OpLoopEnd 0%nat ].

Lemma DriveElement_frequency_gating_witness :
  fst (fst (de_run de_example (SteppedTimer 0) ops_example)) =
    [ (0, Ok true); (1, Ok false); (3, Ok true) ] /\
  (forall (i j : nat) (ti tj : Z), (i < j)%nat ->
     fst (fst (de_run de_example (SteppedTimer 0) ops_example)) !! i = Some (ti, Ok true) ->
     fst (fst (de_run de_example (SteppedTimer 0) ops_example)) !! j = Some (tj, Ok true) ->
     3 <= tj - ti).
Proof.
  split; [reflexivity|].
  exact (proj1 (DriveElement_frequency_gating de_example trigger_ready 3 0 ops_example
                  eq_refl trigger_ready_always_true eq_refl ltac:(lia))).
Defined.

(** C3, the witness: the first step of the agent of scenario A. *)
Lemma followDrive_outcome_witness :
  fst (fst (followDrive (scenario_A_agent registry doThing ready "Bot" "Bot" 0 (-100000))
                        0%nat)) = Ok DRIVE_FOLLOWED /\
  ~ goal_satisfied (@None (@Trigger example_floats nat)) 0%nat /\
  priority_fired
    (dc_elements (ag_dc (scenario_A_agent registry doThing ready "Bot" "Bot" 0 (-100000))))
    (SteppedTimer 0) ∅ 0%nat.
Proof.
  split; [reflexivity|].
  pose proof (followDrive_outcome
                (scenario_A_agent registry doThing ready "Bot" "Bot" 0 (-100000))
                (SteppedTimer 0) 0%nat DRIVE_FOLLOWED
                (scenario_A_agent registry doThing ready "Bot" "Bot" 1 0)
                0%nat eq_refl eq_refl) as (_ & Hfollowed & _).
  exact (proj1 Hfollowed eq_refl).
Defined.

(** The two drive elements do not have a competence each: firing the
    competence through the first consumes a retry of the competence
    element that the second will fire. *)
Lemma shared_competence_shares_retries :
  exists b e1 e2 h' c,
    build sharing_builder registry 0%nat = Ok b /\
    map dpe_elements (dc_elements (b_dc b)) = [[e1; e2]] /\
    de_root e1 = ERef 0%nat /\ de_root e2 = ERef 0%nat /\
    snd (fst (DriveElement_fire e1 (b_heap b) 0%nat)) = h' /\
    h' !! 0%nat = Some (OCompetence c) /\
    map (fun cpe => map ce_retries (cpe_elements cpe)) (c_elements c) = [[1]].
Proof.
  destruct (build sharing_builder registry 0%nat) as [b|e] eqn:Hb;
    [|vm_compute in Hb; discriminate].
  vm_compute in Hb. inversion Hb; subst b. clear Hb.
  do 5 eexists. repeat split; vm_compute; reflexivity.
Qed.

(** ** Witnesses of the properties of the lexer and the parser *)

(** [<= 5]: the [<] is reported as illegal and the [=] is the predicate. *)
Lemma LAPLexer_token_predicate_witness :
  exists tok self',
    LAPLexer_token (LAPLexer_setInput "<= 5") = (Some tok, self') /\
    token tok = PREDICATE /\
    value tok = "=" /\
    lx_printed self' = ["Line 1: Illegal character '<' found"] /\
    value tok ∈ ["=="; "="; "!="; "<"; ">"].
Proof.
  eexists _, _. split; [vm_compute; reflexivity|].
  split; [reflexivity|]. split; [reflexivity|]. split; [reflexivity|].
  eapply (LAPLexer_token_predicate (LAPLexer_setInput "<= 5")).
  - vm_compute. reflexivity.
  - reflexivity.
Defined.

(** The plan of the two drive elements is well named and has its drive
    collection. *)
Lemma parse_well_named_witness :
  well_named sharing_builder /\
  (is_Some (pb_drivecollection sharing_builder) \/
   (size (pb_competences sharing_builder) + size (pb_actionpatterns sharing_builder)
    = 1)%nat).
Proof. exact (parse_well_named sharing_plan sharing_builder parse_sharing_plan). Defined.

(** The plan of the sharing example has no empty list. *)
Lemma parse_filled_witness : filled sharing_builder.
Proof. exact (parse_filled sharing_plan sharing_builder parse_sharing_plan). Defined.

(** A file of blanks and a comment. *)
Lemma parse_blank_witness :
  parse "   ; a plan is still to be written" =
    Raise (ParseError "Unexpected End Of File (EOF)").
Proof. apply parse_blank. vm_compute. repeat constructor. Defined.

(** ** Witnesses of the properties of the engine *)

(** The sense [health] reads 3. *)
Definition health : @callable example_floats nat :=
  fun w => (Ok (PyInt 3), w).

(** [(health 5 =)]: the predicate [=] is none of the six that [fire]
    knows, and the sense holds although [health] is not 5. *)
Definition health_is_5 : @Sense example_floats nat :=
  {| s_sense := health; s_name := "Bot.health"; s_value := Some (PyInt 5);
     s_pred := "=" |}.

Lemma Sense_fire_other_predicate_witness :
  Sense_fire health_is_5 0%nat = Sense_fire (sense_act_of health_is_5) 0%nat /\
  Sense_fire health_is_5 0%nat = (Ok true, 0%nat).
Proof.
  assert (H : Sense_fire health_is_5 0%nat = Sense_fire (sense_act_of health_is_5) 0%nat).
  { apply Sense_fire_other_predicate. cbn [s_pred health_is_5].
    intros H. repeat (apply elem_of_cons in H as [H|H]; [discriminate H|]).
    inversion H. }
  split; [exact H|]. rewrite H. reflexivity.
Defined.

(** The pattern of scenario D stays in range. *)
Lemma ActionPattern_fire_in_range_witness :
  let '(r, self', _) := ActionPattern_fire scenario_D_pattern 0%nat in
  ap_name self' = ap_name scenario_D_pattern /\
  ap_elements self' = ap_elements scenario_D_pattern /\
  (ap_element_idx self' < length (ap_elements self'))%nat /\
  (ap_element_idx self' = 0%nat \/
   ap_element_idx self' = S (ap_element_idx scenario_D_pattern) \/
   (self' = scenario_D_pattern /\ exists e, r = Raise e)).
Proof.
  apply (ActionPattern_fire_in_range scenario_D_pattern 0%nat). cbn. lia.
Defined.

(** The elements of an action pattern that names the action [doThing] and
    then the competence [c]. *)
Lemma build_action_pattern_elements_shape_witness :
  build_action_pattern_elements registry [SName "doThing"; SName "c"] {[ "c" := 0%nat ]}
    = Ok [EAction action_doThing; ERef 0%nat] /\
  Forall (fun e => is_leaf e = true)
         (all_but_last [EAction action_doThing; ERef 0%nat]).
Proof.
  assert (H : build_action_pattern_elements registry [SName "doThing"; SName "c"]
                {[ "c" := 0%nat ]} = Ok [EAction action_doThing; ERef 0%nat])
    by (vm_compute; reflexivity).
  split; [exact H|].
  exact (proj1 (proj2 (proj2 (build_action_pattern_elements_shape _ _ _ _ H)))).
Defined.

(** A plan of one competence and no drive collection is a plan for the
    parser, and no agent can be made of it. *)
Definition competence_only_plan : string :=
  "((C c nil nil (elements ((ce1 (trigger (ready)) doThing 2)))))".

Lemma Agent_init_needs_drive_collection_witness :
  (exists plan_builder, parse competence_only_plan = Ok plan_builder) /\
  exists e, Agent_init registry competence_only_plan 0%nat = Raise e.
Proof.
  split; [eexists; vm_compute; reflexivity|].
  eapply Agent_init_needs_drive_collection; [vm_compute; reflexivity|reflexivity].
Defined.

(** ** Witnesses of the properties of the behaviour dictionary *)

(** The behaviour [Bot] with its action and its sense, and a behaviour
    that has an action of the same name. *)
Definition bot : @Behaviour example_floats nat :=
  {| bh_name := "Bot"; bh_actions := ["doThing"]; bh_senses := ["ready"];
     bh_attrs := {[ "action_doThing" := doThing; "sense_ready" := ready ]} |}.

Definition other : @Behaviour example_floats nat :=
  {| bh_name := "Other"; bh_actions := ["doThing"]; bh_senses := [];
     bh_attrs := {[ "doThing" := a2 ]} |}.

Definition bot_registered : @BehaviourRegistry example_floats nat :=
  {| br_behaviours := {[ "Bot" := bot ]}; br_dict := registry |}.

Lemma register_bot : registerBehaviour bot BehaviourRegistry_init = (Ok tt, bot_registered).
Proof. vm_compute. reflexivity. Qed.

Lemma registerBehaviour_Ok_witness :
  getBehaviour bot_registered "Bot" = Ok bot /\
  getAction registry "doThing" = Ok doThing /\
  getSense registry "ready" = Ok ready.
Proof.
  pose proof (registerBehaviour_Ok bot BehaviourRegistry_init bot_registered register_bot)
    as (_ & Hb & _ & _ & Ha & _ & Hs & _).
  split; [exact Hb|]. split.
  - destruct (Ha "doThing" ltac:(left)) as (_ & m & Hm & Hg & _).
    vm_compute in Hm. injection Hm as <-. exact Hg.
  - destruct (Hs "ready" ltac:(left)) as (_ & m & Hm & Hg & _).
    vm_compute in Hm. injection Hm as <-. exact Hg.
Defined.



Lemma Agent_loadBehaviours_sound_witness :
  Agent_loadBehaviours [bot] = Ok bot_registered /\
  registry_sound bot_registered /\
  getBehaviour bot_registered "Bot" = Ok bot.
Proof.
  assert (H : Agent_loadBehaviours [bot] = Ok bot_registered) by (vm_compute; reflexivity).
  split; [exact H|].
  destruct (Agent_loadBehaviours_sound [bot] bot_registered H) as [Hs Hb].
  split; [exact Hs|]. apply (Hb bot). left.
Defined.

(** ** What [parse] raises besides [ParseError] *)

(** Two competences of one name: the [NameError] of [addCompetence]. *)
Definition competence_twice : string :=
  "((C c nil nil (elements ((ce1 (trigger (ready)) doThing 2)))) (C c nil nil (elements ((ce1 (trigger (ready)) doThing 2)))))".

Lemma parse_competence_twice :
  parse competence_twice = Raise (NameError "More than one competence named 'c'").
Proof. vm_compute. reflexivity. Qed.

(** Floats that are whole numbers, read from the digits before the point:
    enough to divide by the zero of a literal. *)
Fixpoint whole_part (s : string) : string :=
  match s with
  | EmptyString => EmptyString
  | String c s' => if Ascii.eqb c "." then EmptyString else String c (whole_part s')
  end.

Definition whole_floats : PyFloat :=
  {| float := Z;
     float_of_literal := fun s => long_of_literal (whole_part s);
     float_of_long := fun z => z;
     fmul := Z.mul;
     fdiv := fun a b => if (b =? 0)%Z then None else Some (a / b)%Z;
     fsub := Z.sub;
     fge := Z.geb;
     long_of_float := fun z => z;
     float_truth := fun z => negb (z =? 0)%Z |}.

(** A drive element that is to be fired zero times a second. *)
Definition zero_hertz_plan : string :=
  "((DC life (goal ((ready))) (drives ((d1 (trigger ((ready))) doThing (hz 0))))))".

Lemma parse_zero_hertz :
  @parse whole_floats zero_hertz_plan = Raise (ZeroDivisionError "float division").
Proof. vm_compute. reflexivity. Qed.
